(** * Live voice-chat turn taking: ChatInput.tsx, useSpeechRecognition.ts, api.ts

    A shallow embedding of the live-chat part of the chat widget.

    - JavaScript strings are sequences of UTF-16 code units.
    - Regular expressions of the source are data, run by a backtracking
      matcher with the priorities of the JavaScript engine.
    - Asynchronous functions are trees of actions and awaited queries.
    - React state is a record; a closure created during a render reads the
      record of THAT render, whatever the state has become since. *)

From Stdlib Require Import String Ascii.
From Stdlib Require Import List Bool Arith NArith ZArith QArith Qround Lia.
Import ListNotations.
Close Scope Q_scope.

(* ================================================================== *)
(** ** JavaScript strings *)

Module JsString.

Definition code_unit := N.
Definition jsstring := list code_unit.

(** An ASCII literal of the source, as code units. *)
Definition js (s : string) : jsstring :=
  map N_of_ascii (list_ascii_of_string s).

(** WhiteSpace and LineTerminator of ECMAScript: what [\s] matches and
    what [String.prototype.trim] strips. *)
Definition isWhiteSpace (c : code_unit) : bool :=
  ((9 <=? c) && (c <=? 13) || (c =? 32) || (c =? 160) || (c =? 5760)
   || (8192 <=? c) && (c <=? 8202) || (c =? 8232) || (c =? 8233)
   || (c =? 8239) || (c =? 8287) || (c =? 12288) || (c =? 65279))%N.

Definition notWhiteSpace (c : code_unit) : bool := negb (isWhiteSpace c).

Fixpoint dropWhile (p : code_unit -> bool) (s : jsstring) : jsstring :=
  match s with
  | [] => []
  | c :: s' => if p c then dropWhile p s' else s
  end.

Definition trimStart (s : jsstring) : jsstring := dropWhile isWhiteSpace s.
Definition trimEnd (s : jsstring) : jsstring :=
  rev (dropWhile isWhiteSpace (rev s)).
Definition trim (s : jsstring) : jsstring := trimEnd (trimStart s).

Fixpoint startsWith (s p : jsstring) {struct p} : bool :=
  match p, s with
  | [], _ => true
  | _ :: _, [] => false
  | a :: p', b :: s' => (a =? b)%N && startsWith s' p'
  end.

(** [s.includes(p)] *)
Fixpoint includes (s p : jsstring) : bool :=
  startsWith s p ||
  match s with
  | [] => false
  | _ :: s' => includes s' p
  end.

Definition eqb (a b : jsstring) : bool :=
  if list_eq_dec N.eq_dec a b then true else false.

(** A string is truthy when it is not empty. *)
Definition nonEmpty (s : jsstring) : bool :=
  match s with [] => false | _ => true end.

End JsString.
Import JsString.

(* ================================================================== *)
(** ** Regular expressions of the source *)

Module Regex.

(** One quantified character class, greedy: [cls{lo,hi}]; [hi = None] is
    unbounded.  A literal is a one-element class taken once. *)
Record atom := Atom { cls : code_unit -> bool; lo : nat; hi : option nat }.

Definition chr (a : ascii) : code_unit -> bool := fun c => (c =? N_of_ascii a)%N.
Definition lit (a : ascii) : atom := Atom (chr a) 1 (Some 1).
Definition opt (a : ascii) : atom := Atom (chr a) 0 (Some 1).
Definition plus (p : code_unit -> bool) : atom := Atom p 1 None.
Definition star (p : code_unit -> bool) : atom := Atom p 0 None.
Definition atLeast (n : nat) (p : code_unit -> bool) : atom := Atom p n None.

(** A regular expression: alternatives, each a sequence of atoms. *)
Definition regex := list (list atom).

Fixpoint runLength (p : code_unit -> bool) (s : jsstring) : nat :=
  match s with
  | [] => 0
  | c :: s' => if p c then S (runLength p s') else 0
  end.

(** The most repetitions the atom can take at the head of [s]. *)
Definition greedy (a : atom) (s : jsstring) : nat :=
  match hi a with
  | None => runLength (cls a) s
  | Some h => Nat.min h (runLength (cls a) s)
  end.

(** A greedy quantifier gives back one repetition at a time while what
    follows fails: [follow j] is the match of the rest after [j]
    repetitions. *)
Fixpoint backtrack (least : nat) (follow : nat -> option nat) (j : nat)
  : option nat :=
  match (if least <=? j then option_map (Nat.add j) (follow j) else None) with
  | Some n => Some n
  | None => match j with
            | 0 => None
            | S j' => backtrack least follow j'
            end
  end.

(** Backtracking match of a sequence at the head of [s]; the result is
    the matched length. *)
Fixpoint matchSeq (atoms : list atom) (s : jsstring) : option nat :=
  match atoms with
  | [] => Some 0
  | a :: rest =>
      backtrack (lo a) (fun j => matchSeq rest (skipn j s)) (greedy a s)
  end.

(** Alternatives are tried in order. *)
Fixpoint matchAt (re : regex) (s : jsstring) : option nat :=
  match re with
  | [] => None
  | alt :: re' =>
      match matchSeq alt s with
      | Some n => Some n
      | None => matchAt re' s
      end
  end.

(** [s.replace(re, repl)] for a global [re] and a replacement without
    [$] patterns.  [skip] counts the code units of the current match
    still to be dropped. *)
Fixpoint replaceFrom (re : regex) (repl : jsstring) (skip : nat)
         (s : jsstring) : jsstring :=
  match s with
  | [] =>
      match skip, matchAt re [] with
      | 0, Some _ => repl
      | _, _ => []
      end
  | c :: s' =>
      match skip with
      | S k => replaceFrom re repl k s'
      | 0 =>
          match matchAt re s with
          | Some (S n) => repl ++ replaceFrom re repl n s'
          | Some 0 => repl ++ c :: replaceFrom re repl 0 s'
          | None => c :: replaceFrom re repl 0 s'
          end
      end
  end.

Definition replaceAll (re : regex) (repl s : jsstring) : jsstring :=
  replaceFrom re repl 0 s.

(** The language of a regular expression, without any search order. *)
Definition inAtom (a : atom) (m : jsstring) : Prop :=
  Forall (fun c => cls a c = true) m /\
  lo a <= length m /\
  match hi a with None => True | Some h => length m <= h end.

Fixpoint langSeq (atoms : list atom) (m : jsstring) : Prop :=
  match atoms with
  | [] => m = []
  | a :: rest =>
      exists m1 m2, m = m1 ++ m2 /\ inAtom a m1 /\ langSeq rest m2
  end.

Definition lang (re : regex) (m : jsstring) : Prop :=
  exists alt, In alt re /\ langSeq alt m.

End Regex.
Import Regex.

(* ================================================================== *)
(** ** ChatInput.tsx: filterUrlsFromText *)

Definition inRange (a b : ascii) : code_unit -> bool :=
  fun c => ((N_of_ascii a <=? c) && (c <=? N_of_ascii b))%N.

(** [[a-zA-Z0-9-]] *)
Definition domainChar (c : code_unit) : bool :=
  inRange "a" "z" c || inRange "A" "Z" c || inRange "0" "9" c || chr "-" c.

(** [[a-zA-Z]] *)
Definition letter (c : code_unit) : bool :=
  inRange "a" "z" c || inRange "A" "Z" c.

(** The four alternatives of [urlRegex], in the order of the source:
      https?:\/\/[^\s]+
      www\.[^\s]+
      [a-zA-Z0-9-]+\.[a-zA-Z]{2,}\/[^\s]*
      [a-zA-Z0-9-]+\.[a-zA-Z]{2,}[^\s]*
    The group around them captures, which a replacement by the empty
    string does not see. *)
Definition urlRegex : regex :=
  [ [lit "h"; lit "t"; lit "t"; lit "p"; opt "s"; lit ":"; lit "/"; lit "/";
     plus notWhiteSpace];
    [lit "w"; lit "w"; lit "w"; lit "."; plus notWhiteSpace];
    [plus domainChar; lit "."; atLeast 2 letter; lit "/"; star notWhiteSpace];
    [plus domainChar; lit "."; atLeast 2 letter; star notWhiteSpace] ].

(** [/\s+/g] *)
Definition spacesRegex : regex := [ [plus isWhiteSpace] ].

Definition filterUrlsFromText (text : jsstring) : jsstring :=
  trim (replaceAll spacesRegex (js " ") (replaceAll urlRegex [] text)).

(* ================================================================== *)
(** ** Values that cross the component's boundary *)

Definition audio := nat.      (* an HTMLAudioElement, by identity *)
Definition objectUrl := nat.  (* a URL made by URL.createObjectURL *)
Definition timer := nat.      (* the id returned by setTimeout *)
Definition blob := nat.       (* a response body taken as a Blob *)

(** What [response.json()] can resolve to. *)
#[local] Set Warnings "-register-all".
Inductive json :=
| JNull
| JBool (b : bool)
| JNumber (x : Q)
| JString (s : jsstring)
| JArray (items : list json)
| JObject (fields : list (jsstring * json)).

(** ToBoolean on a parsed value. *)
Definition truthy (v : json) : bool :=
  match v with
  | JNull => false
  | JBool b => b
  | JNumber x => negb (Qeq_bool x 0%Q)
  | JString s => nonEmpty s
  | JArray _ => true
  | JObject _ => true
  end.

(** [typeof v === 'object'] *)
Definition typeofObject (v : json) : bool :=
  match v with
  | JNull | JArray _ | JObject _ => true
  | _ => false
  end.

Fixpoint lookupField (k : jsstring) (fields : list (jsstring * json)) : option json :=
  match fields with
  | [] => None
  | (k', v) :: rest => if eqb k k' then Some v else lookupField k rest
  end.

(** [v.output]; [None] is [undefined]. *)
Definition getOutput (v : json) : option json :=
  match v with
  | JObject fields => lookupField (js "output") fields
  | _ => None
  end.

Inductive exn :=
| Error (message : string)
| HttpError (status : Z)                      (* `HTTP error! status: ${status}` *)
| SpeechError (status : Z) (body : jsstring)  (* `Failed to generate speech: ...` *)
| TypeError (message : string)
| Rejected (reason : string).                 (* raised by the browser *)

Record Response := { ok : bool; status : Z }.

Inductive requestBody :=
| ChatMessage (sessionId action chatInput : jsstring)  (* api.ts, interface ChatMessage *)
| SpeechRequest (text : jsstring).                     (* { text } *)

(* ================================================================== *)
(** ** React state, as one render sees it

    [useState] gives each render its own constants.  A function defined in
    the component body closes over the constants of the render that
    defined it, and so does everything it calls by name: a timer callback
    created in an effect runs the [handleLiveChatMessage], [speakText],
    [startContinuousThinking] and [stopContinuousThinking] of the effect's
    render.  The setters do not change those constants; they change what
    the next render will see.  So the functions of the component take the
    record of their render as an argument, and the setters are actions on
    the world. *)

Record Render := {
  (* ChatInput: useState *)
  isLiveChatMode : bool;
  isProcessingVoice : bool;
  currentAudio : option audio;
  liveChatTranscript : jsstring;
  sessionId : jsstring;
  thinkingAudio : option audio;
  isPlayingResponse : bool;
  (* ChatInput: props *)
  onAddMessage : bool;            (* whether the prop is given *)
  (* useSpeechRecognition: useState *)
  isListening : bool;
  transcript : jsstring;
  finalTranscript : jsstring;
  isSupported : bool
}.

(** A function given to [setTimeout], with the render it closes over. *)
Inductive callback :=
| LiveChatTimeout (r : Render)            (* the debounce callback *)
| PlayRandomThinkingSound (r : Render).   (* the filler loop re-arming itself *)

(** A function assigned to [audio.onended] or [audio.onerror]. *)
Inductive listener :=
| SpeakEnded (u : objectUrl)
| SpeakError (u : objectUrl)
| ThinkingEnded (r : Render) (u : objectUrl)
| ThinkingError (r : Render) (u : objectUrl).

(** Calls that return at once. *)
Inductive action :=
| ConsoleLog (message : string)
| ConsoleError (message : string)
| AudioPause (a : audio)
| AudioSetCurrentTime (a : audio) (t : Z)
| AudioOnEnded (a : audio) (l : listener)
| AudioOnError (a : audio) (l : listener)
| RevokeObjectURL (u : objectUrl)
| ClearTimeout (t : timer)
| SetIsLiveChatMode (b : bool)
| SetIsProcessingVoice (b : bool)
| SetCurrentAudio (a : option audio)
| SetLiveChatTranscript (s : jsstring)
| SetThinkingAudio (a : option audio)
| SetIsPlayingResponse (b : bool)
| SetMessage (s : jsstring)
| ClearSelectedFiles
| SetShowTools (b : bool)
| SetIsListening (b : bool)
| SetTranscript (s : jsstring)
| SetFinalTranscript (s : jsstring)
| OnAddMessage (text : json) (isUser : bool)
| OnLiveChatModeChange (b : bool)
| RecognitionStop
| StartVoiceLevelDetection
| StopVoiceLevelDetection.

(** Calls whose result comes from outside.  A promise that can reject, or
    a call that can throw, answers [inl e]. *)
Inductive query : Type -> Type :=
| Fetch (url : jsstring) (body : requestBody) : query (exn + Response)
| ResponseJson (r : Response) : query (exn + json)
| ResponseText (r : Response) : query (exn + jsstring)
| ResponseBlob (r : Response) : query (exn + blob)
| NewAudio (b : blob) : query (objectUrl * audio)  (* createObjectURL, new Audio *)
| AudioPlay (a : audio) : query (exn + unit)
| Sleep (ms : Z) : query unit                      (* a promise resolved by setTimeout *)
| MathRandom : query Q
| SetTimeout (ms : Z) (cb : callback) : query timer
| RecognitionStart : query (exn + unit).

(* ================================================================== *)
(** ** Asynchronous code *)

Inductive Proc (A : Type) : Type :=
| Ret (a : A)
| Throw (e : exn)
| Do (a : action) (k : Proc A)
| Await (X : Type) (q : query X) (k : X -> Proc A).

Arguments Ret {A} a.
Arguments Throw {A} e.
Arguments Do {A} a k.
Arguments Await {A X} q k.

Fixpoint bind {A B} (p : Proc A) (f : A -> Proc B) : Proc B :=
  match p with
  | Ret a => f a
  | Throw e => Throw e
  | Do a k => Do a (bind k f)
  | Await q k => Await q (fun x => bind (k x) f)
  end.

(** [try { p } catch (e) { h e }] *)
Fixpoint tryCatch {A} (p : Proc A) (h : exn -> Proc A) : Proc A :=
  match p with
  | Ret a => Ret a
  | Throw e => h e
  | Do a k => Do a (tryCatch k h)
  | Await q k => Await q (fun x => tryCatch (k x) h)
  end.

Declare Scope proc_scope.
Delimit Scope proc_scope with proc.
Bind Scope proc_scope with Proc.
Notation "x <- p ;; k" := (bind p (fun x => k))
  (at level 61, p at next level, right associativity) : proc_scope.
Notation "p ;; k" := (bind p (fun _ => k))
  (at level 61, right associativity) : proc_scope.
Local Open Scope proc_scope.

(** [try { p } finally { f }] *)
Definition tryFinally {A} (p : Proc A) (f : Proc unit) : Proc A :=
  r <- tryCatch (a <- p ;; Ret (inr a)) (fun e => Ret (inl e)) ;;
  f ;;
  match r with
  | inl e => Throw e
  | inr a => Ret a
  end.

Definition perform (a : action) : Proc unit := Do a (Ret tt).
Definition ask {X} (q : query X) : Proc X := Await q Ret.

(** [await] on something that may reject. *)
Definition await {X} (q : query (exn + X)) : Proc X :=
  Await q (fun r => match r with inl e => Throw e | inr x => Ret x end).

Definition when (b : bool) (p : Proc unit) : Proc unit :=
  if b then p else Ret tt.

Definition whenSome {X} (o : option X) (p : X -> Proc unit) : Proc unit :=
  match o with
  | Some x => p x
  | None => Ret tt
  end.

(** The arithmetic of numbers is that of IEEE 754 binary64: the exact
    result, rounded to the nearest double, a tie to the even one.  The
    numbers here stay far below the largest double. *)
Definition pow2 (e : Z) : Q :=
  if (0 <=? e)%Z then inject_Z (2 ^ e) else Qinv (inject_Z (2 ^ (- e))).

(** The integer nearest to [q], the even one of two. *)
Definition nearestEven (q : Q) : Z :=
  let f := Qfloor q in
  match Qcompare (2 * (q - inject_Z f))%Q 1%Q with
  | Lt => f
  | Gt => (f + 1)%Z
  | Eq => if Z.even f then f else (f + 1)%Z
  end.

(** For positive [q], the [e] with [2^e <= q < 2^(e+1)]. *)
Definition binade (q : Q) : Z :=
  let e := (Z.log2 (Qnum q) - Z.log2 (Zpos (Qden q)))%Z in
  if Qle_bool (pow2 e) q then e else (e - 1)%Z.

Definition roundPositive (q : Q) : Q :=
  let ulp := pow2 (Z.max (binade q) (-1022) - 52) in
  (inject_Z (nearestEven (q / ulp)) * ulp)%Q.

Definition toDouble (q : Q) : Q :=
  match Qcompare q 0%Q with
  | Eq => 0%Q
  | Gt => roundPositive q
  | Lt => Qopp (roundPositive (Qopp q))
  end.

(** [Math.floor(x * n)] as an index. *)
Definition floorIndex (x : Q) (n : nat) : nat :=
  Z.to_nat (Qfloor (toDouble (x * inject_Z (Z.of_nat n))%Q)).

Definition log (message : string) : Proc unit := perform (ConsoleLog message).
Definition logError (message : string) : Proc unit := perform (ConsoleError message).

(* ================================================================== *)
(** ** useSpeechRecognition.ts *)

(** The listener of the engine's [error] event. *)
Definition recognitionError (error : jsstring) : Proc unit :=
  when (negb (eqb error (js "aborted")))
       (logError "Speech recognition error:") ;;
  when (eqb error (js "aborted"))
       (perform (SetIsListening false)).

(** [recognitionRef.current] is set in the same mount effect as
    [isSupported], to an engine exactly when there is one. *)
Definition startListening (r : Render) : Proc unit :=
  when (isSupported r && negb (isListening r))
       (log "Starting speech recognition..." ;;
        tryCatch (await RecognitionStart)
                 (fun error => logError "Failed to start recognition:")).

Definition stopListening (r : Render) : Proc unit :=
  when (isSupported r && isListening r)
       (log "Stopping speech recognition..." ;;
        perform RecognitionStop ;;
        perform (SetIsListening false)).

Definition resetTranscript : Proc unit :=
  log "Resetting transcript" ;;
  perform (SetTranscript []) ;;
  perform (SetFinalTranscript []).

(* ================================================================== *)
(** ** The component, over what the host provides *)

Section Component.

(** [String.prototype.toLowerCase] of the engine. *)
Variable toLowerCase : jsstring -> jsstring.

(** [process.env.NEXT_PUBLIC_CHATBOT_API_URL]; [None] when not set. *)
Variable apiUrl : option jsstring.

(** *** api.ts *)

Definition sendMessage (sessionId message : jsstring) : Proc json :=
  match apiUrl with
  | None => Throw (Error "Chatbot API URL not configured")
  | Some url =>
      if negb (nonEmpty url) then Throw (Error "Chatbot API URL not configured")
      else
        let payload := ChatMessage sessionId (js "sendMessage") message in
        tryCatch
          (response <- await (Fetch url payload) ;;
           if negb (ok response) then Throw (HttpError (status response))
           else
             data <- await (ResponseJson response) ;;
             match getOutput data with
             | Some output =>
                 if truthy data && typeofObject data && truthy output
                 then Ret output
                 else Throw (Error "Invalid response format")
             | None => Throw (Error "Invalid response format")
             end)
          (fun error => logError "Error sending message:" ;; Throw error)
  end.

(** *** ChatInput.tsx

    [setTimeout] takes whole milliseconds: the delay of the filler loop,
    [1000 + Math.random() * 2000], is cut to an integer. *)

Definition ttsUrl : jsstring := js "/api/text-to-speech".

Definition onAudio (l : listener) : Proc unit :=
  match l with
  | SpeakEnded audioUrl =>
      perform (RevokeObjectURL audioUrl) ;;
      perform (SetCurrentAudio None) ;;
      perform (SetIsPlayingResponse false) ;;
      log "Voice response finished playing"
  | SpeakError audioUrl =>
      perform (RevokeObjectURL audioUrl) ;;
      perform (SetCurrentAudio None) ;;
      perform (SetIsPlayingResponse false)
  | ThinkingEnded r audioUrl =>
      perform (RevokeObjectURL audioUrl) ;;
      perform (SetThinkingAudio None) ;;
      when (isProcessingVoice r && isLiveChatMode r)
           (x <- ask MathRandom ;;
            _ <- ask (SetTimeout (Qfloor (toDouble (1000 + toDouble (x * 2000))%Q))
                                 (PlayRandomThinkingSound r)) ;;
            Ret tt)
  | ThinkingError r audioUrl =>
      perform (RevokeObjectURL audioUrl) ;;
      perform (SetThinkingAudio None) ;;
      when (isProcessingVoice r && isLiveChatMode r)
           (_ <- ask (SetTimeout 2000 (PlayRandomThinkingSound r)) ;;
            Ret tt)
  end.

Definition speakText (r : Render) (text : jsstring) : Proc unit :=
  if negb (nonEmpty text) || (length (trim text) =? 0)
  then logError "Cannot speak empty text"
  else
    log "Speaking text:" ;;
    tryCatch
      (whenSome (currentAudio r) (fun a =>
         perform (AudioPause a) ;;
         perform (AudioSetCurrentTime a 0)) ;;
       response <- await (Fetch ttsUrl (SpeechRequest text)) ;;
       log "TTS API response status:" ;;
       (if negb (ok response)
        then
          errorText <- await (ResponseText response) ;;
          logError "TTS API error:" ;;
          Throw (SpeechError (status response) errorText)
        else Ret tt) ;;
       audioBlob <- await (ResponseBlob response) ;;
       log "Audio blob size:" ;;
       created <- ask (NewAudio audioBlob) ;;
       let audioUrl := fst created in
       let audio := snd created in
       perform (SetCurrentAudio (Some audio)) ;;
       perform (AudioOnEnded audio (SpeakEnded audioUrl)) ;;
       perform (AudioOnError audio (SpeakError audioUrl)) ;;
       await (AudioPlay audio) ;;
       log "Audio playback started")
      (fun error => logError "Error speaking text:").

Definition thinkingSounds : list jsstring :=
  [ js "Hmm...";
    js "Let me see...";
    js "Still thinking...";
    js "One moment...";
    js "Processing...";
    js "Almost there...";
    js "Just a bit more...";
    js "Working on it...";
    js "Getting the information...";
    js "Analyzing your question..." ].

(** An index past the end reads [undefined] in the source; the empty
    string stands for it here. *)
Definition pick (x : Q) (l : list jsstring) : jsstring :=
  nth (floorIndex x (length l)) l [].

Definition playRandomThinkingSound (r : Render) : Proc unit :=
  if negb (isProcessingVoice r) || negb (isLiveChatMode r)
  then Ret tt
  else
    x <- ask MathRandom ;;
    let sound := pick x thinkingSounds in
    log "Playing thinking sound:" ;;
    tryCatch
      (response <- await (Fetch ttsUrl (SpeechRequest sound)) ;;
       when (ok response)
            (audioBlob <- await (ResponseBlob response) ;;
             created <- ask (NewAudio audioBlob) ;;
             let audioUrl := fst created in
             let audio := snd created in
             perform (SetThinkingAudio (Some audio)) ;;
             perform (AudioOnEnded audio (ThinkingEnded r audioUrl)) ;;
             perform (AudioOnError audio (ThinkingError r audioUrl)) ;;
             await (AudioPlay audio)))
      (fun error =>
         log "Background thinking sound failed:" ;;
         when (isProcessingVoice r && isLiveChatMode r)
              (_ <- ask (SetTimeout 2000 (PlayRandomThinkingSound r)) ;;
               Ret tt)).

Definition startContinuousThinking (r : Render) : Proc unit :=
  playRandomThinkingSound r.

Definition stopContinuousThinking (r : Render) : Proc unit :=
  whenSome (thinkingAudio r) (fun a =>
    perform (AudioPause a) ;;
    perform (AudioSetCurrentTime a 0) ;;
    perform (SetThinkingAudio None)).

Definition simpleGreetings : list jsstring :=
  [ js "hello"; js "hi"; js "hey"; js "good morning"; js "good afternoon";
    js "good evening"; js "how are you"; js "what's up"; js "greetings";
    js "howdy"; js "yo"; js "thanks"; js "thank you";
    js "stop"; js "cancel"; js "quit"; js "exit"; js "bye"; js "goodbye";
    js "see you later";
    js "who are you"; js "what is your name"; js "tell me about yourself";
    js "help"; js "assist"; js "support"; js "can you help me";
    js "can you assist me" ].

Definition isSimpleGreeting (messageText : jsstring) : bool :=
  existsb (fun greeting =>
             includes (toLowerCase messageText) greeting
             && (length messageText <? 20))
          simpleGreetings.

(** The three code units after the capital I are those of the source
    file as it stands. *)
Definition thinkingMessages : list jsstring :=
  [ js "Let me think about that for a moment... I want to give you the most thoughtful response I can.";
    js "Hmm... I'm carefully going through everything you just said... making sure I don't miss anything important.";
    js "Hold on a second... I'm searching my knowledge to find something that truly helps you.";
    js "Just a little moment please... I'm organizing my thoughts before giving you the best answer I can.";
    js "I'm still thinking about that... it's a great question, and I want to be sure I understand it fully.";
    js "Let me look into that for you... this might take a few more seconds, but I'm on it.";
    js "I" ++ [226; 8364; 8482]%N
       ++ js "m reflecting on what you just said... trying to connect the dots before I speak.";
    js "Give me just a bit more time... I want to be accurate, clear, and truly helpful in my reply.";
    js "Alright... I" ++ [226; 8364; 8482]%N
       ++ js "m close to finishing your answer... just reviewing the last piece of information.";
    js "Thanks for your patience... I'm working carefully so I can support you the best way possible." ].

Definition apology : jsstring :=
  js "Sorry, I couldn't process your message. Please try again.".

(** [filterUrlsFromText(response)]: [response.replace] exists on strings
    only. *)
Definition filterUrlsFromValue (response : json) : Proc jsstring :=
  match response with
  | JString text => Ret (filterUrlsFromText text)
  | _ => Throw (TypeError "text.replace is not a function")
  end.

Definition handleLiveChatMessage (r : Render) (messageText : jsstring) : Proc unit :=
  whenSome (currentAudio r) (fun a =>
    perform (AudioPause a) ;;
    perform (AudioSetCurrentTime a 0) ;;
    perform (SetCurrentAudio None)) ;;
  stopContinuousThinking r ;;
  perform (SetIsPlayingResponse false) ;;
  if negb (nonEmpty (trim messageText)) || isProcessingVoice r
  then log "Skipping message - empty or already processing"
  else
    perform (SetIsProcessingVoice true) ;;
    log "Processing live chat message:" ;;
    tryFinally
      (tryCatch
         (when (negb (isSimpleGreeting messageText))
               (x <- ask MathRandom ;;
                let randomThinking := pick x thinkingMessages in
                log "Playing thinking message:" ;;
                tryCatch (speakText r randomThinking)
                         (fun err => log "Thinking voice failed:") ;;
                startContinuousThinking r) ;;
          log "Sending to n8n endpoint..." ;;
          response <- sendMessage (sessionId r) messageText ;;
          log "Received response from backend:" ;;
          stopContinuousThinking r ;;
          when (onAddMessage r)
               (perform (OnAddMessage (JString messageText) true) ;;
                perform (OnAddMessage response false)) ;;
          ask (Sleep 500) ;;
          perform (SetIsPlayingResponse true) ;;
          voiceText <- filterUrlsFromValue response ;;
          log "Converting to speech..." ;;
          speakText r voiceText)
         (fun error =>
            logError "Error in live chat:" ;;
            stopContinuousThinking r ;;
            speakText r apology))
      (log "Live chat message processing complete" ;;
       stopContinuousThinking r ;;
       perform (SetIsProcessingVoice false) ;;
       perform (SetIsPlayingResponse false)).

(** The effect on [transcript]: what it does, and the timer its cleanup
    clears. *)
Definition liveChatEffect (r : Render) : Proc (option timer) :=
  if isLiveChatMode r && nonEmpty (transcript r)
     && negb (isProcessingVoice r) && negb (isPlayingResponse r)
  then
    perform (SetLiveChatTranscript (transcript r)) ;;
    timeoutId <- ask (SetTimeout 1500 (LiveChatTimeout r)) ;;
    Ret (Some timeoutId)
  else Ret None.

Definition liveChatTimeout (r : Render) : Proc unit :=
  let finalText := trim (transcript r) in
  log "Live chat transcript:" ;;
  when (nonEmpty finalText && (2 <? length finalText))
       (log "Sending to backend:" ;;
        handleLiveChatMessage r finalText ;;
        resetTranscript ;;
        perform (SetLiveChatTranscript [])).

(** The effect on [isListening] and [isPlayingResponse]. *)
Definition voiceInterruptionEffect (r : Render) : Proc unit :=
  when (isLiveChatMode r && isListening r && isPlayingResponse r)
       (log "User interrupted AI response, stopping playback" ;;
        whenSome (currentAudio r) (fun a =>
          perform (AudioPause a) ;;
          perform (AudioSetCurrentTime a 0) ;;
          perform (SetCurrentAudio None)) ;;
        stopContinuousThinking r ;;
        perform (SetIsPlayingResponse false) ;;
        perform (SetIsProcessingVoice false) ;;
        resetTranscript ;;
        perform (SetLiveChatTranscript []) ;;
        log "Ready for new user input after interruption").

Definition handleLiveChatToggle (r : Render) : Proc unit :=
  if isLiveChatMode r
  then
    log "Exiting live chat mode" ;;
    whenSome (currentAudio r) (fun a =>
      perform (AudioPause a) ;;
      perform (AudioSetCurrentTime a 0) ;;
      perform (SetCurrentAudio None)) ;;
    whenSome (thinkingAudio r) (fun a =>
      perform (AudioPause a) ;;
      perform (AudioSetCurrentTime a 0) ;;
      perform (SetThinkingAudio None)) ;;
    perform StopVoiceLevelDetection ;;
    perform (SetIsLiveChatMode false) ;;
    perform (OnLiveChatModeChange false) ;;
    when (isListening r) (stopListening r) ;;
    stopContinuousThinking r ;;
    resetTranscript ;;
    perform (SetIsProcessingVoice false) ;;
    perform (SetIsPlayingResponse false) ;;
    perform (SetLiveChatTranscript [])
  else
    log "Entering live chat mode" ;;
    perform (SetIsLiveChatMode true) ;;
    perform (OnLiveChatModeChange true) ;;
    perform (SetLiveChatTranscript []) ;;
    perform (SetMessage []) ;;
    perform ClearSelectedFiles ;;
    perform (SetShowTools false) ;;
    when (isSupported r)
         (startListening r ;;
          perform StartVoiceLevelDetection).

Definition runCallback (cb : callback) : Proc unit :=
  match cb with
  | LiveChatTimeout r => liveChatTimeout r
  | PlayRandomThinkingSound r => playRandomThinkingSound r
  end.

End Component.

(* ================================================================== *)
(** ** The world the code runs in *)

Definition setIsLiveChatMode (b : bool) (r : Render) : Render :=
  {| isLiveChatMode := b; isProcessingVoice := isProcessingVoice r;
     currentAudio := currentAudio r; liveChatTranscript := liveChatTranscript r;
     sessionId := sessionId r; thinkingAudio := thinkingAudio r;
     isPlayingResponse := isPlayingResponse r; onAddMessage := onAddMessage r;
     isListening := isListening r; transcript := transcript r;
     finalTranscript := finalTranscript r; isSupported := isSupported r |}.

Definition setIsProcessingVoice (b : bool) (r : Render) : Render :=
  {| isLiveChatMode := isLiveChatMode r; isProcessingVoice := b;
     currentAudio := currentAudio r; liveChatTranscript := liveChatTranscript r;
     sessionId := sessionId r; thinkingAudio := thinkingAudio r;
     isPlayingResponse := isPlayingResponse r; onAddMessage := onAddMessage r;
     isListening := isListening r; transcript := transcript r;
     finalTranscript := finalTranscript r; isSupported := isSupported r |}.

Definition setCurrentAudio (a : option audio) (r : Render) : Render :=
  {| isLiveChatMode := isLiveChatMode r; isProcessingVoice := isProcessingVoice r;
     currentAudio := a; liveChatTranscript := liveChatTranscript r;
     sessionId := sessionId r; thinkingAudio := thinkingAudio r;
     isPlayingResponse := isPlayingResponse r; onAddMessage := onAddMessage r;
     isListening := isListening r; transcript := transcript r;
     finalTranscript := finalTranscript r; isSupported := isSupported r |}.

Definition setLiveChatTranscript (s : jsstring) (r : Render) : Render :=
  {| isLiveChatMode := isLiveChatMode r; isProcessingVoice := isProcessingVoice r;
     currentAudio := currentAudio r; liveChatTranscript := s;
     sessionId := sessionId r; thinkingAudio := thinkingAudio r;
     isPlayingResponse := isPlayingResponse r; onAddMessage := onAddMessage r;
     isListening := isListening r; transcript := transcript r;
     finalTranscript := finalTranscript r; isSupported := isSupported r |}.

Definition setThinkingAudio (a : option audio) (r : Render) : Render :=
  {| isLiveChatMode := isLiveChatMode r; isProcessingVoice := isProcessingVoice r;
     currentAudio := currentAudio r; liveChatTranscript := liveChatTranscript r;
     sessionId := sessionId r; thinkingAudio := a;
     isPlayingResponse := isPlayingResponse r; onAddMessage := onAddMessage r;
     isListening := isListening r; transcript := transcript r;
     finalTranscript := finalTranscript r; isSupported := isSupported r |}.

Definition setIsPlayingResponse (b : bool) (r : Render) : Render :=
  {| isLiveChatMode := isLiveChatMode r; isProcessingVoice := isProcessingVoice r;
     currentAudio := currentAudio r; liveChatTranscript := liveChatTranscript r;
     sessionId := sessionId r; thinkingAudio := thinkingAudio r;
     isPlayingResponse := b; onAddMessage := onAddMessage r;
     isListening := isListening r; transcript := transcript r;
     finalTranscript := finalTranscript r; isSupported := isSupported r |}.

Definition setIsListening (b : bool) (r : Render) : Render :=
  {| isLiveChatMode := isLiveChatMode r; isProcessingVoice := isProcessingVoice r;
     currentAudio := currentAudio r; liveChatTranscript := liveChatTranscript r;
     sessionId := sessionId r; thinkingAudio := thinkingAudio r;
     isPlayingResponse := isPlayingResponse r; onAddMessage := onAddMessage r;
     isListening := b; transcript := transcript r;
     finalTranscript := finalTranscript r; isSupported := isSupported r |}.

Definition setTranscript (s : jsstring) (r : Render) : Render :=
  {| isLiveChatMode := isLiveChatMode r; isProcessingVoice := isProcessingVoice r;
     currentAudio := currentAudio r; liveChatTranscript := liveChatTranscript r;
     sessionId := sessionId r; thinkingAudio := thinkingAudio r;
     isPlayingResponse := isPlayingResponse r; onAddMessage := onAddMessage r;
     isListening := isListening r; transcript := s;
     finalTranscript := finalTranscript r; isSupported := isSupported r |}.

Definition setFinalTranscript (s : jsstring) (r : Render) : Render :=
  {| isLiveChatMode := isLiveChatMode r; isProcessingVoice := isProcessingVoice r;
     currentAudio := currentAudio r; liveChatTranscript := liveChatTranscript r;
     sessionId := sessionId r; thinkingAudio := thinkingAudio r;
     isPlayingResponse := isPlayingResponse r; onAddMessage := onAddMessage r;
     isListening := isListening r; transcript := transcript r;
     finalTranscript := s; isSupported := isSupported r |}.

Record World := {
  state : Render;                          (* the React state now *)
  playing : list audio;                    (* the audio elements that sound *)
  timers : list (timer * (Z * callback));  (* armed timers and when they are due *)
  clock : Z;                               (* milliseconds *)
  nextId : nat
}.

Definition withState (f : Render -> Render) (w : World) : World :=
  {| state := f (state w); playing := playing w; timers := timers w;
     clock := clock w; nextId := nextId w |}.

Definition withPlaying (f : list audio -> list audio) (w : World) : World :=
  {| state := state w; playing := f (playing w); timers := timers w;
     clock := clock w; nextId := nextId w |}.

Definition withTimers (f : list (timer * (Z * callback)) -> list (timer * (Z * callback)))
           (w : World) : World :=
  {| state := state w; playing := playing w; timers := f (timers w);
     clock := clock w; nextId := nextId w |}.

Definition withClock (t : Z) (w : World) : World :=
  {| state := state w; playing := playing w; timers := timers w;
     clock := t; nextId := nextId w |}.

Definition bump (w : World) : World :=
  {| state := state w; playing := playing w; timers := timers w;
     clock := clock w; nextId := S (nextId w) |}.

Definition without (a : nat) (l : list nat) : list nat :=
  filter (fun b => negb (b =? a)) l.

Definition disarm (t : timer) (l : list (timer * (Z * callback)))
  : list (timer * (Z * callback)) :=
  filter (fun e => negb (fst e =? t)) l.

(** What an action changes. *)
Definition apply (a : action) (w : World) : World :=
  match a with
  | AudioPause x => withPlaying (without x) w
  | ClearTimeout t => withTimers (disarm t) w
  | SetIsLiveChatMode b => withState (setIsLiveChatMode b) w
  | SetIsProcessingVoice b => withState (setIsProcessingVoice b) w
  | SetCurrentAudio x => withState (setCurrentAudio x) w
  | SetLiveChatTranscript s => withState (setLiveChatTranscript s) w
  | SetThinkingAudio x => withState (setThinkingAudio x) w
  | SetIsPlayingResponse b => withState (setIsPlayingResponse b) w
  | SetIsListening b => withState (setIsListening b) w
  | SetTranscript s => withState (setTranscript s) w
  | SetFinalTranscript s => withState (setFinalTranscript s) w
  | _ => w
  end.

(** Whatever answers the queries; it may change the world while the code
    waits, as the other callbacks of the page do. *)
Definition env := forall X, query X -> World -> X * World.

Inductive entry :=
| Did (a : action)
| Asked (X : Type) (q : query X).

Arguments Asked {X} q.

Record Outcome (A : Type) := {
  final : World;
  trace : list entry;
  result : exn + A
}.

Arguments final {A} o.
Arguments trace {A} o.
Arguments result {A} o.

Definition after {A} (e : entry) (o : Outcome A) : Outcome A :=
  {| final := final o; trace := e :: trace o; result := result o |}.

Fixpoint run {A} (e : env) (p : Proc A) (w : World) : Outcome A :=
  match p with
  | Ret a => {| final := w; trace := []; result := inr a |}
  | Throw x => {| final := w; trace := []; result := inl x |}
  | Do a k => after (Did a) (run e k (apply a w))
  | Await q k => after (Asked q) (run e (k (fst (e _ q w))) (snd (e _ q w)))
  end.

(** A browser whose network behaves as scripted. *)
Record Network := {
  respond : jsstring -> requestBody -> exn + Response;
  jsonOf : Response -> exn + json;
  textOf : Response -> exn + jsstring;
  blobOf : Response -> exn + blob;
  random : Q
}.

Definition arm (ms : Z) (cb : callback) (w : World) : World :=
  bump (withTimers (fun l => l ++ [(nextId w, ((clock w + ms)%Z, cb))]) w).

Definition browser (n : Network) : env :=
  fun X q =>
    match q in query X return World -> X * World with
    | Fetch url body => fun w => (respond n url body, w)
    | ResponseJson r => fun w => (jsonOf n r, w)
    | ResponseText r => fun w => (textOf n r, w)
    | ResponseBlob r => fun w => (blobOf n r, w)
    | NewAudio b => fun w => ((nextId w, nextId w), bump w)
    | AudioPlay a => fun w => (inr tt, withPlaying (cons a) w)
    | Sleep ms => fun w => (tt, withClock (clock w + ms)%Z w)
    | MathRandom => fun w => (random n, w)
    | SetTimeout ms cb => fun w => (nextId w, arm ms cb w)
    | RecognitionStart => fun w => (inr tt, w)
    end.

(* ================================================================== *)
(** ** The transcript effect under React

    The effect on [transcript] with its dependency list, as React runs it:
    after a render in which a dependency differs from the last run, the
    cleanup the last run returned, then the effect of the new render.  The
    machine follows the timers the effect arms and the callbacks the
    browser enters; the turn a callback starts is [runCallback]. *)

Definition Deps := (jsstring * bool * bool * bool)%type.

(** [[transcript, isLiveChatMode, isProcessingVoice, isPlayingResponse,
    resetTranscript]]; the last is the same function in every render. *)
Definition liveChatDeps (r : Render) : Deps :=
  (transcript r, isLiveChatMode r, isProcessingVoice r, isPlayingResponse r).

Definition sameDeps (a b : Deps) : bool :=
  match a, b with
  | (t1, l1, p1, q1), (t2, l2, p2, q2) =>
      eqb t1 t2 && Bool.eqb l1 l2 && Bool.eqb p1 p2 && Bool.eqb q1 q2
  end.

Record Machine := {
  world : World;
  lastDeps : option Deps;        (* the dependencies of the effect's last run *)
  cleanup : option timer;        (* what the last run returned to clear *)
  started : list (Z * callback)  (* timer callbacks entered, with the time *)
}.

(** React after a render: when a dependency changed, the cleanup of the
    previous run, then the effect of this render. *)
Definition commit (e : env) (m : Machine) : Machine :=
  let r := state (world m) in
  let unchanged :=
    match lastDeps m with
    | Some d => sameDeps d (liveChatDeps r)
    | None => false
    end in
  if unchanged then m
  else
    let w1 := match cleanup m with
              | Some t => apply (ClearTimeout t) (world m)
              | None => world m
              end in
    let o := run e (liveChatEffect r) w1 in
    {| world := final o;
       lastDeps := Some (liveChatDeps r);
       cleanup := match result o with inr c => c | inl _ => None end;
       started := started m |}.

Inductive event :=
| TranscriptUpdate (t : Z) (s : jsstring)  (* the hook sets [transcript] *)
| TimerDue (t : Z) (id : timer).           (* the browser looks at a timer *)

Definition due (t : Z) (id : timer) (e : timer * (Z * callback)) : bool :=
  (fst e =? id) && (fst (snd e) <=? t)%Z.

Definition handle (e : env) (m : Machine) (ev : event) : Machine :=
  match ev with
  | TranscriptUpdate t s =>
      commit e {| world := withState (setTranscript s) (withClock t (world m));
                  lastDeps := lastDeps m; cleanup := cleanup m;
                  started := started m |}
  | TimerDue t id =>
      match find (due t id) (timers (world m)) with
      | Some (_, (_, cb)) =>
          {| world := withTimers (disarm id) (withClock t (world m));
             lastDeps := lastDeps m; cleanup := cleanup m;
             started := started m ++ [(t, cb)] |}
      | None =>
          {| world := withClock t (world m);
             lastDeps := lastDeps m; cleanup := cleanup m;
             started := started m |}
      end
  end.

Definition handleAll (e : env) (m : Machine) (evs : list event) : Machine :=
  fold_left (handle e) evs m.

(** The first render. *)
Definition mount (e : env) (w : World) : Machine :=
  commit e {| world := w; lastDeps := None; cleanup := None; started := [] |}.

Definition timeOf (ev : event) : Z :=
  match ev with
  | TranscriptUpdate t _ => t
  | TimerDue t _ => t
  end.

(* ================================================================== *)
(** ** Vocabulary of the statements *)

Local Open Scope proc_scope.

(** Every action and query of the code, on every path, satisfies [P]. *)
Inductive Every {A} (P : entry -> Prop) : Proc A -> Prop :=
| Every_Ret a : Every P (Ret a)
| Every_Throw x : Every P (Throw x)
| Every_Do a k : P (Did a) -> Every P k -> Every P (Do a k)
| Every_Await X (q : query X) k :
    P (Asked q) -> (forall x, Every P (k x)) -> Every P (Await q k).

(** No path of the code ends in an exception. *)
Inductive Safe {A} : Proc A -> Prop :=
| Safe_Ret a : Safe (Ret a)
| Safe_Do a k : Safe k -> Safe (Do a k)
| Safe_Await X (q : query X) k : (forall x, Safe (k x)) -> Safe (Await q k).

(** The code runs without waiting for anything. *)
Inductive Immediate {A} : Proc A -> Prop :=
| Immediate_Ret a : Immediate (Ret a)
| Immediate_Throw x : Immediate (Throw x)
| Immediate_Do a k : Immediate k -> Immediate (Do a k).

(** What only the filler loop does: announce a sound, hold its audio,
    listen to it, arm its next round. *)
Definition fillerEntry (en : entry) : Prop :=
  match en with
  | Did (ConsoleLog m) => m = "Playing thinking sound:"%string
  | Did (SetThinkingAudio (Some _)) => True
  | Did (AudioOnEnded _ (ThinkingEnded _ _)) => True
  | Did (AudioOnEnded _ (ThinkingError _ _)) => True
  | Did (AudioOnError _ (ThinkingEnded _ _)) => True
  | Did (AudioOnError _ (ThinkingError _ _)) => True
  | Asked q =>
      match q with
      | SetTimeout _ (PlayRandomThinkingSound _) => True
      | _ => False
      end
  | _ => False
  end.

(** One outcome after another. *)
Definition andThen {A B} (o : Outcome A) (f : A -> World -> Outcome B) : Outcome B :=
  match result o with
  | inl x => {| final := final o; trace := trace o; result := inl x |}
  | inr a =>
      {| final := final (f a (final o));
         trace := trace o ++ trace (f a (final o));
         result := result (f a (final o)) |}
  end.

Definition orElse {A} (o : Outcome A) (h : exn -> World -> Outcome A) : Outcome A :=
  match result o with
  | inl x =>
      {| final := final (h x (final o));
         trace := trace o ++ trace (h x (final o));
         result := result (h x (final o)) |}
  | inr a => o
  end.

(** A parsed body that [sendMessage] accepts. *)
Definition acceptable (data : json) : Prop :=
  truthy data = true /\ typeofObject data = true /\
  exists output, getOutput data = Some output /\ truthy output = true.

(** The request to the assistant fails, whenever it is made: the network
    rejects it, or the status is not a success, or the body is not JSON or
    not of the expected form. *)
Definition backendFails (e : env) (url : jsstring) : Prop :=
  forall sid action message w,
    match fst (e _ (Fetch url (ChatMessage sid action message)) w) with
    | inl _ => True
    | inr response =>
        ok response = false \/
        forall w', match fst (e _ (ResponseJson response) w') with
                   | inl _ => True
                   | inr data => ~ acceptable data
                   end
    end.

(** The code the browser can enter: the effects, the mode switch and the
    recogniser's error listener, then every timer callback and audio
    listener that code already entered has registered. *)
Inductive Reachable (toLowerCase : jsstring -> jsstring) (apiUrl : option jsstring)
  : Proc unit -> Prop :=
| Reach_effect r :
    Reachable toLowerCase apiUrl (bind (liveChatEffect r) (fun _ => Ret tt))
| Reach_interruption r :
    Reachable toLowerCase apiUrl (voiceInterruptionEffect r)
| Reach_toggle r :
    Reachable toLowerCase apiUrl (handleLiveChatToggle r)
| Reach_recognitionError code :
    Reachable toLowerCase apiUrl (recognitionError code)
| Reach_timer p e w ms cb :
    Reachable toLowerCase apiUrl p ->
    In (Asked (SetTimeout ms cb)) (trace (run e p w)) ->
    Reachable toLowerCase apiUrl (runCallback toLowerCase apiUrl cb)
| Reach_ended p e w a l :
    Reachable toLowerCase apiUrl p ->
    In (Did (AudioOnEnded a l)) (trace (run e p w)) ->
    Reachable toLowerCase apiUrl (onAudio l)
| Reach_error p e w a l :
    Reachable toLowerCase apiUrl p ->
    In (Did (AudioOnError a l)) (trace (run e p w)) ->
    Reachable toLowerCase apiUrl (onAudio l).

(** The request an entry makes, if it makes one. *)
Definition fetched (en : entry) : option (jsstring * requestBody) :=
  match en with
  | Asked q =>
      match q with
      | Fetch url body => Some (url, body)
      | _ => None
      end
  | Did _ => None
  end.

(** The texts sent to the synthesiser, in order. *)
Fixpoint speechRequests (tr : list entry) : list jsstring :=
  match tr with
  | [] => []
  | en :: rest =>
      match fetched en with
      | Some (_, SpeechRequest text) => text :: speechRequests rest
      | _ => speechRequests rest
      end
  end.

(** The audio elements paused, in order. *)
Fixpoint pauses (tr : list entry) : list audio :=
  match tr with
  | [] => []
  | Did (AudioPause a) :: rest => a :: pauses rest
  | _ :: rest => pauses rest
  end.

(* ================================================================== *)
(** ** Concrete situations *)

Module Scenario.

(** [toLowerCase] on text without letters outside ASCII. *)
Definition asciiLower (s : jsstring) : jsstring :=
  map (fun c => if ((65 <=? c) && (c <=? 90))%N then (c + 32)%N else c) s.

Definition hookUrl : jsstring := js "https://assistant.test/webhook".

(** Live chat is on, the recogniser listens, nothing is in progress. *)
Definition listening (heard : jsstring) : Render :=
  {| isLiveChatMode := true; isProcessingVoice := false; currentAudio := None;
     liveChatTranscript := heard; sessionId := js "session-1";
     thinkingAudio := None; isPlayingResponse := false; onAddMessage := true;
     isListening := true; transcript := heard; finalTranscript := [];
     isSupported := true |}.

Definition silent (r : Render) : World :=
  {| state := r; playing := []; timers := []; clock := 0; nextId := 0 |}.

Definition success : Response := {| ok := true; status := 200 |}.
Definition serverError : Response := {| ok := false; status := 500 |}.

Definition network (chat speech : exn + Response) (body : exn + json) : Network :=
  {| respond := fun _ request =>
                  match request with
                  | ChatMessage _ _ _ => chat
                  | SpeechRequest _ => speech
                  end;
     jsonOf := fun _ => body;
     textOf := fun _ => inr (js "Internal Server Error");
     blobOf := fun _ => inr 0;
     random := 0%Q |}.

Definition replying (output : json) : exn + json :=
  inr (JObject [(js "output", output)]).

(** The assistant answers with status 500; the synthesiser works. *)
Definition backendDown : Network :=
  network (inr serverError) (inr success) (inl (Rejected "SyntaxError")).

(** The assistant answers; the synthesiser answers with status 500. *)
Definition speechDown : Network :=
  network (inr success) (inr serverError) (replying (JString (js "Hello there"))).

(** Both work. *)
Definition online : Network :=
  network (inr success) (inr success) (replying (JString (js "We open at nine."))).

(** The assistant answers with the number 42 as output. *)
Definition numericReply : Network :=
  network (inr success) (inr success) (replying (JNumber 42%Q)).

(** The assistant answers with an empty string as output. *)
Definition emptyReply : Network :=
  network (inr success) (inr success) (replying (JString [])).

Definition question : jsstring := js "tell me the opening hours please".

(** Both work, but the synthesiser refuses the text of the reply. *)
Definition replyRefused : Network :=
  {| respond := fun _ request =>
                  match request with
                  | ChatMessage _ _ _ => inr success
                  | SpeechRequest text =>
                      if eqb text (js "Hello there")
                      then inr serverError else inr success
                  end;
     jsonOf := fun _ => replying (JString (js "Hello there"));
     textOf := fun _ => inr (js "Internal Server Error");
     blobOf := fun _ => inr 0;
     random := 0%Q |}.

End Scenario.

(** A browser whose recogniser refuses to start. *)
Definition refusing : env :=
  fun X q =>
    match q in query X return World -> X * World with
    | RecognitionStart => fun w => (inl (Rejected "InvalidStateError"), w)
    | q' => browser Scenario.online _ q'
    end.

(* ================================================================== *)
(** ** Vocabulary of the proofs *)

Definition visible (c : code_unit) : Prop := (33 <= c <= 126)%N.

(** No atom of [urlRegex] accepts white space. *)
Definition solid (a : atom) : Prop :=
  forall c, cls a c = true -> isWhiteSpace c = false.

Definition stopsAt (p : code_unit -> bool) (s : jsstring) : Prop :=
  match s with
  | [] => True
  | c :: _ => p c = false
  end.

Definition strip (s : jsstring) : jsstring := replaceAll urlRegex [] s.

Definition squeeze (s : jsstring) : jsstring := replaceAll spacesRegex (js " ") s.

(** Every white space of [v] is one space, and no white space follows it. *)
Definition wellSpaced (v : jsstring) : Prop :=
  forall pre c post, v = pre ++ c :: post -> isWhiteSpace c = true ->
    c = 32%N /\ stopsAt isWhiteSpace post.

Definition quiet (en : entry) : Prop := ~ fillerEntry en.

(** The requests to the assistant. *)
Definition carries (msg : jsstring) (en : entry) : Prop :=
  forall url sid action input,
    fetched en = Some (url, ChatMessage sid action input) ->
    action = js "sendMessage" /\ input = msg.

(* ================================================================== *)
(** ** Vocabulary of the debounce *)

(** Time does not go back. *)
Fixpoint chained (now : Z) (evs : list event) : Prop :=
  match evs with
  | [] => True
  | ev :: rest => (now <= timeOf ev)%Z /\ chained (timeOf ev) rest
  end.

(** Each update changes the transcript, and comes less than 1500 ms after
    the update before it. *)
Fixpoint rapid (last : option Z) (heard : jsstring) (evs : list event) : Prop :=
  match evs with
  | [] => True
  | TranscriptUpdate t s :: rest =>
      match last with
      | Some t0 => (t < t0 + 1500)%Z
      | None => True
      end /\ s <> heard /\ rapid (Some t) s rest
  | TimerDue _ _ :: rest => rapid last heard rest
  end.

Definition isTimerDue (ev : event) : Prop :=
  match ev with
  | TimerDue _ _ => True
  | TranscriptUpdate _ _ => False
  end.

(** At most one timer is armed, and it is the one the cleanup clears. *)
Definition tidy (m : Machine) : Prop :=
  timers (world m) = [] \/
  exists id d cb, timers (world m) = [(id, (d, cb))] /\ cleanup m = Some id.

(** Listening, nothing in progress, the effect up to date. *)
Definition steady (m : Machine) (heard : jsstring) : Prop :=
  isLiveChatMode (state (world m)) = true /\
  isProcessingVoice (state (world m)) = false /\
  isPlayingResponse (state (world m)) = false /\
  transcript (state (world m)) = heard /\
  lastDeps m = Some (liveChatDeps (state (world m))) /\
  started m = [].

(** What is armed comes from the last update. *)
Definition pending (m : Machine) (last : option Z) (heard : jsstring) : Prop :=
  (timers (world m) = [] /\ cleanup m = None /\ heard = []) \/
  (exists id t r,
      last = Some t /\
      timers (world m) = [(id, ((t + 1500)%Z, LiveChatTimeout r))] /\
      cleanup m = Some id /\ transcript r = heard).

(** The list is empty or ends with an update. *)
Fixpoint closes (evs : list event) : Prop :=
  match evs with
  | [] => True
  | [TimerDue _ _] => False
  | _ :: rest => closes rest
  end.

Definition lastTime (last : option Z) (evs : list event) : option Z :=
  fold_left (fun l ev => match ev with
                         | TranscriptUpdate t _ => Some t
                         | TimerDue _ _ => l
                         end) evs last.

Definition lastHeard (heard : jsstring) (evs : list event) : jsstring :=
  fold_left (fun h ev => match ev with
                         | TranscriptUpdate _ s => s
                         | TimerDue _ _ => h
                         end) evs heard.

(** After the last update: the callback of that update, once, and not
    before 1500 ms have passed. *)
Definition settled (m : Machine) (tn : Z) (sn : jsstring) : Prop :=
  (started m = [] /\
   (timers (world m) = [] \/
    exists id r, timers (world m) = [(id, ((tn + 1500)%Z, LiveChatTimeout r))] /\
                 transcript r = sn)) \/
  (timers (world m) = [] /\
   exists t r, started m = [(t, LiveChatTimeout r)] /\
               (tn + 1500 <= t)%Z /\ transcript r = sn).

(* ================================================================== *)
(** ** useSpeechRecognition.ts: the listener of [result]

    The listener is made once, in the effect of the first render, and
    keeps the constants of that render: [mounted] below.  The updaters
    passed to the setters read the state of the moment, so the listener
    is given as a change of the state. *)

Record SpeechRecognitionResult := {
  isFinal : bool;
  heard : jsstring        (* results[i][0].transcript *)
}.

Record SpeechRecognitionEvent := {
  resultIndex : nat;
  results : list SpeechRecognitionResult
}.

(** The loop over [event.results], from [event.resultIndex]. *)
Fixpoint gather (rs : list SpeechRecognitionResult)
         (newFinalTranscript interimTranscript : jsstring) : jsstring * jsstring :=
  match rs with
  | [] => (newFinalTranscript, interimTranscript)
  | r :: rest =>
      if isFinal r
      then gather rest (newFinalTranscript ++ heard r) interimTranscript
      else gather rest newFinalTranscript (interimTranscript ++ heard r)
  end.

Definition recognitionResult (mounted : Render) (event : SpeechRecognitionEvent)
           (st : Render) : Render :=
  let found := gather (skipn (resultIndex event) (results event)) [] [] in
  let newFinalTranscript := fst found in
  let interimTranscript := snd found in
  let st1 :=
    if nonEmpty newFinalTranscript
    then setFinalTranscript (finalTranscript st ++ newFinalTranscript ++ js " ") st
    else st in
  setTranscript ((finalTranscript mounted ++ newFinalTranscript ++ js " ")
                 ++ interimTranscript) st1.

(** One event after another. *)
Definition hearAll (mounted : Render) (events : list SpeechRecognitionEvent)
           (st : Render) : Render :=
  fold_left (fun s event => recognitionResult mounted event s) events st.

(** The text of an event that the engine marks final, and the rest. *)
Definition finalText (event : SpeechRecognitionEvent) : jsstring :=
  concat (map heard (filter isFinal (skipn (resultIndex event) (results event)))).

Definition interimText (event : SpeechRecognitionEvent) : jsstring :=
  concat (map heard (filter (fun r => negb (isFinal r))
                            (skipn (resultIndex event) (results event)))).

(* ================================================================== *)
(** ** ChatInput.tsx: what is left of the live-chat controls *)

(** The handler of the Mute button. *)
Definition handleMute (r : Render) : Proc unit :=
  whenSome (currentAudio r) (fun a =>
    perform (AudioPause a) ;;
    perform (SetCurrentAudio None) ;;
    perform (SetIsPlayingResponse false)) ;;
  whenSome (thinkingAudio r) (fun a =>
    perform (AudioPause a) ;;
    perform (SetThinkingAudio None)) ;;
  stopContinuousThinking r.

(** [prev.filter((_, i) => i !== index)] *)
Fixpoint filterFrom {A} (i : nat) (keep : A -> nat -> bool) (l : list A) : list A :=
  match l with
  | [] => []
  | x :: rest =>
      if keep x i then x :: filterFrom (S i) keep rest else filterFrom (S i) keep rest
  end.

Definition removeFile {A} (index : nat) (prev : list A) : list A :=
  filterFrom 0 (fun _ i => negb (i =? index)) prev.

(** [handleFileSelect] and [handleImageSelect], on the list of files. *)
Definition handleFileSelect {A} (r : Render) (files prev : list A) : list A :=
  if isLiveChatMode r then prev else prev ++ files.

(** A click on the live-chat button: the handler of the current render,
    then React with the transcript effect. *)
Definition clickLiveChatToggle (e : env) (m : Machine) : Machine :=
  commit e {| world := final (run e (handleLiveChatToggle (state (world m))) (world m));
              lastDeps := lastDeps m; cleanup := cleanup m; started := started m |}.

(** The requests of a trace, in order. *)
Fixpoint requests (tr : list entry) : list (jsstring * requestBody) :=
  match tr with
  | [] => []
  | en :: rest =>
      match fetched en with
      | Some request => request :: requests rest
      | None => requests rest
      end
  end.

(** The errors logged in a trace, in order. *)
Fixpoint loggedErrors (tr : list entry) : list string :=
  match tr with
  | [] => []
  | Did (ConsoleError message) :: rest => message :: loggedErrors rest
  | _ :: rest => loggedErrors rest
  end.

(* ================================================================== *)
(** ** Vocabulary of the debounce, for any sequence of events *)

(** The condition under which the transcript effect arms its timer. *)
Definition eligible (r : Render) : bool :=
  isLiveChatMode r && nonEmpty (transcript r)
  && negb (isProcessingVoice r) && negb (isPlayingResponse r).

(** Every armed timer is due 1500 ms after the moment [origin] gives it,
    and every callback entered was entered 1500 ms or more after its
    moment. *)
Definition waited (origin : Z -> Render -> Prop) (m : Machine) : Prop :=
  (forall id d cb, In (id, (d, cb)) (timers (world m)) ->
     exists t0 r, cb = LiveChatTimeout r /\ d = (t0 + 1500)%Z /\
                  eligible r = true /\ origin t0 r) /\
  (forall t cb, In (t, cb) (started m) ->
     exists t0 r, cb = LiveChatTimeout r /\ (t0 + 1500 <= t)%Z /\
                  eligible r = true /\ origin t0 r).

(* ================================================================== *)
(** ** Vocabulary of the turn, for what it sends and adds *)

(** What the entries of a trace give under [sel], in order. *)
Definition collect {B} (sel : entry -> option B) (tr : list entry) : list B :=
  flat_map (fun en => match sel en with Some b => [b] | None => [] end) tr.

(** The request to the assistant an entry makes, if it makes one. *)
Definition chatOf (en : entry) : option (jsstring * requestBody) :=
  match fetched en with
  | Some (url, ChatMessage sid action input) => Some (url, ChatMessage sid action input)
  | _ => None
  end.

(** The message an entry adds to the conversation, if it adds one. *)
Definition addOf (en : entry) : option (json * bool) :=
  match en with
  | Did (OnAddMessage text isUser) => Some (text, isUser)
  | _ => None
  end.

(* ================================================================== *)
(** ** storage.ts

    The cookie jar of js-cookie and [localStorage] are passed explicitly.
    A cookie carries the time at which it expires; [localStorage] keeps
    its keys in order.  [JSON.stringify], [JSON.parse], [toISOString] and
    the [Date] constructor are those of the host.  [localStorage.setItem]
    is taken to have room. *)

Module Storage.

Definition COOKIE_KEY : jsstring := js "chatbot_session_id".
Definition EXPIRY_DAYS : Z := 30.

(** [1000 * 60 * 60 * 24] *)
Definition msPerDay : Z := 1000 * 60 * 60 * 24.

Definition getStorageKey (sessionId : jsstring) : jsstring :=
  js "chatbot_session_" ++ sessionId.

(** name, value, time of expiry *)
Definition Jar := list (jsstring * (jsstring * Z)).

Fixpoint jarFind (name : jsstring) (jar : Jar) : option (jsstring * Z) :=
  match jar with
  | [] => None
  | (n, c) :: rest => if eqb name n then Some c else jarFind name rest
  end.

(** [Cookies.get(name)]: a cookie past its time is not there. *)
Definition cookiesGet (now : Z) (name : jsstring) (jar : Jar) : option jsstring :=
  match jarFind name jar with
  | Some (value, expires) => if (now <? expires)%Z then Some value else None
  | None => None
  end.

Definition cookiesRemove (name : jsstring) (jar : Jar) : Jar :=
  filter (fun c => negb (eqb name (fst c))) jar.

(** [Cookies.set(name, value, { expires: days })]: the time of expiry is
    written with [toUTCString], which drops the milliseconds. *)
Definition cookiesSet (now : Z) (name value : jsstring) (days : Z) (jar : Jar) : Jar :=
  (name, (value, ((now + days * msPerDay) / 1000 * 1000)%Z)) :: cookiesRemove name jar.

Definition Store := list (jsstring * jsstring).

Fixpoint getItem (key : jsstring) (store : Store) : option jsstring :=
  match store with
  | [] => None
  | (k, v) :: rest => if eqb key k then Some v else getItem key rest
  end.

(** An existing key keeps its place, a new one goes last. *)
Fixpoint setItem (key value : jsstring) (store : Store) : Store :=
  match store with
  | [] => [(key, value)]
  | (k, v) :: rest =>
      if eqb key k then (k, value) :: rest else (k, v) :: setItem key value rest
  end.

Definition removeItem (key : jsstring) (store : Store) : Store :=
  filter (fun e => negb (eqb key (fst e))) store.

Record Browser := { cookies : Jar; localStorage : Store }.

(** A string that is there and not empty: what [||] and [!] let through. *)
Definition present (s : option jsstring) : option jsstring :=
  match s with
  | Some v => if nonEmpty v then Some v else None
  | None => None
  end.

(** [a || b] on strings that may be undefined. *)
Definition either (a b : option jsstring) : option jsstring :=
  match present a with
  | Some v => Some v
  | None => b
  end.

(** [v.name] on a parsed value: [null] has no properties to read. *)
Definition property (name : jsstring) (v : json) : exn + option json :=
  match v with
  | JNull => inl (TypeError "Cannot read properties of null")
  | JObject fields => inr (lookupField name fields)
  | _ => inr None
  end.

(** What [loadSession] returns when it returns a session. *)
Record Loaded := {
  loadedId : jsstring;
  loadedMessages : option json;
  loadedActivity : option json
}.

Record Out (A : Type) := {
  value : A;
  device : Browser;
  errors : list string      (* console.error *)
}.

Arguments value {A} o.
Arguments device {A} o.
Arguments errors {A} o.

Section Host.

(** [JSON.stringify] and [JSON.parse] *)
Variable stringify : json -> jsstring.
Variable parse : jsstring -> exn + json.

(** [new Date(t).toISOString()], and [new Date(v).getTime()] with [None]
    for NaN *)
Variable toISOString : Z -> jsstring.
Variable dateOf : option json -> option Z.

(** [now] is [Date.now()], [stamp] its decimal form, [suffix] what
    [Math.random().toString(36).substr(2, 9)] gives. *)
Definition getOrCreateSessionId (now : Z) (stamp suffix : jsstring) (b : Browser)
  : jsstring * Browser :=
  match present (cookiesGet now COOKIE_KEY (cookies b)) with
  | Some sessionId => (sessionId, b)
  | None =>
      let sessionId := js "session_" ++ stamp ++ js "_" ++ suffix in
      (sessionId,
       {| cookies := cookiesSet now COOKIE_KEY sessionId EXPIRY_DAYS (cookies b);
          localStorage := localStorage b |})
  end.

Definition sessionObject (now : Z) (sessionId : jsstring) (messages : json) : json :=
  JObject [ (js "sessionId", JString sessionId);
            (js "messages", messages);
            (js "lastActivity", JString (toISOString now)) ].

Definition saveSession (now : Z) (sessionId : jsstring) (messages : json)
           (b : Browser) : Browser :=
  let session := sessionObject now sessionId messages in
  {| cookies := cookiesSet now COOKIE_KEY sessionId EXPIRY_DAYS (cookies b);
     localStorage := setItem (getStorageKey sessionId) (stringify session)
                             (localStorage b) |}.

Definition clearSession (now : Z) (sessionId : option jsstring) (b : Browser) : Browser :=
  let currentSessionId := either sessionId (cookiesGet now COOKIE_KEY (cookies b)) in
  let store :=
    match present currentSessionId with
    | Some id => removeItem (getStorageKey id) (localStorage b)
    | None => localStorage b
    end in
  {| cookies := match present sessionId with
                | Some _ => cookies b
                | None => cookiesRemove COOKIE_KEY (cookies b)
                end;
     localStorage := store |}.

(** The [catch] of [loadSession]. *)
Definition loadFailed (now : Z) (sessionId : option jsstring) (b : Browser)
  : Out (option Loaded) :=
  {| value := None;
     device := match present sessionId with
                | Some id => clearSession now (Some id) b
                | None => b
                end;
     errors := ["Error loading session:"%string] |}.

Definition loadSession (now : Z) (sessionId : option jsstring) (b : Browser)
  : Out (option Loaded) :=
  let quiet v b' := {| value := v; device := b'; errors := [] |} in
  match present (either sessionId (cookiesGet now COOKIE_KEY (cookies b))) with
  | None => quiet None b
  | Some currentSessionId =>
      match present (getItem (getStorageKey currentSessionId) (localStorage b)) with
      | None => quiet None b
      | Some stored =>
          match parse stored with
          | inl _ => loadFailed now sessionId b
          | inr session =>
              match property (js "lastActivity") session with
              | inl _ => loadFailed now sessionId b
              | inr activity =>
                  let expired :=
                    match dateOf activity with
                    | Some lastActivity =>
                        (EXPIRY_DAYS * msPerDay <? now - lastActivity)%Z
                    | None => false
                    end in
                  if expired
                  then quiet None (clearSession now (Some currentSessionId) b)
                  else
                    match property (js "messages") session with
                    | inl _ => loadFailed now sessionId b
                    | inr messages =>
                        quiet (Some {| loadedId := currentSessionId;
                                       loadedMessages := messages;
                                       loadedActivity := activity |}) b
                    end
              end
          end
      end
  end.

End Host.

End Storage.

(** A host for one session: the time is written as one code unit, and
    the only text that parses is the text of that session. *)
Module Kept.
Import Storage.

Definition toISOString (t : Z) : jsstring := [Z.to_N t].

Definition dateOf (v : option json) : option Z :=
  match v with
  | Some (JString [n]) => Some (Z.of_N n)
  | _ => None
  end.

Definition text : jsstring := js "{session-1}".

Definition session : json :=
  sessionObject toISOString 1000 (js "session-1") (JArray []).

Definition stringify (v : json) : jsstring := text.

Definition parse (s : jsstring) : exn + json :=
  if eqb s text then inr session else inl (Rejected "SyntaxError").

Definition empty : Browser := {| cookies := []; localStorage := [] |}.

(** The session saved at time 1000. *)
Definition saved : Browser :=
  saveSession stringify toISOString 1000 (js "session-1") (JArray []) empty.

(** Something else under the session's key. *)
Definition damaged : Browser :=
  {| cookies := cookies saved;
     localStorage := [(getStorageKey (js "session-1"), js "{session")] |}.

End Kept.

(* ================================================================== *)
(** ** Vocabulary of what is said *)

(** The text an entry sends to the synthesiser, if it sends one. *)
Definition speechOf (en : entry) : option jsstring :=
  match fetched en with
  | Some (_, SpeechRequest text) => Some text
  | _ => None
  end.

(** What speakText refuses: text that is empty, or empty once trimmed. *)
Definition unspeakable (text : jsstring) : bool :=
  negb (nonEmpty text) || (length (trim text) =? 0).

(* ================================================================== *)
(** ** The spoken text, in the words of the specification

    The reply with its URL-like tokens deleted, its runs of white space
    collapsed to single spaces, and the result trimmed. *)

(** A URL-like token begins the text: a prefix of it matches the pattern. *)
Definition urlBegins (s : jsstring) : Prop :=
  exists m rest, s = m ++ rest /\ lang urlRegex m.

(** The longest token that begins the text [m ++ rest] is [m]. *)
Definition longestToken (m rest : jsstring) : Prop :=
  lang urlRegex m /\
  forall m' rest', m ++ rest = m' ++ rest' -> lang urlRegex m' -> length m' <= length m.

(** [Removed s t]: [t] is [s] without its URL-like tokens.  Reading from
    the left, where a token begins the longest one goes; every other
    character stays. *)
Inductive Removed : jsstring -> jsstring -> Prop :=
| Removed_nil : Removed [] []
| Removed_keep c s t :
    ~ urlBegins (c :: s) -> Removed s t -> Removed (c :: s) (c :: t)
| Removed_token m rest t :
    longestToken m rest -> Removed rest t -> Removed (m ++ rest) t.

(** [Collapsed s t]: [t] is [s] with one space for each run of white
    space. *)
Inductive Collapsed : jsstring -> jsstring -> Prop :=
| Collapsed_nil : Collapsed [] []
| Collapsed_keep c s t :
    isWhiteSpace c = false -> Collapsed s t -> Collapsed (c :: s) (c :: t)
| Collapsed_run c s t :
    isWhiteSpace c = true -> Collapsed (dropWhile isWhiteSpace s) t ->
    Collapsed (c :: s) (32%N :: t).

(** [Trimmed s t]: [t] is [s] without the white space at its two ends. *)
Definition Trimmed (s t : jsstring) : Prop :=
  exists pre post,
    s = pre ++ t ++ post /\
    Forall (fun c => isWhiteSpace c = true) pre /\
    Forall (fun c => isWhiteSpace c = true) post /\
    stopsAt isWhiteSpace t /\ stopsAt isWhiteSpace (rev t).

Definition Spoken (reply out : jsstring) : Prop :=
  exists a b, Removed reply a /\ Collapsed a b /\ Trimmed b out.

(* ================================================================== *)
(** ** Small facts *)

(** The double nearest to 0.7, times ten, is seven: the product rounds
    up, where the exact product is below seven. *)
Example floorIndex_rounds :
  floorIndex (6305039478318694 # 9007199254740992)%Q 10 = 7 /\
  Qfloor ((6305039478318694 # 9007199254740992) * 10)%Q = 6%Z.
Proof. split; vm_compute; reflexivity. Qed.

Lemma speechRequests_in url text tr :
  In (Asked (Fetch url (SpeechRequest text))) tr -> In text (speechRequests tr).
Proof.
  induction tr as [|en tr IH]; simpl; [auto|].
  intros [->|H].
  - simpl. left. reflexivity.
  - specialize (IH H).
    destruct (fetched en) as [[u [s a i|t]]|]; simpl; auto.
Qed.

Lemma not_in_without a l : ~ In a (without a l).
Proof.
  unfold without. intros H. apply filter_In in H. destruct H as [_ H].
  rewrite Nat.eqb_refl in H. discriminate.
Qed.

Lemma without_subset a b l : In a (without b l) -> In a l.
Proof. unfold without. intros H. apply filter_In in H. tauto. Qed.

Lemma eqb_true a b : eqb a b = true <-> a = b.
Proof.
  unfold eqb. destruct (list_eq_dec N.eq_dec a b); split; auto; discriminate.
Qed.

Lemma eqb_false a b : eqb a b = false <-> a <> b.
Proof.
  unfold eqb. destruct (list_eq_dec N.eq_dec a b); split; auto;
    try discriminate; contradiction.
Qed.

(* ================================================================== *)
(** ** Facts on strings *)

Module StringFacts.

Lemma dropWhile_suffix p s : exists pre, s = pre ++ dropWhile p s.
Proof.
  induction s as [|c s IH]; simpl.
  - exists []. reflexivity.
  - destruct (p c).
    + destruct IH as [pre E]. exists (c :: pre). simpl. congruence.
    + exists []. reflexivity.
Qed.

Lemma dropWhile_head p s c t : dropWhile p s = c :: t -> p c = false.
Proof.
  induction s as [|d s IH]; simpl; [discriminate|].
  destruct (p d) eqn:E; [exact IH|].
  intros H. injection H as -> _. exact E.
Qed.

(** A trimmed string sits inside the string it comes from. *)
Lemma trim_inside s : exists pre post, s = pre ++ trim s ++ post.
Proof.
  unfold trim, trimEnd, trimStart.
  destruct (dropWhile_suffix isWhiteSpace s) as [pre E].
  destruct (dropWhile_suffix isWhiteSpace (rev (dropWhile isWhiteSpace s))) as [q F].
  exists pre, (rev q).
  rewrite E at 1. f_equal.
  rewrite <- (rev_involutive (dropWhile isWhiteSpace s)) at 1.
  rewrite F at 1. rewrite rev_app_distr. reflexivity.
Qed.

Lemma trim_first s c t : trim s = c :: t -> isWhiteSpace c = false.
Proof.
  unfold trim, trimEnd, trimStart. intros H.
  remember (dropWhile isWhiteSpace s) as u eqn:U.
  destruct u as [|d u]; [discriminate|].
  symmetry in U. pose proof (dropWhile_head _ _ _ _ U) as Hd.
  destruct (dropWhile_suffix isWhiteSpace (rev (d :: u))) as [q F].
  assert (G : d :: u = rev (dropWhile isWhiteSpace (rev (d :: u))) ++ rev q).
  { rewrite <- rev_app_distr, <- F, rev_involutive. reflexivity. }
  rewrite H in G. simpl in G. injection G as -> _. exact Hd.
Qed.

Lemma trim_last s t c : trim s = t ++ [c] -> isWhiteSpace c = false.
Proof.
  unfold trim, trimEnd. intros H.
  apply (f_equal (@rev _)) in H. rewrite rev_involutive, rev_app_distr in H.
  simpl in H. exact (dropWhile_head _ _ _ _ H).
Qed.

Lemma startsWith_spec s p : startsWith s p = true <-> exists post, s = p ++ post.
Proof.
  revert s. induction p as [|a p IH]; intros s; simpl.
  - split; [exists s; reflexivity | reflexivity].
  - destruct s as [|b s]; [split; [discriminate | intros [? ?]; discriminate]|].
    rewrite andb_true_iff, N.eqb_eq, IH. split.
    + intros [-> [post ->]]. exists post. reflexivity.
    + intros [post E]. injection E as -> ->. split; [reflexivity | eauto].
Qed.

(** [includes] finds exactly the substrings. *)
Lemma includes_spec s p :
  includes s p = true <-> exists pre post, s = pre ++ p ++ post.
Proof.
  induction s as [|c s IH].
  - simpl. rewrite orb_false_r, startsWith_spec. split.
    + intros [post E]. exists [], post. exact E.
    + intros [pre [post E]]. destruct pre; [eauto | discriminate].
  - cbn [includes]. rewrite orb_true_iff, startsWith_spec, IH. split.
    + intros [[post E] | [pre [post E]]].
      * exists [], post. exact E.
      * exists (c :: pre), post. simpl. congruence.
    + intros [pre [post E]]. destruct pre as [|d pre].
      * left. exists post. exact E.
      * right. injection E as _ E. eauto.
Qed.

Lemma dropWhile_fixed p s : stopsAt p s -> dropWhile p s = s.
Proof. destruct s as [|c s]; simpl; [reflexivity|]. intros ->. reflexivity. Qed.

Lemma trim_fixed v :
  stopsAt isWhiteSpace v -> stopsAt isWhiteSpace (rev v) -> trim v = v.
Proof.
  intros A B. unfold trim, trimStart, trimEnd.
  rewrite (dropWhile_fixed _ _ A), (dropWhile_fixed _ _ B). apply rev_involutive.
Qed.

Lemma trim_trim s : trim (trim s) = trim s.
Proof.
  apply trim_fixed.
  - destruct (trim s) as [|c t] eqn:E; simpl; [exact I|].
    exact (trim_first _ _ _ E).
  - destruct (rev (trim s)) as [|c t] eqn:E; simpl; [exact I|].
    apply (trim_last s (rev t) c).
    rewrite <- (rev_involutive (trim s)), E. reflexivity.
Qed.

End StringFacts.

(* ================================================================== *)
(** ** Facts on the matcher *)

Module RegexFacts.

Lemma backtrack_some least follow k n :
  backtrack least follow k = Some n ->
  exists j n', j <= k /\ least <= j /\ follow j = Some n' /\ n = j + n' /\
               forall j', j < j' <= k -> least <= j' -> follow j' = None.
Proof.
  induction k as [|k IH]; cbn [backtrack].
  - destruct (least <=? 0) eqn:L.
    + destruct (follow 0) as [n'|] eqn:F; simpl; [|discriminate].
      intros H. injection H as <-. exists 0, n'.
      apply Nat.leb_le in L. repeat split; auto. intros; lia.
    + discriminate.
  - destruct (least <=? S k) eqn:L.
    + destruct (follow (S k)) as [n'|] eqn:F; simpl.
      * intros H. injection H as <-. exists (S k), n'.
        apply Nat.leb_le in L. repeat split; auto. intros; lia.
      * intros H. destruct (IH H) as (j & n' & ? & ? & ? & ? & Hn).
        exists j, n'. repeat split; auto.
        intros j' Hj' Hl. destruct (Nat.eq_dec j' (S k)) as [->|]; [exact F|].
        apply Hn; [lia | exact Hl].
    + intros H. destruct (IH H) as (j & n' & ? & ? & ? & ? & Hn).
      apply Nat.leb_gt in L. lia.
Qed.

Lemma backtrack_complete least follow k j :
  j <= k -> least <= j -> follow j <> None ->
  backtrack least follow k <> None.
Proof.
  induction k as [|k IH]; intros Hj Hl Hf; cbn [backtrack].
  - assert (j = 0) by lia. subst j.
    apply Nat.leb_le in Hl. rewrite Hl.
    destruct (follow 0); simpl; congruence.
  - destruct (Nat.eq_dec j (S k)) as [->|Hne].
    + apply Nat.leb_le in Hl. rewrite Hl.
      destruct (follow (S k)); simpl; congruence.
    + destruct (if least <=? S k then option_map (Nat.add (S k)) (follow (S k)) else None);
        simpl; [discriminate|].
      apply IH; [lia | assumption | assumption].
Qed.

Lemma runLength_le p s : runLength p s <= length s.
Proof. induction s as [|c s IH]; simpl; [lia|]. destruct (p c); simpl; lia. Qed.

Lemma runLength_all p s j :
  j <= runLength p s -> Forall (fun c => p c = true) (firstn j s).
Proof.
  revert j. induction s as [|c s IH]; intros j Hj; simpl in *.
  - rewrite firstn_nil. constructor.
  - destruct j; simpl; [constructor|].
    destruct (p c) eqn:E; [|lia].
    constructor; [exact E | apply IH; lia].
Qed.

Lemma runLength_prefix p m rest :
  Forall (fun c => p c = true) m -> length m <= runLength p (m ++ rest).
Proof.
  induction 1 as [|c m Hc _ IH]; simpl; [lia|]. rewrite Hc. lia.
Qed.

(** Where a run stops, the string ends or the class fails. *)
Lemma runLength_stop p s :
  match skipn (runLength p s) s with
  | [] => True
  | c :: _ => p c = false
  end.
Proof.
  induction s as [|c s IH]; simpl; [exact I|].
  destruct (p c) eqn:E; simpl; [exact IH | exact E].
Qed.

Lemma greedy_le a s : greedy a s <= runLength (cls a) s.
Proof. unfold greedy. destruct (hi a); lia. Qed.

Lemma greedy_prefix a m rest : inAtom a m -> length m <= greedy a (m ++ rest).
Proof.
  intros (Hall & _ & Hhi). unfold greedy.
  pose proof (runLength_prefix _ _ rest Hall).
  destruct (hi a); lia.
Qed.

Lemma greedy_bound a s : match hi a with None => True | Some h => greedy a s <= h end.
Proof. unfold greedy. destruct (hi a); [lia | exact I]. Qed.

(** What the matcher finds is in the language. *)
Lemma matchSeq_sound atoms : forall s n,
  matchSeq atoms s = Some n -> n <= length s /\ langSeq atoms (firstn n s).
Proof.
  induction atoms as [|a rest IH]; intros s n H; simpl in H.
  - injection H as <-. split; [lia | reflexivity].
  - apply backtrack_some in H. destruct H as (j & n' & Hj & Hlo & Hf & -> & _).
    destruct (IH _ _ Hf) as [Hlen Hlang].
    pose proof (greedy_le a s). pose proof (runLength_le (cls a) s).
    rewrite length_skipn in Hlen. split; [lia|].
    simpl. exists (firstn j s), (firstn n' (skipn j s)). repeat split.
    + rewrite <- (firstn_skipn j s) at 1.
      rewrite firstn_app, length_firstn, firstn_firstn.
      replace (Nat.min (j + n') j) with j by lia.
      replace (j + n' - Nat.min j (length s)) with n' by lia. reflexivity.
    + apply runLength_all. lia.
    + rewrite length_firstn. lia.
    + pose proof (greedy_bound a s). rewrite length_firstn.
      destruct (hi a); [lia | exact I].
    + exact Hlang.
Qed.

(** Where the language has a word at the head, the matcher finds one. *)
Lemma matchSeq_complete atoms : forall m rest,
  langSeq atoms m -> matchSeq atoms (m ++ rest) <> None.
Proof.
  induction atoms as [|a tl IH]; intros m rest H; simpl in *.
  - discriminate.
  - destruct H as (m1 & m2 & -> & Ha & Hrest).
    apply backtrack_complete with (j := length m1).
    + rewrite <- app_assoc. apply greedy_prefix. exact Ha.
    + apply Ha.
    + rewrite <- app_assoc, skipn_app, skipn_all, Nat.sub_diag. simpl.
      apply IH. exact Hrest.
Qed.

Lemma matchAt_sound re : forall s n,
  matchAt re s = Some n -> n <= length s /\ lang re (firstn n s).
Proof.
  induction re as [|alt re IH]; intros s n H; simpl in H; [discriminate|].
  destruct (matchSeq alt s) as [k|] eqn:E.
  - injection H as <-. destruct (matchSeq_sound _ _ _ E) as [? ?].
    split; [assumption|]. exists alt. split; [left; reflexivity | assumption].
  - destruct (IH _ _ H) as [? (alt' & ? & ?)].
    split; [assumption|]. exists alt'. split; [right; assumption | assumption].
Qed.

Lemma matchAt_complete re m rest :
  lang re m -> matchAt re (m ++ rest) <> None.
Proof.
  intros (alt & Hin & Hl). induction re as [|alt' re IH]; [contradiction|].
  simpl. destruct (matchSeq alt' (m ++ rest)) eqn:E; [discriminate|].
  destruct Hin as [->|Hin].
  - exfalso. exact (matchSeq_complete _ _ rest Hl E).
  - exact (IH Hin).
Qed.

End RegexFacts.

(* ================================================================== *)
(** ** Facts on filterUrlsFromText *)

Module UrlFacts.
Import StringFacts RegexFacts.

Lemma visible_notWhiteSpace c : visible c -> isWhiteSpace c = false.
Proof.
  unfold visible, isWhiteSpace. intros H.
  repeat (apply orb_false_intro);
    try (apply N.eqb_neq; lia);
    apply andb_false_iff; rewrite !N.leb_gt; lia.
Qed.

Lemma chr_visible a c :
  (33 <= N_of_ascii a <= 126)%N -> chr a c = true -> visible c.
Proof. unfold chr, visible. intros H E. apply N.eqb_eq in E. lia. Qed.

Lemma inRange_visible a b c :
  (33 <= N_of_ascii a)%N -> (N_of_ascii b <= 126)%N ->
  inRange a b c = true -> visible c.
Proof.
  unfold inRange, visible. intros Ha Hb E.
  apply andb_true_iff in E. rewrite !N.leb_le in E. lia.
Qed.

Lemma domainChar_visible c : domainChar c = true -> visible c.
Proof.
  unfold domainChar. rewrite !orb_true_iff. intros [[[H|H]|H]|H].
  - apply (inRange_visible "a" "z"); [cbv; discriminate | cbv; discriminate | exact H].
  - apply (inRange_visible "A" "Z"); [cbv; discriminate | cbv; discriminate | exact H].
  - apply (inRange_visible "0" "9"); [cbv; discriminate | cbv; discriminate | exact H].
  - apply (chr_visible "-"); [split; cbv; discriminate | exact H].
Qed.

Lemma letter_visible c : letter c = true -> visible c.
Proof.
  unfold letter. rewrite orb_true_iff. intros [H|H].
  - apply (inRange_visible "a" "z"); [cbv; discriminate | cbv; discriminate | exact H].
  - apply (inRange_visible "A" "Z"); [cbv; discriminate | cbv; discriminate | exact H].
Qed.

Lemma lit_solid a : (33 <= N_of_ascii a <= 126)%N -> solid (lit a).
Proof. intros H c E. apply visible_notWhiteSpace. eapply chr_visible; eassumption. Qed.

Lemma opt_solid a : (33 <= N_of_ascii a <= 126)%N -> solid (opt a).
Proof. intros H c E. apply visible_notWhiteSpace. eapply chr_visible; eassumption. Qed.

Lemma notWhiteSpace_solid n h : solid (Atom notWhiteSpace n h).
Proof. intros c E. simpl in E. unfold notWhiteSpace in E. now apply negb_true_iff. Qed.

Lemma domainChar_solid n h : solid (Atom domainChar n h).
Proof. intros c E. apply visible_notWhiteSpace, domainChar_visible, E. Qed.

Lemma letter_solid n h : solid (Atom letter n h).
Proof. intros c E. apply visible_notWhiteSpace, letter_visible, E. Qed.

Lemma urlRegex_solid alt a : In alt urlRegex -> In a alt -> solid a.
Proof.
  intros Halt Ha. unfold urlRegex in Halt. simpl in Halt.
  repeat (destruct Halt as [<-|Halt]; [|]); try contradiction;
    simpl in Ha;
    repeat (destruct Ha as [<-|Ha]);
    try contradiction;
    first [ apply notWhiteSpace_solid | apply domainChar_solid
          | apply letter_solid
          | apply lit_solid; split; cbv; discriminate
          | apply opt_solid; split; cbv; discriminate ].
Qed.

Lemma langSeq_solid atoms : forall m,
  (forall a, In a atoms -> solid a) -> langSeq atoms m ->
  Forall (fun c => isWhiteSpace c = false) m.
Proof.
  induction atoms as [|a rest IH]; intros m Hs H; simpl in H.
  - subst. constructor.
  - destruct H as (m1 & m2 & -> & (Hall & _) & Hrest).
    apply Forall_app. split.
    + eapply Forall_impl; [|exact Hall]. intros c. apply Hs. left. reflexivity.
    + apply IH; [|exact Hrest]. intros b Hb. apply Hs. right. exact Hb.
Qed.

Lemma langSeq_length atoms : forall m,
  langSeq atoms m -> list_sum (map lo atoms) <= length m.
Proof.
  induction atoms as [|a rest IH]; intros m H; simpl in *.
  - lia.
  - destruct H as (m1 & m2 & -> & (_ & Hlo & _) & Hrest).
    rewrite length_app. specialize (IH _ Hrest). lia.
Qed.

(** A match of [urlRegex] is not empty and has no white space in it. *)
Lemma url_word m :
  lang urlRegex m -> m <> [] /\ Forall (fun c => isWhiteSpace c = false) m.
Proof.
  intros (alt & Hin & Hl). split.
  - apply langSeq_length in Hl. intros ->. simpl in Hl.
    unfold urlRegex in Hin. simpl in Hin.
    repeat (destruct Hin as [<-|Hin]; [simpl in Hl; lia|]). contradiction.
  - apply (langSeq_solid alt); [|exact Hl].
    intros a Ha. exact (urlRegex_solid alt a Hin Ha).
Qed.

(** A sequence that ends in an unbounded class stops where the class
    fails or the string ends. *)
Lemma matchSeq_stops p least init : forall s n,
  matchSeq (init ++ [Atom p least None]) s = Some n ->
  stopsAt p (skipn n s).
Proof.
  induction init as [|a init IH]; intros s n H; simpl in H.
  - apply backtrack_some in H.
    destruct H as (j & n' & Hj & Hlo & Hf & -> & Hmax).
    injection Hf as <-. unfold greedy in *. simpl in *.
    assert (j = runLength p s).
    { destruct (Nat.eq_dec j (runLength p s)) as [|Hne]; [assumption|].
      specialize (Hmax (runLength p s)). discriminate Hmax; lia. }
    subst j. rewrite Nat.add_0_r. apply runLength_stop.
  - apply backtrack_some in H.
    destruct H as (j & n' & _ & _ & Hf & -> & _).
    apply IH in Hf. rewrite skipn_skipn in Hf.
    now rewrite Nat.add_comm.
Qed.

Lemma url_stops s n :
  matchAt urlRegex s = Some n -> stopsAt notWhiteSpace (skipn n s).
Proof.
  unfold urlRegex, matchAt. intros H.
  repeat match type of H with
         | match matchSeq ?alt s with _ => _ end = _ =>
             destruct (matchSeq alt s) as [k|] eqn:E;
             [injection H as <-|clear E]
         end; try discriminate.
  - exact (matchSeq_stops notWhiteSpace 1
             [lit "h"; lit "t"; lit "t"; lit "p"; opt "s"; lit ":"; lit "/"; lit "/"] s k E).
  - exact (matchSeq_stops notWhiteSpace 1 [lit "w"; lit "w"; lit "w"; lit "."] s k E).
  - exact (matchSeq_stops notWhiteSpace 0
             [plus domainChar; lit "."; atLeast 2 letter; lit "/"] s k E).
  - exact (matchSeq_stops notWhiteSpace 0
             [plus domainChar; lit "."; atLeast 2 letter] s k E).
Qed.

Lemma url_match s n :
  matchAt urlRegex s = Some n ->
  0 < n <= length s /\
  Forall (fun c => isWhiteSpace c = false) (firstn n s) /\
  stopsAt notWhiteSpace (skipn n s).
Proof.
  intros H. destruct (matchAt_sound _ _ _ H) as [Hlen Hl].
  destruct (url_word _ Hl) as [Hne Hall].
  repeat split; [|assumption|assumption|exact (url_stops _ _ H)].
  destruct n; [|lia]. rewrite firstn_0 in Hne. contradiction.
Qed.

Lemma url_no_match_at_space c s :
  isWhiteSpace c = true -> matchAt urlRegex (c :: s) = None.
Proof.
  intros Hc. destruct (matchAt urlRegex (c :: s)) as [n|] eqn:E; [|reflexivity].
  destruct (url_match _ _ E) as ([Hn _] & Hall & _).
  destruct n; [lia|]. simpl in Hall. inversion Hall. congruence.
Qed.

Lemma replaceFrom_skip re repl : forall s k,
  k <= length s ->
  replaceFrom re repl k s = replaceFrom re repl 0 (skipn k s).
Proof.
  induction s as [|c s IH]; intros k Hk; simpl in Hk.
  - assert (k = 0) by lia. subst. reflexivity.
  - destruct k; [reflexivity|]. simpl. apply IH. lia.
Qed.

Lemma strip_nil : strip [] = [].
Proof. reflexivity. Qed.

Lemma strip_keep c s :
  matchAt urlRegex (c :: s) = None -> strip (c :: s) = c :: strip s.
Proof. unfold strip, replaceAll. cbn [replaceFrom]. intros ->. reflexivity. Qed.

Lemma strip_drop c s n :
  matchAt urlRegex (c :: s) = Some n -> strip (c :: s) = strip (skipn n (c :: s)).
Proof.
  intros H. destruct (url_match _ _ H) as ([Hn Hlen] & _ & _).
  unfold strip, replaceAll. cbn [replaceFrom]. rewrite H.
  destruct n; [lia|]. simpl in Hlen. simpl.
  apply replaceFrom_skip. lia.
Qed.

Lemma strong_list_ind (P : jsstring -> Prop) :
  (forall s, (forall t, length t < length s -> P t) -> P s) -> forall s, P s.
Proof.
  intros H s. remember (length s) as n eqn:E. revert s E.
  induction n as [n IH] using lt_wf_ind. intros s ->.
  apply H. intros t Ht. exact (IH _ Ht t eq_refl).
Qed.

(** What is left after a removed match starts with white space, so a
    word without white space that starts the output starts the input. *)
Lemma strip_prefix : forall s m rest,
  Forall (fun c => isWhiteSpace c = false) m ->
  strip s = m ++ rest -> exists rest', s = m ++ rest'.
Proof.
  induction s as [s IH] using strong_list_ind. intros m rest Hm E.
  destruct m as [|d m]; [exists s; reflexivity|].
  destruct s as [|c s]; [rewrite strip_nil in E; discriminate|].
  destruct (matchAt urlRegex (c :: s)) as [n|] eqn:M.
  - exfalso. destruct (url_match _ _ M) as ([Hn Hlen] & _ & Hstop).
    rewrite (strip_drop _ _ _ M) in E.
    destruct (skipn n (c :: s)) as [|w t] eqn:K.
    + rewrite strip_nil in E. discriminate.
    + simpl in Hstop. unfold notWhiteSpace in Hstop.
      apply negb_false_iff in Hstop.
      rewrite (strip_keep _ _ (url_no_match_at_space _ t Hstop)) in E.
      injection E as -> _. inversion Hm. congruence.
  - rewrite (strip_keep _ _ M) in E. injection E as <- E.
    inversion Hm as [|? ? _ Hm']; subst.
    destruct (IH s (Nat.lt_succ_diag_r _) m rest Hm' E) as [rest' ->].
    exists rest'. reflexivity.
Qed.

(** After the replacement no part of the text matches [urlRegex]. *)
Lemma strip_clean : forall s pre m post,
  strip s = pre ++ m ++ post -> ~ lang urlRegex m.
Proof.
  induction s as [s IH] using strong_list_ind. intros pre m post E Hl.
  destruct (url_word _ Hl) as [Hne Hall].
  destruct s as [|c s].
  - rewrite strip_nil in E. destruct pre; [destruct m; [contradiction | discriminate] | discriminate].
  - destruct (matchAt urlRegex (c :: s)) as [n|] eqn:M.
    + destruct (url_match _ _ M) as ([Hn Hlen] & _ & _).
      rewrite (strip_drop _ _ _ M) in E.
      refine (IH (skipn n (c :: s)) _ pre m post E Hl).
      rewrite length_skipn. lia.
    + rewrite (strip_keep _ _ M) in E. destruct pre as [|p pre].
      * destruct m as [|d m]; [contradiction|].
        simpl in E. injection E as <- E.
        inversion Hall as [|? ? _ Hall']; subst.
        destruct (strip_prefix s _ _ Hall' E) as [rest ->].
        apply (matchAt_complete urlRegex (c :: m) rest Hl). exact M.
      * simpl in E. injection E as _ E.
        exact (IH s (Nat.lt_succ_diag_r _) pre m post E Hl).
Qed.

End UrlFacts.

Module SpaceFacts.
Import StringFacts RegexFacts UrlFacts.

Lemma matchAt_spaces s :
  matchAt spacesRegex s =
  match runLength isWhiteSpace s with
  | 0 => None
  | S k => Some (S k)
  end.
Proof.
  unfold spacesRegex, matchAt, matchSeq, greedy, plus. cbn [cls lo hi].
  destruct (runLength isWhiteSpace s) as [|k]; cbn [backtrack]; [reflexivity|].
  cbn [Nat.leb option_map]. rewrite Nat.add_0_r. reflexivity.
Qed.

Lemma squeeze_nil : squeeze [] = [].
Proof. reflexivity. Qed.

Lemma squeeze_keep c s :
  isWhiteSpace c = false -> squeeze (c :: s) = c :: squeeze s.
Proof.
  intros Hc. unfold squeeze, replaceAll. cbn [replaceFrom].
  rewrite matchAt_spaces. cbn [runLength]. rewrite Hc. reflexivity.
Qed.

Lemma squeeze_space c s :
  isWhiteSpace c = true ->
  squeeze (c :: s) = 32%N :: squeeze (skipn (runLength isWhiteSpace s) s).
Proof.
  intros Hc. unfold squeeze, replaceAll. cbn [replaceFrom].
  rewrite matchAt_spaces. cbn [runLength]. rewrite Hc.
  change (js " ") with [32%N]. cbn [app]. f_equal.
  apply replaceFrom_skip, runLength_le.
Qed.

Lemma after_run_shorter (s : jsstring) c :
  length (skipn (runLength isWhiteSpace s) s) < length (c :: s).
Proof. rewrite length_skipn. simpl. lia. Qed.

Lemma squeeze_prefix : forall s m rest,
  Forall (fun c => isWhiteSpace c = false) m ->
  squeeze s = m ++ rest -> exists rest', s = m ++ rest'.
Proof.
  induction s as [|c s IH]; intros m rest Hm E.
  - rewrite squeeze_nil in E. destruct m; [exists []; reflexivity | discriminate].
  - destruct m as [|d m]; [exists (c :: s); reflexivity|].
    inversion Hm as [|? ? Hd Hm']; subst.
    destruct (isWhiteSpace c) eqn:Hc.
    + rewrite (squeeze_space _ _ Hc) in E. injection E as <- _.
      discriminate Hd.
    + rewrite (squeeze_keep _ _ Hc) in E. injection E as <- E.
      destruct (IH _ _ Hm' E) as [rest' ->]. exists rest'. reflexivity.
Qed.

(** A word without white space that is in the squeezed text was in the
    text. *)
Lemma squeeze_inside : forall s pre m post,
  Forall (fun c => isWhiteSpace c = false) m ->
  squeeze s = pre ++ m ++ post -> exists pre' post', s = pre' ++ m ++ post'.
Proof.
  induction s as [s IH] using strong_list_ind. intros pre m post Hm E.
  destruct m as [|d m]; [exists [], s; reflexivity|].
  destruct s as [|c s].
  - rewrite squeeze_nil in E. destruct pre; discriminate.
  - destruct (isWhiteSpace c) eqn:Hc.
    + rewrite (squeeze_space _ _ Hc) in E. destruct pre as [|p pre].
      * simpl in E. injection E as <- _. inversion Hm. discriminate.
      * simpl in E. injection E as _ E.
        destruct (IH _ (after_run_shorter s c) _ _ _ Hm E) as (pre' & post' & K).
        exists (c :: firstn (runLength isWhiteSpace s) s ++ pre'), post'.
        rewrite <- (firstn_skipn (runLength isWhiteSpace s) s) at 1.
        rewrite K. simpl. rewrite <- app_assoc. reflexivity.
    + rewrite (squeeze_keep _ _ Hc) in E. destruct pre as [|p pre].
      * destruct (squeeze_prefix (c :: s) (d :: m) post Hm) as [rest' K].
        { rewrite (squeeze_keep _ _ Hc). exact E. }
        exists [], rest'. exact K.
      * simpl in E. injection E as _ E.
        destruct (IH s (Nat.lt_succ_diag_r _) _ _ _ Hm E) as (pre' & post' & ->).
        exists (c :: pre'), post'. reflexivity.
Qed.

Lemma squeeze_wellSpaced : forall s, wellSpaced (squeeze s).
Proof.
  induction s as [s IH] using strong_list_ind. intros pre c post E Hc.
  destruct s as [|x s].
  - rewrite squeeze_nil in E. destruct pre; discriminate.
  - destruct (isWhiteSpace x) eqn:Hx.
    + rewrite (squeeze_space _ _ Hx) in E. destruct pre as [|p pre].
      * simpl in E. injection E as <- <-. split; [reflexivity|].
        pose proof (runLength_stop isWhiteSpace s) as Hs.
        destruct (skipn (runLength isWhiteSpace s) s) as [|d t]; [exact I|].
        rewrite (squeeze_keep _ _ Hs). exact Hs.
      * simpl in E. injection E as _ E.
        exact (IH _ (after_run_shorter s x) _ _ _ E Hc).
    + rewrite (squeeze_keep _ _ Hx) in E. destruct pre as [|p pre].
      * simpl in E. injection E as <- _. congruence.
      * simpl in E. injection E as _ E.
        exact (IH s (Nat.lt_succ_diag_r _) _ _ _ E Hc).
Qed.

Lemma wellSpaced_inside a w b : wellSpaced (a ++ w ++ b) -> wellSpaced w.
Proof.
  intros H pre c post -> Hc.
  destruct (H (a ++ pre) c (post ++ b)) as [E S]; [|exact Hc|].
  - rewrite <- !app_assoc. reflexivity.
  - split; [exact E|]. destruct post; [exact I | exact S].
Qed.

Lemma last_split (l : jsstring) : l <> [] -> exists p d, l = p ++ [d].
Proof.
  intros H. destruct (exists_last H) as (p & d & ->). eauto.
Qed.

End SpaceFacts.

(* ================================================================== *)
(** ** Facts on the spoken text *)

Module SpokenFacts.
Import StringFacts RegexFacts UrlFacts SpaceFacts.

Lemma dropWhile_prefix p s :
  exists pre, s = pre ++ dropWhile p s /\ Forall (fun c => p c = true) pre.
Proof.
  induction s as [|c s (pre & E & F)]; simpl.
  - exists []. split; [reflexivity | constructor].
  - destruct (p c) eqn:Hc.
    + exists (c :: pre). split; [simpl; f_equal; exact E | constructor; assumption].
    + exists []. split; [reflexivity | constructor].
Qed.

Lemma dropWhile_app p m rest :
  Forall (fun c => p c = true) m -> stopsAt p rest -> dropWhile p (m ++ rest) = rest.
Proof.
  intros F S. induction F as [|c m Hc _ IH]; simpl.
  - destruct rest as [|d rest]; simpl in *; [reflexivity | rewrite S; reflexivity].
  - rewrite Hc. exact IH.
Qed.

Lemma skipn_runLength p s : skipn (runLength p s) s = dropWhile p s.
Proof.
  induction s as [|c s IH]; simpl; [reflexivity|].
  destruct (p c); [exact IH | reflexivity].
Qed.

Lemma match_begins s n : matchAt urlRegex s = Some n -> urlBegins s.
Proof.
  intros H. destruct (matchAt_sound _ _ _ H) as [_ L].
  exists (firstn n s), (skipn n s). split; [symmetry; apply firstn_skipn | exact L].
Qed.

Lemma no_match_begins s : matchAt urlRegex s = None -> ~ urlBegins s.
Proof.
  intros H (m & rest & -> & L). exact (matchAt_complete _ _ rest L H).
Qed.

(** A match ends where its word ends. *)
Lemma match_word s n :
  matchAt urlRegex s = Some n -> skipn n s = dropWhile notWhiteSpace s.
Proof.
  intros H. destruct (url_match _ _ H) as (_ & F & S).
  rewrite <- (firstn_skipn n s) at 2. symmetry. apply dropWhile_app; [|exact S].
  apply Forall_impl with (2 := F). intros c Hc. unfold notWhiteSpace. rewrite Hc.
  reflexivity.
Qed.

(** A token lies inside one word. *)
Lemma token_in_word m rest :
  lang urlRegex m ->
  length (dropWhile notWhiteSpace (m ++ rest)) <= length rest.
Proof.
  intros L. destruct (url_word _ L) as [_ F]. clear L.
  induction F as [|c m Hc _ IH]; simpl.
  - destruct (dropWhile_prefix notWhiteSpace rest) as (pre & E & _).
    rewrite E at 2. rewrite length_app. lia.
  - unfold notWhiteSpace at 1. rewrite Hc. exact IH.
Qed.

(** The match of the source is the longest token, and the longest token
    ends where its word ends. *)
Lemma match_longest s n :
  matchAt urlRegex s = Some n -> longestToken (firstn n s) (skipn n s).
Proof.
  intros H. destruct (matchAt_sound _ _ _ H) as [Hn L]. split; [exact L|].
  intros m' rest' E L'. rewrite firstn_skipn in E.
  pose proof (token_in_word m' rest' L') as K. rewrite <- E in K.
  rewrite <- (match_word _ _ H) in K.
  rewrite length_skipn in K. rewrite length_firstn.
  assert (length s = length m' + length rest') by (rewrite E; apply length_app).
  lia.
Qed.

Lemma longest_word m rest :
  longestToken m rest -> rest = dropWhile notWhiteSpace (m ++ rest).
Proof.
  intros [L Hmax].
  destruct (matchAt urlRegex (m ++ rest)) as [n|] eqn:M.
  2:{ exfalso. exact (matchAt_complete _ _ rest L M). }
  destruct (match_longest _ _ M) as [Ln Hn].
  pose proof (Hmax (firstn n (m ++ rest)) (skipn n (m ++ rest))
                (eq_sym (firstn_skipn n (m ++ rest))) Ln) as A.
  pose proof (Hn m rest (firstn_skipn n (m ++ rest)) L) as B.
  destruct (matchAt_sound _ _ _ M) as [Hle _].
  rewrite length_firstn in A, B.
  assert (E : n = length m) by lia.
  rewrite <- (match_word _ _ M), E, skipn_app, skipn_all, Nat.sub_diag.
  reflexivity.
Qed.

Lemma token_shorter m rest : longestToken m rest -> length rest < length (m ++ rest).
Proof.
  intros [L _]. destruct (url_word _ L) as [Hne _].
  rewrite length_app. destruct m; [contradiction|]. simpl. lia.
Qed.

Lemma strip_token m rest : longestToken m rest -> strip (m ++ rest) = strip rest.
Proof.
  intros T. pose proof T as [L _].
  destruct (matchAt urlRegex (m ++ rest)) as [n|] eqn:M.
  2:{ exfalso. exact (matchAt_complete _ _ rest L M). }
  destruct (url_word _ L) as [Hne _].
  destruct m as [|c m]; [contradiction|].
  pose proof (longest_word _ _ T) as W.
  transitivity (strip (dropWhile notWhiteSpace ((c :: m) ++ rest)));
    [|rewrite <- W; reflexivity].
  rewrite <- (match_word _ _ M). exact (strip_drop c (m ++ rest) n M).
Qed.

Lemma strip_other c s : ~ urlBegins (c :: s) -> strip (c :: s) = c :: strip s.
Proof.
  intros B. destruct (matchAt urlRegex (c :: s)) as [n|] eqn:M.
  - exfalso. exact (B (match_begins _ _ M)).
  - apply strip_keep. exact M.
Qed.

Lemma removed_strip : forall s, Removed s (strip s).
Proof.
  apply strong_list_ind. intros s IH.
  destruct s as [|c s]; [rewrite strip_nil; constructor|].
  destruct (matchAt urlRegex (c :: s)) as [n|] eqn:M.
  - pose proof (match_longest _ _ M) as T.
    rewrite <- (firstn_skipn n (c :: s)).
    rewrite (strip_token _ _ T). apply Removed_token; [exact T|].
    apply IH. pose proof (token_shorter _ _ T) as K.
    rewrite firstn_skipn in K. exact K.
  - pose proof (no_match_begins _ M) as B.
    rewrite (strip_other _ _ B). apply Removed_keep; [exact B|].
    apply IH. simpl. lia.
Qed.

Lemma removed_unique s t : Removed s t -> t = strip s.
Proof.
  induction 1 as [|c s t B _ IH|m rest t T _ IH].
  - symmetry. apply strip_nil.
  - rewrite (strip_other _ _ B), IH. reflexivity.
  - rewrite (strip_token _ _ T). exact IH.
Qed.

Lemma squeeze_run c s :
  isWhiteSpace c = true ->
  squeeze (c :: s) = 32%N :: squeeze (dropWhile isWhiteSpace s).
Proof. intros H. rewrite (squeeze_space _ _ H), skipn_runLength. reflexivity. Qed.

Lemma dropWhile_le p s : length (dropWhile p s) <= length s.
Proof.
  destruct (dropWhile_prefix p s) as (pre & E & _).
  rewrite E at 2. rewrite length_app. lia.
Qed.

Lemma collapsed_squeeze : forall s, Collapsed s (squeeze s).
Proof.
  apply strong_list_ind. intros s IH.
  destruct s as [|c s]; [rewrite squeeze_nil; constructor|].
  destruct (isWhiteSpace c) eqn:Hc.
  - rewrite (squeeze_run _ _ Hc). apply Collapsed_run; [exact Hc|].
    apply IH. simpl. pose proof (dropWhile_le isWhiteSpace s). lia.
  - rewrite (squeeze_keep _ _ Hc). apply Collapsed_keep; [exact Hc|].
    apply IH. simpl. lia.
Qed.

Lemma collapsed_unique s t : Collapsed s t -> t = squeeze s.
Proof.
  induction 1 as [|c s t Hc _ IH|c s t Hc _ IH].
  - symmetry. apply squeeze_nil.
  - rewrite (squeeze_keep _ _ Hc), IH. reflexivity.
  - rewrite (squeeze_run _ _ Hc), IH. reflexivity.
Qed.

Lemma trimmed_trim s : Trimmed s (trim s).
Proof.
  unfold Trimmed, trim, trimEnd, trimStart.
  destruct (dropWhile_prefix isWhiteSpace s) as (pre & E & F).
  destruct (dropWhile_prefix isWhiteSpace (rev (dropWhile isWhiteSpace s)))
    as (q & G & H).
  exists pre, (rev q). split; [|split; [exact F|split; [|split]]].
  - rewrite E at 1. f_equal.
    rewrite <- (rev_involutive (dropWhile isWhiteSpace s)) at 1.
    rewrite G at 1. apply rev_app_distr.
  - apply Forall_rev. exact H.
  - destruct (rev (dropWhile isWhiteSpace (rev (dropWhile isWhiteSpace s))))
      as [|c t] eqn:T; simpl; [exact I|].
    exact (trim_first s c t T).
  - rewrite rev_involutive.
    destruct (dropWhile isWhiteSpace (rev (dropWhile isWhiteSpace s)))
      as [|c t] eqn:T; simpl; [exact I|].
    exact (dropWhile_head _ _ _ _ T).
Qed.

Lemma trimmed_unique s t : Trimmed s t -> t = trim s.
Proof.
  intros (pre & post & -> & F & G & A & B).
  unfold trim, trimStart, trimEnd.
  destruct t as [|c t].
  - simpl. rewrite <- (app_nil_r (pre ++ post)).
    rewrite (dropWhile_app isWhiteSpace (pre ++ post) []);
      [reflexivity | apply Forall_app; split; assumption | exact I].
  - rewrite (dropWhile_app isWhiteSpace pre ((c :: t) ++ post) F) by exact A.
    rewrite rev_app_distr.
    rewrite (dropWhile_app isWhiteSpace (rev post) (rev (c :: t)));
      [symmetry; apply rev_involutive | apply Forall_rev; exact G | exact B].
Qed.

(** The function of the source computes the spoken text of the
    specification, and nothing else is one. *)
Lemma spoken_filter reply out : Spoken reply out <-> out = filterUrlsFromText reply.
Proof.
  unfold filterUrlsFromText. fold (strip reply). fold (squeeze (strip reply)). split.
  - intros (a & b & R & C & T).
    apply removed_unique in R. apply collapsed_unique in C. apply trimmed_unique in T.
    subst. reflexivity.
  - intros ->. exists (strip reply), (squeeze (strip reply)).
    split; [apply removed_strip|]. split; [apply collapsed_squeeze | apply trimmed_trim].
Qed.

End SpokenFacts.

(* ================================================================== *)
(** ** Facts on asynchronous code *)

Module ProcFacts.

Lemma outcome_eta {A} (o : Outcome A) :
  o = {| final := final o; trace := trace o; result := result o |}.
Proof. destruct o. reflexivity. Qed.

Lemma run_bind {A B} (e : env) (p : Proc A) (f : A -> Proc B) : forall w,
  run e (bind p f) w = andThen (run e p w) (fun a => run e (f a)).
Proof.
  induction p as [a|x|a k IH|X q k IH]; intros w; simpl.
  - unfold andThen. simpl. apply outcome_eta.
  - reflexivity.
  - rewrite IH. unfold andThen, after. simpl.
    destruct (result (run e k (apply a w))); reflexivity.
  - rewrite IH. unfold andThen, after. simpl.
    destruct (result (run e (k (fst (e X q w))) (snd (e X q w)))); reflexivity.
Qed.

Lemma run_tryCatch {A} (e : env) (p : Proc A) (h : exn -> Proc A) : forall w,
  run e (tryCatch p h) w = orElse (run e p w) (fun x => run e (h x)).
Proof.
  induction p as [a|x|a k IH|X q k IH]; intros w; simpl.
  - reflexivity.
  - unfold orElse. simpl. apply outcome_eta.
  - rewrite IH. unfold orElse, after. simpl.
    destruct (result (run e k (apply a w))) eqn:E; simpl; rewrite ?E; reflexivity.
  - rewrite IH. unfold orElse, after. simpl.
    destruct (result (run e (k (fst (e X q w))) (snd (e X q w)))) eqn:E;
      simpl; rewrite ?E; reflexivity.
Qed.

Lemma Every_impl {A} (P Q : entry -> Prop) (p : Proc A) :
  (forall en, P en -> Q en) -> Every P p -> Every Q p.
Proof. intros H. induction 1; constructor; auto. Qed.

Lemma Every_bind {A B} P (p : Proc A) (f : A -> Proc B) :
  Every P p -> (forall a, Every P (f a)) -> Every P (bind p f).
Proof. intros Hp Hf. induction Hp; simpl; try constructor; auto. Qed.

Lemma Every_tryCatch {A} P (p : Proc A) h :
  Every P p -> (forall x, Every P (h x)) -> Every P (tryCatch p h).
Proof. intros Hp Hh. induction Hp; simpl; try constructor; auto. Qed.

Lemma Every_tryFinally {A} P (p : Proc A) f :
  Every P p -> Every P f -> Every P (tryFinally p f).
Proof.
  intros Hp Hf. unfold tryFinally.
  apply Every_bind.
  - apply Every_tryCatch.
    + apply Every_bind; [exact Hp | intros; constructor].
    + intros; constructor.
  - intros r. apply Every_bind; [exact Hf|]. intros _. destruct r; constructor.
Qed.

Lemma Every_run {A} P (p : Proc A) :
  Every P p -> forall e w, Forall P (trace (run e p w)).
Proof. induction 1; intros e w; simpl; constructor; auto. Qed.

Lemma Every_perform P a : P (Did a) -> Every P (perform a).
Proof. intros H. repeat constructor. exact H. Qed.

Lemma Every_ask {X} P (q : query X) : P (Asked q) -> Every P (ask q).
Proof. intros H. constructor; [exact H|]. intros; constructor. Qed.

Lemma Every_await {X} P (q : query (exn + X)) : P (Asked q) -> Every P (await q).
Proof. intros H. constructor; [exact H|]. intros [x|x]; constructor. Qed.

Lemma Every_when P b p : Every P p -> Every P (when b p).
Proof. intros H. destruct b; [exact H | constructor]. Qed.

Lemma Every_whenSome {X} P (o : option X) p :
  (forall x, o = Some x -> Every P (p x)) -> Every P (whenSome o p).
Proof. intros H. destruct o; [apply H; reflexivity | constructor]. Qed.

Lemma Safe_bind {A B} (p : Proc A) (f : A -> Proc B) :
  Safe p -> (forall a, Safe (f a)) -> Safe (bind p f).
Proof. intros Hp Hf. induction Hp; simpl; try constructor; auto. Qed.

Lemma Safe_tryCatch {A} (p : Proc A) h :
  (forall x, Safe (h x)) -> Safe (tryCatch p h).
Proof. intros Hh. induction p; simpl; try constructor; auto. Qed.

Lemma Safe_tryFinally {A} (p : Proc A) f :
  Safe p -> Safe f -> Safe (tryFinally p f).
Proof.
  intros Hp Hf. unfold tryFinally.
  induction Hp as [a|a k _ IH|X q k _ IH]; simpl.
  - apply Safe_bind; [exact Hf | intros; constructor].
  - constructor. exact IH.
  - constructor. exact IH.
Qed.

Lemma Safe_perform a : Safe (perform a).
Proof. repeat constructor. Qed.

Lemma Safe_ask {X} (q : query X) : Safe (ask q).
Proof. constructor. intros; constructor. Qed.

Lemma Safe_when b p : Safe p -> Safe (when b p).
Proof. intros H. destruct b; [exact H | constructor]. Qed.

Lemma Safe_whenSome {X} (o : option X) p :
  (forall x, Safe (p x)) -> Safe (whenSome o p).
Proof. intros H. destruct o; [apply H | constructor]. Qed.

Lemma Safe_run {A} (p : Proc A) :
  Safe p -> forall e w, exists a, result (run e p w) = inr a.
Proof. induction 1; intros e w; simpl; eauto. Qed.

Lemma Immediate_run {A} (p : Proc A) :
  Immediate p -> forall e e' w, run e p w = run e' p w.
Proof. induction 1; intros e e' w; simpl; f_equal; auto. Qed.

Lemma Immediate_bind {A B} (p : Proc A) (f : A -> Proc B) :
  Immediate p -> (forall a, Immediate (f a)) -> Immediate (bind p f).
Proof. intros Hp Hf. induction Hp; simpl; try constructor; auto. Qed.

(** The world in which a [finally] block ends is the one the whole
    statement ends in. *)
Lemma final_tryFinally {A} e (p : Proc A) f : forall w,
  exists w', final (run e (tryFinally p f) w) = final (run e f w').
Proof.
  unfold tryFinally. induction p as [a|x|a k IH|X q k IH]; intros w; simpl.
  - exists w. rewrite run_bind. unfold andThen.
    destruct (result (run e f w)); reflexivity.
  - exists w. rewrite run_bind. unfold andThen.
    destruct (result (run e f w)); reflexivity.
  - destruct (IH (apply a w)) as [w' E]. exists w'. exact E.
  - destruct (IH (fst (e X q w)) (snd (e X q w))) as [w' E]. exists w'. exact E.
Qed.

Lemma in_andThen_first {A B} (o : Outcome A) (f : A -> World -> Outcome B) en :
  In en (trace o) -> In en (trace (andThen o f)).
Proof.
  unfold andThen. destruct (result o); simpl; [auto|].
  intros H. apply in_or_app. left. exact H.
Qed.

Lemma in_andThen_second {A B} (o : Outcome A) (f : A -> World -> Outcome B) a en :
  result o = inr a -> In en (trace (f a (final o))) -> In en (trace (andThen o f)).
Proof.
  unfold andThen. intros ->. simpl. intros H. apply in_or_app. right. exact H.
Qed.

Lemma in_orElse_handler {A} (o : Outcome A) h x en :
  result o = inl x -> In en (trace (h x (final o))) -> In en (trace (orElse o h)).
Proof.
  unfold orElse. intros ->. simpl. intros H. apply in_or_app. right. exact H.
Qed.

Lemma result_andThen_throw {A B} (o : Outcome A) (f : A -> World -> Outcome B) x :
  result o = inl x -> result (andThen o f) = inl x.
Proof. unfold andThen. intros ->. reflexivity. Qed.

End ProcFacts.

(* ================================================================== *)
(** ** Facts on the turn *)

Module TurnFacts.
Import ProcFacts.

Ltac leaf :=
  unfold quiet, fillerEntry; simpl;
  first [ exact (fun H => H) | intros H; discriminate H | intros [] ].

Ltac every_with leaf :=
  repeat first
    [ apply Every_bind; [|intros ?]
    | apply Every_tryCatch; [|intros ?]
    | apply Every_tryFinally
    | apply Every_when
    | apply Every_whenSome; intros ? ?
    | apply Every_perform; leaf
    | apply Every_ask; leaf
    | apply Every_await; leaf
    | apply Every_Ret
    | apply Every_Throw
    | match goal with
      | |- Every _ (if ?b then _ else _) => destruct b
      | |- Every _ (match ?x with _ => _ end) => destruct x
      end
    | progress cbv zeta ].

Ltac every := every_with leaf.

Lemma quiet_speakText r text : Every quiet (speakText r text).
Proof. unfold speakText, log, logError. every. Qed.

Lemma quiet_stop r : Every quiet (stopContinuousThinking r).
Proof. unfold stopContinuousThinking. every. Qed.

Lemma quiet_resetTranscript : Every quiet resetTranscript.
Proof. unfold resetTranscript, log. every. Qed.

Lemma quiet_stopListening r : Every quiet (stopListening r).
Proof. unfold stopListening, log. every. Qed.

Lemma quiet_startListening r : Every quiet (startListening r).
Proof. unfold startListening, log, logError. every. Qed.

(** The loop body gives up at once in a render that is not processing. *)
Lemma playRandomThinkingSound_idle r :
  isProcessingVoice r = false -> playRandomThinkingSound r = Ret tt.
Proof. unfold playRandomThinkingSound. intros ->. reflexivity. Qed.

Section WithHost.
Variable toLowerCase : jsstring -> jsstring.
Variable apiUrl : option jsstring.

Lemma quiet_sendMessage sid msg : Every quiet (sendMessage apiUrl sid msg).
Proof. unfold sendMessage, logError. every. Qed.

(** The message handler goes on only when [isProcessingVoice] is false
    in its render, and the loop body only when it is true there. *)
Lemma quiet_handleLiveChatMessage r msg :
  Every quiet (handleLiveChatMessage toLowerCase apiUrl r msg).
Proof.
  unfold handleLiveChatMessage.
  apply Every_bind; [every|intros _].
  apply Every_bind; [apply quiet_stop|intros _].
  apply Every_bind; [every|intros _].
  destruct (isProcessingVoice r) eqn:P.
  - rewrite orb_true_r. unfold log. every.
  - rewrite orb_false_r.
    destruct (negb (nonEmpty (trim msg))); [unfold log; every|].
    unfold startContinuousThinking.
    rewrite (playRandomThinkingSound_idle r P).
    apply Every_bind; [every|intros _].
    apply Every_bind; [unfold log; every|intros _].
    apply Every_tryFinally.
    + apply Every_tryCatch.
      * apply Every_bind.
        { apply Every_when. apply Every_bind; [every|intros x].
          cbv zeta. apply Every_bind; [unfold log; every|intros _].
          apply Every_bind; [|intros _; every].
          apply Every_tryCatch; [apply quiet_speakText | intros; unfold log; every]. }
        intros _. apply Every_bind; [unfold log; every|intros _].
        apply Every_bind; [apply quiet_sendMessage|intros response].
        apply Every_bind; [unfold log; every|intros _].
        apply Every_bind; [apply quiet_stop|intros _].
        apply Every_bind; [every|intros _].
        apply Every_bind; [every|intros _].
        apply Every_bind; [every|intros _].
        apply Every_bind; [unfold filterUrlsFromValue; every|intros voiceText].
        apply Every_bind; [unfold log; every|intros _].
        apply quiet_speakText.
      * intros x. apply Every_bind; [unfold logError; every|intros _].
        apply Every_bind; [apply quiet_stop|intros _].
        apply quiet_speakText.
    + apply Every_bind; [unfold log; every|intros _].
      apply Every_bind; [apply quiet_stop|intros _].
      every.
Qed.

Lemma quiet_liveChatTimeout r :
  Every quiet (liveChatTimeout toLowerCase apiUrl r).
Proof.
  unfold liveChatTimeout. cbv zeta.
  apply Every_bind; [unfold log; every|intros _].
  apply Every_when.
  apply Every_bind; [unfold log; every|intros _].
  apply Every_bind; [apply quiet_handleLiveChatMessage|intros _].
  apply Every_bind; [apply quiet_resetTranscript|intros _].
  every.
Qed.

End WithHost.

Ltac plain := unfold carries; simpl; intros; first [discriminate | split; congruence].

Lemma carries_resetTranscript msg : Every (carries msg) resetTranscript.
Proof. unfold resetTranscript, log. every_with plain. Qed.

Lemma carries_message toLowerCase apiUrl r msg :
  Every (carries msg) (handleLiveChatMessage toLowerCase apiUrl r msg).
Proof.
  unfold handleLiveChatMessage, startContinuousThinking, playRandomThinkingSound,
    stopContinuousThinking, speakText, sendMessage, filterUrlsFromValue, log, logError.
  every_with plain.
Qed.

Lemma quiet_voiceInterruptionEffect r : Every quiet (voiceInterruptionEffect r).
Proof.
  unfold voiceInterruptionEffect. apply Every_when.
  apply Every_bind; [unfold log; every|intros _].
  apply Every_bind; [every|intros _].
  apply Every_bind; [apply quiet_stop|intros _].
  apply Every_bind; [every|intros _].
  apply Every_bind; [every|intros _].
  apply Every_bind; [apply quiet_resetTranscript|intros _].
  unfold log. every.
Qed.

Lemma quiet_handleLiveChatToggle r : Every quiet (handleLiveChatToggle r).
Proof.
  unfold handleLiveChatToggle. destruct (isLiveChatMode r).
  - apply Every_bind; [unfold log; every|intros _].
    apply Every_bind; [every|intros _].
    apply Every_bind; [every|intros _].
    apply Every_bind; [every|intros _].
    apply Every_bind; [every|intros _].
    apply Every_bind; [every|intros _].
    apply Every_bind; [apply Every_when, quiet_stopListening|intros _].
    apply Every_bind; [apply quiet_stop|intros _].
    apply Every_bind; [apply quiet_resetTranscript|intros _].
    every.
  - apply Every_bind; [unfold log; every|intros _].
    apply Every_bind; [every|intros _].
    apply Every_bind; [every|intros _].
    apply Every_bind; [every|intros _].
    apply Every_bind; [every|intros _].
    apply Every_bind; [every|intros _].
    apply Every_bind; [every|intros _].
    apply Every_when.
    apply Every_bind; [apply quiet_startListening|intros _]. every.
Qed.

End TurnFacts.

Module CompletionFacts.
Import ProcFacts TurnFacts.

Ltac safe :=
  repeat first
    [ apply Safe_bind; [|intros ?]
    | apply Safe_tryCatch; intros ?
    | apply Safe_when
    | apply Safe_whenSome; intros ?
    | apply Safe_perform
    | apply Safe_ask
    | apply Safe_Ret
    | match goal with
      | |- Safe (if ?b then _ else _) => destruct b
      end ].

Lemma safe_speakText r text : Safe (speakText r text).
Proof. unfold speakText, log, logError. safe. Qed.

Lemma safe_stop r : Safe (stopContinuousThinking r).
Proof. unfold stopContinuousThinking. safe. Qed.

Lemma safe_playRandomThinkingSound r : Safe (playRandomThinkingSound r).
Proof. unfold playRandomThinkingSound, log. safe. Qed.

Lemma safe_resetTranscript : Safe resetTranscript.
Proof. unfold resetTranscript, log. safe. Qed.

(** Code that cannot throw hands over to what follows it. *)
Lemma run_bind_safe {B} e (p : Proc unit) (f : unit -> Proc B) w :
  Safe p ->
  exists w' tr,
    final (run e (bind p f) w) = final (run e (f tt) w') /\
    trace (run e (bind p f) w) = tr ++ trace (run e (f tt) w') /\
    result (run e (bind p f) w) = result (run e (f tt) w').
Proof.
  intros Hp. rewrite run_bind. unfold andThen.
  destruct (Safe_run p Hp e w) as [[] ->].
  exists (final (run e p w)), (trace (run e p w)). auto.
Qed.

Lemma in_bind_safe {B} e (p : Proc unit) (f : unit -> Proc B) w en :
  Safe p ->
  (forall w', In en (trace (run e (f tt) w'))) ->
  In en (trace (run e (bind p f) w)).
Proof.
  intros Hp H. destruct (run_bind_safe e p f w Hp) as (w' & tr & _ & -> & _).
  apply in_or_app. right. apply H.
Qed.

Lemma in_orElse_first {A} (o : Outcome A) h en :
  In en (trace o) -> In en (trace (orElse o h)).
Proof.
  unfold orElse. destruct (result o); simpl; [|auto].
  intros H. apply in_or_app. left. exact H.
Qed.

Lemma in_tryFinally {A} e (p : Proc A) f w en :
  In en (trace (run e p w)) -> In en (trace (run e (tryFinally p f) w)).
Proof.
  intros H. unfold tryFinally. rewrite run_bind. apply in_andThen_first.
  rewrite run_tryCatch. apply in_orElse_first.
  rewrite run_bind. apply in_andThen_first. exact H.
Qed.

Lemma apology_spoken r :
  forall e w,
    In (Asked (Fetch ttsUrl (SpeechRequest apology)))
       (trace (run e (speakText r apology) w)).
Proof.
  intros e w. unfold speakText.
  change (negb (nonEmpty apology) || (length (trim apology) =? 0)) with false.
  cbv iota. unfold log. apply in_bind_safe; [safe|]. intros w1.
  rewrite run_tryCatch. apply in_orElse_first.
  apply in_bind_safe; [safe|]. intros w2.
  simpl. left. reflexivity.
Qed.

Section WithHost.
Variable toLowerCase : jsstring -> jsstring.
Variable apiUrl : option jsstring.

Lemma safe_handleLiveChatMessage r msg :
  Safe (handleLiveChatMessage toLowerCase apiUrl r msg).
Proof.
  unfold handleLiveChatMessage.
  apply Safe_bind; [safe|intros _].
  apply Safe_bind; [apply safe_stop|intros _].
  apply Safe_bind; [safe|intros _].
  destruct (negb (nonEmpty (trim msg)) || isProcessingVoice r); [unfold log; safe|].
  apply Safe_bind; [safe|intros _].
  apply Safe_bind; [unfold log; safe|intros _].
  apply Safe_tryFinally.
  - apply Safe_tryCatch. intros x.
    apply Safe_bind; [unfold logError; safe|intros _].
    apply Safe_bind; [apply safe_stop|intros _].
    apply safe_speakText.
  - apply Safe_bind; [unfold log; safe|intros _].
    apply Safe_bind; [apply safe_stop|intros _].
    safe.
Qed.

(** The [finally] block leaves both flags false. *)
Lemma flags_cleared r msg e w :
  nonEmpty (trim msg) = true -> isProcessingVoice r = false ->
  let o := run e (handleLiveChatMessage toLowerCase apiUrl r msg) w in
  isProcessingVoice (state (final o)) = false /\
  isPlayingResponse (state (final o)) = false.
Proof.
  intros Hm Hp. cbv zeta. unfold handleLiveChatMessage.
  rewrite Hm, Hp. cbn [negb orb].
  do 2 match goal with
       | |- context [run e (bind ?p ?f) ?w0] =>
           let Hs := fresh in
           assert (Hs : Safe p) by (first [apply safe_stop | safe]);
           destruct (run_bind_safe e p f w0 Hs) as (? & ? & -> & _ & _);
           clear Hs
       end.
  cbn [perform log bind run after final].
  match goal with
  | |- context [run e (tryFinally ?p ?f) ?w0] =>
      destruct (final_tryFinally e p f w0) as [w3 ->]
  end.
  unfold log, stopContinuousThinking.
  destruct (thinkingAudio r); simpl; auto.
Qed.

Lemma sendMessage_fails e url sid msg w :
  backendFails e url -> nonEmpty url = true ->
  exists x, result (run e (sendMessage (Some url) sid msg) w) = inl x.
Proof.
  intros Hb Hu. unfold sendMessage. rewrite Hu. cbn [negb].
  rewrite run_tryCatch. unfold orElse.
  match goal with
  | |- context [result (run e ?p w)] =>
      assert (Hin : exists x, result (run e p w) = inl x)
  end.
  { specialize (Hb sid (js "sendMessage") msg w).
    unfold await. cbn [bind run after result].
    destruct (fst (e _ (Fetch url (ChatMessage sid (js "sendMessage") msg)) w))
      as [x|response]; [simpl; eauto|].
    cbn [bind].
    destruct (ok response) eqn:Hok; cbn [negb]; [|simpl; eauto].
    destruct Hb as [Hb|Hb]; [discriminate|].
    cbn [bind run after result].
    match goal with
    | |- context [e _ (ResponseJson response) ?w0] => specialize (Hb w0);
        destruct (fst (e _ (ResponseJson response) w0)) as [x|data]
    end; [simpl; eauto|].
    cbn [bind].
    destruct (getOutput data) as [output|] eqn:Ho; [|simpl; eauto].
    destruct (truthy data && typeofObject data && truthy output) eqn:Ht;
      [|simpl; eauto].
    exfalso. apply Hb.
    apply andb_true_iff in Ht. destruct Ht as [Ht Ht3].
    apply andb_true_iff in Ht. destruct Ht as [Ht1 Ht2].
    repeat split; eauto. }
  destruct Hin as [x ->]. unfold logError. simpl. eauto.
Qed.

Lemma safe_acknowledge r msg :
  Safe (when (negb (isSimpleGreeting toLowerCase msg))
             (x <- ask MathRandom ;;
              let randomThinking := pick x thinkingMessages in
              log "Playing thinking message:" ;;
              tryCatch (speakText r randomThinking)
                       (fun err => log "Thinking voice failed:") ;;
              startContinuousThinking r)).
Proof.
  apply Safe_when. apply Safe_bind; [safe|intros x]. cbv zeta.
  apply Safe_bind; [unfold log; safe|intros _].
  apply Safe_bind; [apply Safe_tryCatch; intros; unfold log; safe|intros _].
  apply safe_playRandomThinkingSound.
Qed.

(** When the request to the assistant fails, the apology is sent to
    the synthesiser. *)
Lemma apology_requested r msg e w url :
  nonEmpty (trim msg) = true -> isProcessingVoice r = false ->
  nonEmpty url = true -> backendFails e url ->
  In (Asked (Fetch ttsUrl (SpeechRequest apology)))
     (trace (run e (handleLiveChatMessage toLowerCase (Some url) r msg) w)).
Proof.
  intros Hm Hp Hu Hb. unfold handleLiveChatMessage.
  rewrite Hm, Hp. cbn [negb orb].
  apply in_bind_safe; [safe|]. intros w1.
  apply in_bind_safe; [apply safe_stop|]. intros w2.
  apply in_bind_safe; [safe|]. intros w3.
  apply in_bind_safe; [safe|]. intros w4.
  apply in_bind_safe; [unfold log; safe|]. intros w5.
  apply in_tryFinally. rewrite run_tryCatch.
  match goal with
  | |- In _ (trace (orElse (run e ?body w5) _)) =>
      assert (Hthrow : exists x, result (run e body w5) = inl x)
  end.
  { match goal with
    | |- context [run e (bind ?p ?f) w5] =>
        destruct (run_bind_safe e p f w5 (safe_acknowledge r msg))
          as (w6 & _ & _ & _ & ->)
    end.
    match goal with
    | |- context [run e (bind (log ?m) ?f) w6] =>
        destruct (run_bind_safe e (log m) f w6) as (w7 & _ & _ & _ & ->);
        [unfold log; safe|]
    end.
    rewrite run_bind.
    destruct (sendMessage_fails e url (sessionId r) msg w7 Hb Hu) as [x Hx].
    exists x. apply result_andThen_throw. exact Hx. }
  destruct Hthrow as [x Hx].
  apply (in_orElse_handler _ _ x); [exact Hx|].
  apply in_bind_safe; [unfold logError; safe|]. intros w8.
  apply in_bind_safe; [apply safe_stop|]. intros w9.
  apply apology_spoken.
Qed.

End WithHost.

End CompletionFacts.

(* ================================================================== *)
(** ** Facts on what a trace holds *)

Module CollectFacts.
Import ProcFacts TurnFacts CompletionFacts.

Lemma collect_app {B} (sel : entry -> option B) a b :
  collect sel (a ++ b) = collect sel a ++ collect sel b.
Proof. unfold collect. apply flat_map_app. Qed.

Lemma collect_none {B} (sel : entry -> option B) tr :
  Forall (fun en => sel en = None) tr -> collect sel tr = [].
Proof.
  induction 1 as [|en tr H _ IH]; [reflexivity|].
  unfold collect in *. simpl. rewrite H, IH. reflexivity.
Qed.

Lemma collect_every {A B} (sel : entry -> option B) (p : Proc A) e w :
  Every (fun en => sel en = None) p -> collect sel (trace (run e p w)) = [].
Proof. intros H. apply collect_none. apply (Every_run _ _ H). Qed.

Lemma trace_bind {A B} e (p : Proc A) (f : A -> Proc B) w :
  trace (run e (bind p f) w)
  = trace (run e p w)
    ++ match result (run e p w) with
       | inr a => trace (run e (f a) (final (run e p w)))
       | inl _ => []
       end.
Proof.
  rewrite run_bind. unfold andThen.
  destruct (result (run e p w)); simpl; [rewrite app_nil_r|]; reflexivity.
Qed.

Lemma trace_tryCatch {A} e (p : Proc A) h w :
  trace (run e (tryCatch p h) w)
  = trace (run e p w)
    ++ match result (run e p w) with
       | inl x => trace (run e (h x) (final (run e p w)))
       | inr _ => []
       end.
Proof.
  rewrite run_tryCatch. unfold orElse.
  destruct (result (run e p w)); simpl; [|rewrite app_nil_r]; reflexivity.
Qed.

Lemma run_protect {A} e (p : Proc A) : forall w,
  final (run e (tryCatch (bind p (fun a => Ret (inr a)))
                         (fun x => Ret (inl x : exn + A))) w)
  = final (run e p w) /\
  trace (run e (tryCatch (bind p (fun a => Ret (inr a)))
                         (fun x => Ret (inl x : exn + A))) w)
  = trace (run e p w) /\
  exists v, result (run e (tryCatch (bind p (fun a => Ret (inr a)))
                                    (fun x => Ret (inl x : exn + A))) w) = inr v.
Proof.
  induction p as [a|x|a k IH|X q k IH]; intros w; simpl.
  - eauto.
  - eauto.
  - destruct (IH (apply a w)) as (F & T & v & R).
    rewrite F, T. eauto.
  - destruct (IH (fst (e X q w)) (snd (e X q w))) as (F & T & v & R).
    rewrite F, T. eauto.
Qed.

Lemma trace_tryFinally {A} e (p : Proc A) f w :
  trace (run e (tryFinally p f) w)
  = trace (run e p w) ++ trace (run e f (final (run e p w))).
Proof.
  unfold tryFinally. rewrite trace_bind.
  destruct (run_protect e p w) as (F & T & v & R).
  rewrite T, R, F. f_equal.
  rewrite trace_bind.
  destruct (result (run e f (final (run e p w)))) as [x|[]].
  - apply app_nil_r.
  - destruct v; simpl; apply app_nil_r.
Qed.

(** Code that cannot throw and gives nothing under [sel] can be passed
    over. *)
Lemma collect_bind_safe {B C} (sel : entry -> option C) e
      (p : Proc unit) (f : unit -> Proc B) w :
  Safe p -> Every (fun en => sel en = None) p ->
  exists w', collect sel (trace (run e (bind p f) w))
             = collect sel (trace (run e (f tt) w')).
Proof.
  intros Hs He. rewrite trace_bind, collect_app, (collect_every sel p e w He).
  destruct (Safe_run p Hs e w) as [[] ->].
  exists (final (run e p w)). reflexivity.
Qed.

Lemma collect_bind_rest {A B C} (sel : entry -> option C) e
      (p : Proc A) (f : A -> Proc B) w :
  (forall a, Every (fun en => sel en = None) (f a)) ->
  collect sel (trace (run e (bind p f) w)) = collect sel (trace (run e p w)).
Proof.
  intros He. rewrite trace_bind, collect_app.
  destruct (result (run e p w)) as [x|a]; simpl.
  - apply app_nil_r.
  - rewrite (collect_every sel (f a) e _ (He a)). apply app_nil_r.
Qed.

Lemma collect_tryCatch {A C} (sel : entry -> option C) e (p : Proc A) h w :
  (forall x, Every (fun en => sel en = None) (h x)) ->
  collect sel (trace (run e (tryCatch p h) w)) = collect sel (trace (run e p w)).
Proof.
  intros He. rewrite trace_tryCatch, collect_app.
  destruct (result (run e p w)) as [x|a]; simpl.
  - rewrite (collect_every sel (h x) e _ (He x)). apply app_nil_r.
  - apply app_nil_r.
Qed.

Lemma collect_tryFinally {A C} (sel : entry -> option C) e (p : Proc A) f w :
  Every (fun en => sel en = None) f ->
  collect sel (trace (run e (tryFinally p f) w)) = collect sel (trace (run e p w)).
Proof.
  intros He. rewrite trace_tryFinally, collect_app.
  rewrite (collect_every sel f e _ He). apply app_nil_r.
Qed.

Ltac none := every_with ltac:(reflexivity).

Ltac pass e :=
  match goal with
  | |- context [run e (bind ?p ?f) ?w0] =>
      let w' := fresh "w" in
      let E := fresh in
      match goal with
      | |- context [collect ?sel (trace (run e (bind p f) w0))] =>
          destruct (collect_bind_safe sel e p f w0) as [w' E];
          [ first [apply safe_stop | apply safe_speakText | safe]
          | none
          | rewrite E; clear E ]
      end
  end.

End CollectFacts.

(* ================================================================== *)
(** ** Facts on what the turn asks and says *)

Module RequestFacts.
Import StringFacts ProcFacts TurnFacts CompletionFacts CollectFacts.

Lemma speechRequests_collect tr : speechRequests tr = collect speechOf tr.
Proof.
  induction tr as [|en tr IH]; [reflexivity|].
  unfold collect, speechOf in *. simpl. rewrite IH.
  destruct (fetched en) as [[u [s a i|t]]|]; reflexivity.
Qed.

(** Code that cannot throw hands over to what follows it. *)
Lemma bind_safe {B} e (p : Proc unit) (f : unit -> Proc B) w :
  Safe p ->
  run e (bind p f) w
  = {| final := final (run e (f tt) (final (run e p w)));
       trace := trace (run e p w) ++ trace (run e (f tt) (final (run e p w)));
       result := result (run e (f tt) (final (run e p w))) |}.
Proof.
  intros Hs. rewrite run_bind. unfold andThen.
  destruct (Safe_run p Hs e w) as [[] ->]. reflexivity.
Qed.

(** speakText asks the synthesiser once, for its text, unless it refuses
    the text. *)
Lemma speech_speakText r text e w :
  collect speechOf (trace (run e (speakText r text) w))
  = if unspeakable text then [] else [text].
Proof.
  unfold speakText. fold (unspeakable text).
  destruct (unspeakable text); [reflexivity|].
  unfold log at 1. pass e.
  rewrite collect_tryCatch by (intros x; unfold logError; none).
  pass e.
  rewrite collect_bind_rest.
  - unfold await. simpl.
    destruct (fst (e _ (Fetch ttsUrl (SpeechRequest text)) _)); reflexivity.
  - intros response. unfold log, logError. none.
Qed.

Lemma speech_apology r e w :
  collect speechOf (trace (run e (speakText r apology) w)) = [apology].
Proof. rewrite speech_speakText. reflexivity. Qed.

Lemma chat_sendMessage url sid msg e w :
  nonEmpty url = true ->
  collect chatOf (trace (run e (sendMessage (Some url) sid msg) w))
  = [(url, ChatMessage sid (js "sendMessage") msg)].
Proof.
  intros Hu. unfold sendMessage, await, logError. rewrite Hu. simpl.
  destruct (fst (e _ (Fetch url (ChatMessage sid (js "sendMessage") msg)) w))
    as [x|response]; simpl; [reflexivity|].
  destruct (ok response); simpl; [|reflexivity].
  match goal with
  | |- context [fst (e _ (ResponseJson response) ?w0)] =>
      destruct (fst (e _ (ResponseJson response) w0)) as [x|data]
  end; simpl; [reflexivity|].
  destruct (getOutput data) as [output|]; simpl; [|reflexivity].
  destruct (truthy data && typeofObject data && truthy output); reflexivity.
Qed.

Section WithHost.
Variable toLowerCase : jsstring -> jsstring.
Variable apiUrl : option jsstring.

(** A turn past its guard asks the assistant once. *)
Lemma chat_turn url r msg e w :
  nonEmpty (trim msg) = true -> isProcessingVoice r = false -> nonEmpty url = true ->
  collect chatOf (trace (run e (handleLiveChatMessage toLowerCase (Some url) r msg) w))
  = [(url, ChatMessage (sessionId r) (js "sendMessage") msg)].
Proof.
  intros Hm Hp Hu. unfold handleLiveChatMessage.
  rewrite Hm, Hp. cbn [negb orb].
  pass e. pass e. pass e. pass e.
  unfold log at 1. pass e.
  rewrite collect_tryFinally by (unfold log, stopContinuousThinking; none).
  rewrite collect_tryCatch
    by (intros x; unfold logError, stopContinuousThinking, speakText, log; none).
  match goal with
  | |- context [run e (bind ?p ?f) ?w0] =>
      destruct (collect_bind_safe chatOf e p f w0) as [w6 E];
      [ apply (safe_acknowledge toLowerCase r msg)
      | unfold startContinuousThinking, playRandomThinkingSound, speakText, log, logError;
        none
      | rewrite E; clear E ]
  end.
  unfold log at 1. pass e.
  rewrite collect_bind_rest.
  - apply chat_sendMessage. exact Hu.
  - intros response.
    unfold log, logError, stopContinuousThinking, filterUrlsFromValue, speakText. none.
Qed.

(** The debounce callback asks the assistant once, with the trimmed
    snapshot, when that has more than two code units, and not at all
    otherwise. *)
Lemma chat_timeout url r e w :
  isProcessingVoice r = false -> nonEmpty url = true ->
  collect chatOf (trace (run e (liveChatTimeout toLowerCase (Some url) r) w))
  = if 2 <? length (trim (transcript r))
    then [(url, ChatMessage (sessionId r) (js "sendMessage") (trim (transcript r)))]
    else [].
Proof.
  intros Hp Hu. unfold liveChatTimeout. cbv zeta.
  destruct (2 <? length (trim (transcript r))) eqn:L.
  - assert (N : nonEmpty (trim (transcript r)) = true).
    { apply Nat.ltb_lt in L. destruct (trim (transcript r)); [simpl in L; lia|reflexivity]. }
    rewrite N. cbn [andb when].
    unfold log at 1. pass e. unfold log at 1. pass e.
    rewrite collect_bind_rest by (intros; unfold resetTranscript, log; none).
    apply chat_turn; [|exact Hp|exact Hu].
    rewrite trim_trim. exact N.
  - rewrite andb_false_r. cbn [when].
    apply collect_every. unfold log. none.
Qed.

(** What the acknowledgment says: nothing for a greeting, else the phrase
    the random number picks, if it picks one. *)
Lemma speech_acknowledge r msg e w :
  isProcessingVoice r = false ->
  let ack :=
    collect speechOf
      (trace (run e (when (negb (isSimpleGreeting toLowerCase msg))
                          (x <- ask MathRandom ;;
                           let randomThinking := pick x thinkingMessages in
                           log "Playing thinking message:" ;;
                           tryCatch (speakText r randomThinking)
                                    (fun err => log "Thinking voice failed:") ;;
                           startContinuousThinking r)) w)) in
  (ack = [] \/ exists m, In m thinkingMessages /\ ack = [m]) /\
  (isSimpleGreeting toLowerCase msg = true -> ack = []).
Proof.
  intros Hp. cbv zeta.
  destruct (isSimpleGreeting toLowerCase msg); cbn [negb when].
  { split; [left; reflexivity | reflexivity]. }
  split; [|discriminate].
  match goal with |- ?a = [] \/ _ => set (ack := a) end.
  assert (E : ack = if unspeakable (pick (fst (e Q MathRandom w)) thinkingMessages)
                    then [] else [pick (fst (e Q MathRandom w)) thinkingMessages]).
  { unfold ack, ask. cbn [bind run after trace].
    change (collect speechOf (Asked MathRandom :: ?t))
      with (collect speechOf t).
    cbv zeta. unfold log at 1. pass e.
    rewrite trace_bind, collect_app.
    rewrite collect_tryCatch by (intros err; unfold log; none).
    rewrite speech_speakText.
    unfold startContinuousThinking. rewrite (playRandomThinkingSound_idle r Hp).
    match goal with
    | |- context [match result ?o with _ => _ end] => destruct (result o)
    end; apply app_nil_r. }
  rewrite E. clear E ack. unfold pick.
  destruct (nth_in_or_default (floorIndex (fst (e Q MathRandom w))
                                 (length thinkingMessages)) thinkingMessages [])
    as [Hin|Hd].
  - destruct (unspeakable _); [left; reflexivity|].
    right. eexists. split; [exact Hin | reflexivity].
  - rewrite Hd. left. reflexivity.
Qed.

Ltac over e lemma :=
  match goal with
  | |- context [run e (bind ?p ?f) ?w0] =>
      rewrite (bind_safe e p f w0) by lemma;
      cbn [trace result final]; rewrite ?collect_app
  end.

(** What a turn says: the acknowledgment, then the filtered reply when
    the assistant gave a string, and the apology in every other case. *)
Lemma speech_turn r msg e w :
  nonEmpty (trim msg) = true -> isProcessingVoice r = false ->
  exists w' ack,
    collect speechOf
      (trace (run e (handleLiveChatMessage toLowerCase apiUrl r msg) w))
    = ack ++ match result (run e (sendMessage apiUrl (sessionId r) msg) w') with
             | inr (JString reply) =>
                 if unspeakable (filterUrlsFromText reply) then []
                 else [filterUrlsFromText reply]
             | _ => [apology]
             end /\
    (ack = [] \/ exists m, In m thinkingMessages /\ ack = [m]) /\
    (isSimpleGreeting toLowerCase msg = true -> ack = []).
Proof.
  intros Hm Hp. unfold handleLiveChatMessage.
  rewrite Hm, Hp. cbn [negb orb].
  pass e. pass e. pass e. pass e.
  unfold log at 1. pass e.
  rewrite collect_tryFinally by (unfold log, stopContinuousThinking; none).
  rewrite trace_tryCatch, collect_app.
  over e ltac:(apply (safe_acknowledge toLowerCase r msg)).
  unfold log at 2. over e ltac:(safe).
  match goal with
  | |- context [run e (bind (sendMessage _ _ _) _) ?w0] => exists w0
  end.
  match goal with
  | |- context [collect speechOf (trace (run e (when ?b ?p) ?w0))] =>
      exists (collect speechOf (trace (run e (when b p) w0)));
      pose proof (speech_acknowledge r msg e w0 Hp) as Hack; cbv zeta in Hack
  end.
  split; [|exact Hack]. clear Hack.
  rewrite <- app_assoc. f_equal. cbn [perform run after trace collect flat_map speechOf fetched app].
  assert (A : forall v,
             collect speechOf
               (trace (run e (logError "Error in live chat:" ;;
                              stopContinuousThinking r ;;
                              speakText r apology) v)) = [apology]).
  { intros v. unfold logError at 1. pass e. pass e. apply speech_apology. }
  rewrite run_bind. unfold andThen.
  destruct (result (run e (sendMessage apiUrl (sessionId r) msg) _))
    as [x|response]; cbn [trace result final app].
  { rewrite (collect_every speechOf (sendMessage apiUrl (sessionId r) msg))
      by (unfold sendMessage, logError; none).
    apply A. }
  rewrite collect_app.
  rewrite (collect_every speechOf (sendMessage apiUrl (sessionId r) msg))
    by (unfold sendMessage, logError; none).
  cbn [app].
  unfold log at 1. over e ltac:(safe).
  over e ltac:(apply safe_stop).
  over e ltac:(safe).
  over e ltac:(safe).
  over e ltac:(safe).
  rewrite !(collect_every speechOf) by (unfold stopContinuousThinking; none).
  cbn [app].
  destruct response as [|b|q|reply|items|fields];
    cbn [filterUrlsFromValue bind run trace result final collect flat_map app];
    try apply A.
  unfold log. over e ltac:(safe).
  cbn [perform run after trace collect flat_map speechOf fetched app].
  match goal with
  | |- context [result (run e (speakText r ?t) ?v)] =>
      destruct (Safe_run _ (safe_speakText r t) e v) as [[] Hr]; rewrite Hr
  end.
  rewrite speech_speakText. apply app_nil_r.
Qed.

End WithHost.

End RequestFacts.

(* ================================================================== *)
(** ** Facts on the debounce *)

Module DebounceFacts.

Lemma disarm_single id d cb : disarm id [(id, (d, cb))] = [].
Proof. unfold disarm. simpl. rewrite Nat.eqb_refl. reflexivity. Qed.

Lemma sameDeps_refl d : sameDeps d d = true.
Proof.
  destruct d as [[[t l] p] q]. simpl.
  replace (eqb t t) with true by (symmetry; apply eqb_true; reflexivity).
  destruct l, p, q; reflexivity.
Qed.

Lemma sameDeps_transcript t1 t2 l p q l' p' q' :
  t1 <> t2 -> sameDeps (t1, l, p, q) (t2, l', p', q') = false.
Proof. intros H. simpl. apply eqb_false in H. rewrite H. reflexivity. Qed.

Lemma commit_tidy n m : tidy m -> timers (world (commit (browser n) m)) = [] \/
    exists id d cb, timers (world (commit (browser n) m)) = [(id, (d, cb))] /\
                    cleanup (commit (browser n) m) = Some id.
Proof.
  intros T. unfold commit.
  destruct (match lastDeps m with
            | Some d => sameDeps d (liveChatDeps (state (world m)))
            | None => false
            end); [exact T|].
  assert (E : timers (match cleanup m with
                      | Some t => apply (ClearTimeout t) (world m)
                      | None => world m
                      end) = []).
  { destruct T as [E|(id & d & cb & E & ->)].
    - destruct (cleanup m); simpl; rewrite ?E; reflexivity.
    - simpl. rewrite E. apply disarm_single. }
  set (w1 := match cleanup m with
             | Some t => apply (ClearTimeout t) (world m)
             | None => world m
             end) in *.
  unfold liveChatEffect.
  destruct (isLiveChatMode (state (world m)) && nonEmpty (transcript (state (world m)))
            && negb (isProcessingVoice (state (world m)))
            && negb (isPlayingResponse (state (world m)))); simpl.
  - right. rewrite E. simpl. eauto.
  - left. exact E.
Qed.

Lemma handle_tidy n m ev : tidy m -> tidy (handle (browser n) m ev).
Proof.
  intros T. destruct ev as [t s|t id]; cbn [handle].
  - apply commit_tidy. exact T.
  - destruct (find (due t id) (timers (world m))) as [[id' [d cb]]|] eqn:F.
    + left. simpl. destruct T as [E|(id0 & d0 & cb0 & E & _)]; rewrite E in *.
      * discriminate.
      * simpl in F. destruct (due t id (id0, (d0, cb0))) eqn:D; [|discriminate].
        unfold due in D. simpl in D. apply andb_true_iff in D. destruct D as [D _].
        apply Nat.eqb_eq in D. subst id0. apply disarm_single.
    + exact T.
Qed.

Lemma handleAll_tidy n evs : forall m, tidy m -> tidy (handleAll (browser n) m evs).
Proof.
  induction evs as [|ev evs IH]; intros m T; simpl; [exact T|].
  apply IH, handle_tidy, T.
Qed.

Lemma tidy_length m : tidy m -> length (timers (world m)) <= 1.
Proof. intros [->|(id & d & cb & -> & _)]; simpl; lia. Qed.

Lemma commit_rerun e m :
  match lastDeps m with
  | Some d => sameDeps d (liveChatDeps (state (world m)))
  | None => false
  end = false ->
  commit e m =
  let w1 := match cleanup m with
            | Some t => apply (ClearTimeout t) (world m)
            | None => world m
            end in
  let o := run e (liveChatEffect (state (world m))) w1 in
  {| world := final o;
     lastDeps := Some (liveChatDeps (state (world m)));
     cleanup := match result o with inr c => c | inl _ => None end;
     started := started m |}.
Proof. unfold commit. intros ->. reflexivity. Qed.

(** An update re-arms the timer for 1500 ms from now, on the new text. *)
Lemma update_rearms n m last heard t s :
  steady m heard -> pending m last heard -> s <> heard ->
  steady (handle (browser n) m (TranscriptUpdate t s)) s /\
  pending (handle (browser n) m (TranscriptUpdate t s)) (Some t) s.
Proof.
  intros (Hl & Hp & Hq & Ht & Hd & Hs) P Hne.
  cbn [handle]. rewrite commit_rerun.
  2:{ cbn [lastDeps world state withState withClock]. rewrite Hd.
      unfold liveChatDeps. cbn [transcript setTranscript isLiveChatMode
        isProcessingVoice isPlayingResponse]. rewrite Ht.
      apply sameDeps_transcript. congruence. }
  cbn [lastDeps world state withState withClock cleanup started].
  assert (E : timers (match cleanup m with
                      | Some t1 => apply (ClearTimeout t1)
                                     (withState (setTranscript s) (withClock t (world m)))
                      | None => withState (setTranscript s) (withClock t (world m))
                      end) = []).
  { destruct P as [(E & -> & _)|(id & t1 & r & _ & E & -> & _)]; simpl; rewrite E.
    - reflexivity.
    - apply disarm_single. }
  assert (C : clock (match cleanup m with
                     | Some t1 => apply (ClearTimeout t1)
                                    (withState (setTranscript s) (withClock t (world m)))
                     | None => withState (setTranscript s) (withClock t (world m))
                     end) = t) by (destruct (cleanup m); reflexivity).
  assert (S : state (match cleanup m with
                     | Some t1 => apply (ClearTimeout t1)
                                    (withState (setTranscript s) (withClock t (world m)))
                     | None => withState (setTranscript s) (withClock t (world m))
                     end) = setTranscript s (state (world m)))
    by (destruct (cleanup m); reflexivity).
  set (w1 := match cleanup m with
             | Some t1 => apply (ClearTimeout t1)
                            (withState (setTranscript s) (withClock t (world m)))
             | None => withState (setTranscript s) (withClock t (world m))
             end) in *.
  cbv zeta. unfold liveChatEffect. cbn [transcript setTranscript
    isLiveChatMode isProcessingVoice isPlayingResponse].
  rewrite Hl, Hp, Hq. cbn [andb negb]. rewrite !andb_true_r.
  destruct s as [|c s]; cbn [nonEmpty].
  - unfold steady, pending. simpl. rewrite S. simpl.
    repeat split; auto.
  - unfold steady, pending. simpl. rewrite S, E, C. simpl.
    repeat split; auto.
    right. eexists _, t, _. repeat split; reflexivity.
Qed.

(** A timer looked at before it is due stays armed. *)
Lemma early_timer n m last heard t id :
  steady m heard -> pending m last heard ->
  (forall t0, last = Some t0 -> (t < t0 + 1500)%Z) ->
  steady (handle (browser n) m (TimerDue t id)) heard /\
  pending (handle (browser n) m (TimerDue t id)) last heard.
Proof.
  intros S P Hearly. cbn [handle].
  assert (F : find (due t id) (timers (world m)) = None).
  { destruct P as [(E & _)|(id0 & t0 & r & L & E & _)]; rewrite E; [reflexivity|].
    simpl. unfold due. simpl. specialize (Hearly t0 L).
    replace (t0 + 1500 <=? t)%Z with false by (symmetry; apply Z.leb_gt; lia).
    rewrite andb_false_r. reflexivity. }
  rewrite F. split; [exact S | exact P].
Qed.

Lemma closes_app burst t s : closes (burst ++ [TranscriptUpdate t s]).
Proof.
  induction burst as [|ev burst IH]; simpl; [exact I|].
  destruct (burst ++ [TranscriptUpdate t s]) eqn:E.
  - destruct burst; discriminate.
  - destruct ev; exact IH.
Qed.

(** A timer looked at inside the burst is looked at before the window of
    the last update has passed. *)
Lemma inside_burst rest : forall t id t0 heard,
  closes (TimerDue t id :: rest) -> chained t rest -> rapid (Some t0) heard rest ->
  (t < t0 + 1500)%Z.
Proof.
  induction rest as [|ev rest IH]; intros t id t0 heard C Ch R.
  - contradiction.
  - destruct ev as [t' s|t' id'].
    + simpl in Ch, R. lia.
    + simpl in Ch, R. destruct Ch as [Hle Ch].
      assert (t' < t0 + 1500)%Z; [|lia].
      apply (IH t' id' t0 heard); auto.
Qed.

(** Through a burst nothing fires, and the armed timer follows the
    updates. *)
Lemma through_burst n evs : forall m last heard now,
  steady m heard -> pending m last heard ->
  closes evs -> chained now evs -> rapid last heard evs ->
  steady (handleAll (browser n) m evs) (lastHeard heard evs) /\
  pending (handleAll (browser n) m evs) (lastTime last evs) (lastHeard heard evs).
Proof.
  induction evs as [|ev evs IH]; intros m last heard now S P C Ch R.
  - simpl. auto.
  - destruct ev as [t s|t id].
    + simpl in R, Ch. destruct R as (_ & Hne & R). destruct Ch as [_ Ch].
      destruct (update_rearms n m last heard t s S P Hne) as [S' P'].
      assert (C' : closes evs) by (destruct evs; [exact I | exact C]).
      exact (IH _ _ _ _ S' P' C' Ch R).
    + simpl in R, Ch. destruct Ch as [_ Ch].
      assert (Hearly : forall t0, last = Some t0 -> (t < t0 + 1500)%Z).
      { intros t0 ->. exact (inside_burst evs t id t0 heard C Ch R). }
      destruct (early_timer n m last heard t id S P Hearly) as [S' P'].
      assert (C' : closes evs).
      { destruct evs as [|ev' evs']; [contradiction | exact C]. }
      exact (IH _ _ _ _ S' P' C' Ch R).
Qed.

Lemma lastTime_app last burst t s :
  lastTime last (burst ++ [TranscriptUpdate t s]) = Some t.
Proof. unfold lastTime. rewrite fold_left_app. reflexivity. Qed.

Lemma lastHeard_app heard burst t s :
  lastHeard heard (burst ++ [TranscriptUpdate t s]) = s.
Proof. unfold lastHeard. rewrite fold_left_app. reflexivity. Qed.

Lemma settled_timer n m tn sn t id :
  settled m tn sn -> settled (handle (browser n) m (TimerDue t id)) tn sn.
Proof.
  intros [(Hs & [E|(id0 & r & E & Hr)])|(E & t1 & r & Hs & Ht & Hr)];
    cbn [handle]; rewrite E.
  - simpl. left. simpl. auto.
  - simpl. destruct (due t id (id0, ((tn + 1500)%Z, LiveChatTimeout r))) eqn:D.
    + right. simpl. rewrite E, Hs.
      unfold due in D. simpl in D. apply andb_true_iff in D. destruct D as [D1 D2].
      apply Nat.eqb_eq in D1. subst id0. apply Z.leb_le in D2.
      split; [apply disarm_single|]. exists t, r. simpl. auto.
    + left. simpl. split; [exact Hs|]. right. eauto.
  - simpl. right. simpl. split; [exact E|]. eauto.
Qed.

Lemma settled_later n later : forall m tn sn,
  Forall isTimerDue later -> settled m tn sn ->
  settled (handleAll (browser n) m later) tn sn.
Proof.
  induction later as [|ev later IH]; intros m tn sn F S; simpl; [exact S|].
  inversion F as [|? ? Hev F']; subst.
  destruct ev as [t s|t id]; [contradiction|].
  apply IH; [exact F'|]. apply settled_timer. exact S.
Qed.

Lemma in_disarm x id l : In x (disarm id l) -> In x l.
Proof. unfold disarm. intros H. apply filter_In in H. tauto. Qed.

Lemma waited_weaken (O O' : Z -> Render -> Prop) m :
  (forall t r, O t r -> O' t r) -> waited O m -> waited O' m.
Proof.
  intros H [A B]. split.
  - intros id d cb K. destruct (A id d cb K) as (t0 & r & ? & ? & ? & ?).
    exists t0, r. auto.
  - intros t cb K. destruct (B t cb K) as (t0 & r & ? & ? & ? & ?).
    exists t0, r. auto.
Qed.

Lemma commit_waited n (O : Z -> Render -> Prop) m :
  waited O m ->
  (eligible (state (world m)) = true -> O (clock (world m)) (state (world m))) ->
  waited O (commit (browser n) m).
Proof.
  intros [A B] H. unfold commit.
  destruct (match lastDeps m with
            | Some d => sameDeps d (liveChatDeps (state (world m)))
            | None => false
            end); [split; assumption|].
  set (w1 := match cleanup m with
             | Some t => apply (ClearTimeout t) (world m)
             | None => world m
             end).
  assert (T : forall x, In x (timers w1) -> In x (timers (world m))).
  { unfold w1. destruct (cleanup m); simpl; [|auto]. intros x. apply in_disarm. }
  assert (C : clock w1 = clock (world m)).
  { unfold w1. destruct (cleanup m); reflexivity. }
  unfold liveChatEffect. fold (eligible (state (world m))).
  destruct (eligible (state (world m))) eqn:El; simpl.
  - split; [|exact B].
    intros id d cb K. apply in_app_or in K. destruct K as [K|[K|[]]].
    + apply (A id d cb). apply T. exact K.
    + injection K as <- <- <-. exists (clock (world m)), (state (world m)).
      rewrite C. auto.
  - split; [|exact B]. intros id d cb K. apply (A id d cb). apply T. exact K.
Qed.

Lemma handle_waited n (O : Z -> Render -> Prop) m ev :
  waited O m ->
  waited (fun t0 r => O t0 r \/ ev = TranscriptUpdate t0 (transcript r))
         (handle (browser n) m ev).
Proof.
  intros W. destruct ev as [t s|t id]; cbn [handle].
  - apply commit_waited.
    + apply (waited_weaken O); [auto|]. destruct W as [A B]. split; assumption.
    + intros _. right. reflexivity.
  - apply (waited_weaken O); [auto|]. destruct W as [A B].
    destruct (find (due t id) (timers (world m))) as [[id' [d cb]]|] eqn:F.
    + apply find_some in F. destruct F as [F D].
      unfold due in D. simpl in D. apply andb_true_iff in D. destruct D as [_ D].
      apply Z.leb_le in D.
      split; simpl.
      * intros i d' cb' K. apply in_disarm in K. exact (A i d' cb' K).
      * intros t' cb' K. apply in_app_or in K. destruct K as [K|[K|[]]].
        -- exact (B t' cb' K).
        -- injection K as <- <-.
           destruct (A id' d cb F) as (t0 & r & ? & ? & ? & ?).
           exists t0, r. repeat split; auto. lia.
    + split; assumption.
Qed.

Lemma handleAll_waited n evs : forall (O : Z -> Render -> Prop) m,
  waited O m ->
  waited (fun t0 r => O t0 r \/ In (TranscriptUpdate t0 (transcript r)) evs)
         (handleAll (browser n) m evs).
Proof.
  induction evs as [|ev evs IH]; intros O m W.
  - apply (waited_weaken O); [auto|exact W].
  - unfold handleAll. simpl. fold (handleAll (browser n) (handle (browser n) m ev) evs).
    eapply waited_weaken; [|apply IH; apply handle_waited; exact W].
    intros t r [[H|H]|H]; simpl; auto.
Qed.

(** With no timer armed, looking at timers starts nothing. *)
Lemma idle_timers n later : forall m,
  Forall isTimerDue later -> timers (world m) = [] ->
  started (handleAll (browser n) m later) = started m /\
  timers (world (handleAll (browser n) m later)) = [].
Proof.
  induction later as [|ev later IH]; intros m F E; [auto|].
  inversion F as [|? ? Hev F']; subst.
  destruct ev as [t s|t id]; [destruct Hev|].
  change (handleAll (browser n) m (TimerDue t id :: later))
    with (handleAll (browser n) (handle (browser n) m (TimerDue t id)) later).
  assert (H : handle (browser n) m (TimerDue t id)
              = {| world := withClock t (world m); lastDeps := lastDeps m;
                   cleanup := cleanup m; started := started m |}).
  { cbn [handle]. rewrite E. reflexivity. }
  rewrite H.
  exact (IH {| world := withClock t (world m); lastDeps := lastDeps m;
               cleanup := cleanup m; started := started m |} F' E).
Qed.

(** The armed timer fires at the first look on or after its time. *)
Lemma later_fires n later : forall m id d cb,
  Forall isTimerDue later ->
  timers (world m) = [(id, (d, cb))] -> started m = [] ->
  (exists t, In (TimerDue t id) later /\ (d <= t)%Z) ->
  exists t', started (handleAll (browser n) m later) = [(t', cb)] /\ (d <= t')%Z.
Proof.
  induction later as [|ev later IH]; intros m id d cb F E S (t0 & Hin & Hd).
  { destruct Hin. }
  inversion F as [|? ? Hev F']; subst.
  destruct ev as [t s|t id']; [destruct Hev|].
  change (handleAll (browser n) m (TimerDue t id' :: later))
    with (handleAll (browser n) (handle (browser n) m (TimerDue t id')) later).
  cbn [handle]. rewrite E. cbn [find]. unfold due. cbn [fst snd].
  destruct ((id =? id') && (d <=? t)%Z) eqn:D.
  - apply andb_true_iff in D. destruct D as [D1 D2].
    apply Nat.eqb_eq in D1. apply Z.leb_le in D2. subst id'.
    match goal with |- context [handleAll (browser n) ?m0 later] =>
      destruct (idle_timers n later m0 F') as [A _]
    end.
    { simpl. rewrite E. apply disarm_single. }
    rewrite A. simpl. rewrite S. exists t. auto.
  - apply (IH _ id d cb F'); [exact E | exact S |].
    destruct Hin as [Hin|Hin]; [|eauto].
    injection Hin as <- <-.
    rewrite Nat.eqb_refl in D. simpl in D. apply Z.leb_gt in D. lia.
Qed.

End DebounceFacts.

(* ================================================================== *)
(** ** The claims *)

Import StringFacts RegexFacts UrlFacts SpaceFacts.

(** C7. The text of the source is the spoken text of the specification,
    and the only one: the reply without its URL-like tokens, with one
    space for each run of white space, trimmed.  No part of it matches the
    URL pattern, and its white space is single spaces between other
    characters.  It is what the turn hands to the synthesiser: after the
    acknowledgment, if there is one, a turn asks for the filtered reply
    when the assistant gave a string - for nothing when the filtered reply
    is empty - and for the apology in every other case. *)
Theorem filterUrlsFromText_clean (reply : jsstring) :
  (forall out, Spoken reply out <-> out = filterUrlsFromText reply) /\
  (forall pre m post,
      filterUrlsFromText reply = pre ++ m ++ post -> ~ lang urlRegex m) /\
  (forall pre c post,
      filterUrlsFromText reply = pre ++ c :: post -> isWhiteSpace c = true ->
      c = 32%N /\
      (exists p d, pre = p ++ [d] /\ isWhiteSpace d = false) /\
      (exists d q, post = d :: q /\ isWhiteSpace d = false)) /\
  (forall toLowerCase apiUrl r msg e w,
      nonEmpty (trim msg) = true -> isProcessingVoice r = false ->
      exists w' ack,
        speechRequests
          (trace (run e (handleLiveChatMessage toLowerCase apiUrl r msg) w))
        = ack ++ match result (run e (sendMessage apiUrl (sessionId r) msg) w') with
                 | inr (JString answer) =>
                     if unspeakable (filterUrlsFromText answer) then []
                     else [filterUrlsFromText answer]
                 | _ => [apology]
                 end /\
        (ack = [] \/ exists m, In m thinkingMessages /\ ack = [m]) /\
        (isSimpleGreeting toLowerCase msg = true -> ack = [])).
Proof.
  split; [intros out; apply SpokenFacts.spoken_filter|].
  assert (T : exists a b, squeeze (strip reply) = a ++ filterUrlsFromText reply ++ b).
  { unfold filterUrlsFromText. fold (strip reply). fold (squeeze (strip reply)).
    apply trim_inside. }
  destruct T as (a & b & T).
  assert (W : wellSpaced (filterUrlsFromText reply)).
  { apply (wellSpaced_inside a _ b). rewrite <- T. apply squeeze_wellSpaced. }
  split; [|split].
  - intros pre m post E Hl. destruct (url_word _ Hl) as [_ Hall].
    rewrite E in T.
    destruct (squeeze_inside (strip reply) (a ++ pre) m (post ++ b) Hall)
      as (pre' & post' & K).
    { rewrite T, <- !app_assoc. reflexivity. }
    exact (strip_clean _ _ _ _ K Hl).
  - intros pre c post E Hc.
    destruct (W pre c post E Hc) as [-> Hstop]. split; [reflexivity|]. split.
    + destruct pre as [|x pre'] eqn:P.
      * simpl in E. unfold filterUrlsFromText in E.
        rewrite (trim_first _ _ _ E) in Hc. discriminate.
      * rewrite <- P in *. assert (Hne : pre <> []) by (rewrite P; discriminate).
        destruct (last_split pre Hne) as (p & d & ->).
        exists p, d. split; [reflexivity|].
        destruct (isWhiteSpace d) eqn:Hd; [|reflexivity].
        destruct (W p d (32%N :: post)) as [_ S].
        { rewrite E, <- app_assoc. reflexivity. }
        { exact Hd. }
        simpl in S. rewrite S in Hc. discriminate.
    + destruct post as [|d q].
      * unfold filterUrlsFromText in E.
        rewrite (trim_last _ _ _ E) in Hc. discriminate.
      * exists d, q. split; [reflexivity | exact Hstop].
  - intros toLowerCase apiUrl r msg e w Hm Hp.
    destruct (RequestFacts.speech_turn toLowerCase apiUrl r msg e w Hm Hp)
      as (w' & ack & E & A).
    exists w', ack. rewrite RequestFacts.speechRequests_collect. auto.
Qed.

Import ProcFacts TurnFacts CompletionFacts.

Lemma quiet_reachable toLowerCase apiUrl p :
  Reachable toLowerCase apiUrl p -> forall e w, Forall quiet (trace (run e p w)).
Proof.
  induction 1 as [r|r|r|code|p e0 w0 ms cb _ IH Hin|p e0 w0 a l _ IH Hin
                 |p e0 w0 a l _ IH Hin]; intros e w.
  - apply Every_run. unfold liveChatEffect. every.
  - apply Every_run, quiet_voiceInterruptionEffect.
  - apply Every_run, quiet_handleLiveChatToggle.
  - apply Every_run. unfold recognitionError, logError. every.
  - specialize (IH e0 w0). rewrite Forall_forall in IH. specialize (IH _ Hin).
    destruct cb as [r|r]; [|exfalso; apply IH; exact I].
    apply Every_run, quiet_liveChatTimeout.
  - specialize (IH e0 w0). rewrite Forall_forall in IH. specialize (IH _ Hin).
    destruct l as [u|u|r u|r u]; try (exfalso; apply IH; exact I);
      apply Every_run; unfold onAudio, log; every.
  - specialize (IH e0 w0). rewrite Forall_forall in IH. specialize (IH _ Hin).
    destruct l as [u|u|r u|r u]; try (exfalso; apply IH; exact I);
      apply Every_run; unfold onAudio, log; every.
Qed.

(** C1. Whatever code the browser enters, in whatever order and with
    whatever answers from the network and the audio elements, it never
    announces a filler sound, holds a filler audio, listens to one or arms
    the loop's timer; in particular the turn does not, in any render and
    for any message.  And the turn, the interruption effect and the mode
    switch each pause the filler audio their render holds. *)
Theorem filler_never_scheduled
        (toLowerCase : jsstring -> jsstring) (apiUrl : option jsstring) :
  (forall p, Reachable toLowerCase apiUrl p ->
     forall e w, Forall (fun en => ~ fillerEntry en) (trace (run e p w))) /\
  (forall r msg e w,
     Forall (fun en => ~ fillerEntry en)
            (trace (run e (handleLiveChatMessage toLowerCase apiUrl r msg) w))) /\
  (forall r a e w, thinkingAudio r = Some a ->
     (forall msg,
        In (Did (AudioPause a))
           (trace (run e (handleLiveChatMessage toLowerCase apiUrl r msg) w))) /\
     (isLiveChatMode r && isListening r && isPlayingResponse r = true ->
      In (Did (AudioPause a)) (trace (run e (voiceInterruptionEffect r) w))) /\
     (isLiveChatMode r = true ->
      In (Did (AudioPause a)) (trace (run e (handleLiveChatToggle r) w)))).
Proof.
  split; [exact (quiet_reachable toLowerCase apiUrl)|].
  split; [intros r msg e w; apply Every_run, quiet_handleLiveChatMessage|].
  intros r a e w Ha. split; [|split].
  - intros msg. unfold handleLiveChatMessage.
    apply in_bind_safe; [safe|]. intros w1.
    rewrite run_bind. apply in_andThen_first.
    unfold stopContinuousThinking. rewrite Ha. simpl. left. reflexivity.
  - intros Hc. unfold voiceInterruptionEffect. rewrite Hc. cbn [when].
    apply in_bind_safe; [unfold log; safe|]. intros w1.
    apply in_bind_safe; [safe|]. intros w2.
    rewrite run_bind. apply in_andThen_first.
    unfold stopContinuousThinking. rewrite Ha. simpl. left. reflexivity.
  - intros Hc. unfold handleLiveChatToggle. rewrite Hc.
    apply in_bind_safe; [unfold log; safe|]. intros w1.
    apply in_bind_safe; [safe|]. intros w2.
    rewrite run_bind. apply in_andThen_first.
    rewrite Ha. simpl. left. reflexivity.
Qed.

Lemma filler_never_scheduled_witness :
  Forall (fun en => ~ fillerEntry en)
         (trace (run (browser Scenario.backendDown)
                     (liveChatTimeout Scenario.asciiLower (Some Scenario.hookUrl)
                        (Scenario.listening Scenario.question))
                     (Scenario.silent (Scenario.listening Scenario.question)))).
Proof.
  apply (proj1 (filler_never_scheduled Scenario.asciiLower (Some Scenario.hookUrl))
               (runCallback Scenario.asciiLower (Some Scenario.hookUrl)
                  (LiveChatTimeout (Scenario.listening Scenario.question)))).
  apply (Reach_timer Scenario.asciiLower (Some Scenario.hookUrl)
           (bind (liveChatEffect (Scenario.listening Scenario.question))
                 (fun _ => Ret tt))
           (browser Scenario.online)
           (Scenario.silent (Scenario.listening Scenario.question))
           1500 (LiveChatTimeout (Scenario.listening Scenario.question))).
  - apply Reach_effect.
  - simpl. right. left. reflexivity.
Defined.

(** A request to the assistant made by the debounce callback carries the
    trimmed snapshot, which is longer than two. *)
Lemma timeout_carries toLowerCase apiUrl r e w url sid action input :
  In (Asked (Fetch url (ChatMessage sid action input)))
     (trace (run e (liveChatTimeout toLowerCase apiUrl r) w)) ->
  2 < length input /\ input = trim (transcript r).
Proof.
  intros H.
  assert (E : Every (fun en => forall u s a i,
                       fetched en = Some (u, ChatMessage s a i) ->
                       2 < length i /\ i = trim (transcript r))
                    (liveChatTimeout toLowerCase apiUrl r)).
  { unfold liveChatTimeout. cbv zeta.
    destruct (2 <? length (trim (transcript r))) eqn:L.
    - apply Nat.ltb_lt in L.
      apply Every_impl with (P := carries (trim (transcript r))).
      { intros en Hen u s a i Hf. destruct (Hen u s a i Hf) as [_ ->]. auto. }
      apply Every_bind; [unfold log; every_with plain|intros _].
      apply Every_when.
      apply Every_bind; [unfold log; every_with plain|intros _].
      apply Every_bind; [apply carries_message|intros _].
      apply Every_bind; [apply carries_resetTranscript|intros _].
      every_with plain.
    - rewrite andb_false_r. cbn [when].
      apply Every_bind; [unfold log; apply Every_perform; simpl; discriminate|intros _].
      constructor. }
  pose proof (Every_run _ _ E e w) as F.
  rewrite Forall_forall in F. exact (F _ H _ _ _ _ eq_refl).
Qed.

(** C3. When the trimmed snapshot has at most two code units, the debounce
    callback logs the snapshot and does nothing else: no request of any
    kind; and a request to the assistant made by the callback carries the
    trimmed snapshot, which is longer than two. *)
Theorem noise_floor
        (toLowerCase : jsstring -> jsstring) (apiUrl : option jsstring)
        (r : Render) (e : env) (w : World) :
  (length (trim (transcript r)) <= 2 ->
   trace (run e (liveChatTimeout toLowerCase apiUrl r) w)
   = [Did (ConsoleLog "Live chat transcript:")]) /\
  (forall url sid action input,
     In (Asked (Fetch url (ChatMessage sid action input)))
        (trace (run e (liveChatTimeout toLowerCase apiUrl r) w)) ->
     2 < length input /\ input = trim (transcript r)).
Proof.
  split.
  - intros H. unfold liveChatTimeout. cbv zeta.
    replace (2 <? length (trim (transcript r))) with false
      by (symmetry; apply Nat.ltb_ge; exact H).
    rewrite andb_false_r. reflexivity.
  - intros url sid action input. apply timeout_carries.
Qed.

Lemma noise_floor_witness :
  trace (run (browser Scenario.online)
             (liveChatTimeout Scenario.asciiLower (Some Scenario.hookUrl)
                (Scenario.listening (js " hi ")))
             (Scenario.silent (Scenario.listening (js " hi "))))
  = [Did (ConsoleLog "Live chat transcript:")].
Proof.
  apply (noise_floor Scenario.asciiLower (Some Scenario.hookUrl)
           (Scenario.listening (js " hi ")) (browser Scenario.online)
           (Scenario.silent (Scenario.listening (js " hi ")))).
  vm_compute. lia.
Defined.

(** What holds of the end of a turn.  A turn that passes the guard of its
    handler ends without an exception and with both flags false, and never
    starts the filler loop; when the request to the assistant fails
    (network error, status that is not a success, body that is not JSON or
    not of the expected form), the apology is sent to the synthesiser. *)
Theorem turn_completes
        (toLowerCase : jsstring -> jsstring) (apiUrl : option jsstring)
        (r : Render) (msg : jsstring) (e : env) (w : World) :
  nonEmpty (trim msg) = true ->
  isProcessingVoice r = false ->
  result (run e (handleLiveChatMessage toLowerCase apiUrl r msg) w) = inr tt /\
  isProcessingVoice
    (state (final (run e (handleLiveChatMessage toLowerCase apiUrl r msg) w))) = false /\
  isPlayingResponse
    (state (final (run e (handleLiveChatMessage toLowerCase apiUrl r msg) w))) = false /\
  Forall (fun en => ~ fillerEntry en)
         (trace (run e (handleLiveChatMessage toLowerCase apiUrl r msg) w)) /\
  (forall url, apiUrl = Some url -> nonEmpty url = true -> backendFails e url ->
     In (Asked (Fetch ttsUrl (SpeechRequest apology)))
        (trace (run e (handleLiveChatMessage toLowerCase apiUrl r msg) w))).
Proof.
  intros Hm Hp.
  split.
  { destruct (Safe_run _ (safe_handleLiveChatMessage toLowerCase apiUrl r msg) e w)
      as [[] E]. exact E. }
  split; [exact (proj1 (flags_cleared toLowerCase apiUrl r msg e w Hm Hp))|].
  split; [exact (proj2 (flags_cleared toLowerCase apiUrl r msg e w Hm Hp))|].
  split; [apply Every_run, quiet_handleLiveChatMessage|].
  intros url -> Hu Hb. apply apology_requested; assumption.
Qed.

Lemma backendDown_fails : backendFails (browser Scenario.backendDown) Scenario.hookUrl.
Proof. intros sid action message w. simpl. left. reflexivity. Qed.

Lemma turn_completes_witness :
  In (Asked (Fetch ttsUrl (SpeechRequest apology)))
     (trace (run (browser Scenario.backendDown)
                 (handleLiveChatMessage Scenario.asciiLower (Some Scenario.hookUrl)
                    (Scenario.listening Scenario.question) Scenario.question)
                 (Scenario.silent (Scenario.listening Scenario.question)))).
Proof.
  destruct (turn_completes Scenario.asciiLower (Some Scenario.hookUrl)
              (Scenario.listening Scenario.question) Scenario.question
              (browser Scenario.backendDown)
              (Scenario.silent (Scenario.listening Scenario.question))
              eq_refl eq_refl) as (_ & _ & _ & _ & H).
  exact (H Scenario.hookUrl eq_refl eq_refl backendDown_fails).
Defined.

(** C5. The assistant answers and the synthesiser refuses the reply: the
    failure is caught and logged inside speakText, the handler of the turn
    never sees it, and no apology is asked for although the synthesiser
    would have spoken it.  The user hears nothing. *)
Theorem synthesis_failure_no_apology :
  let r := Scenario.listening (js "hello") in
  let o := run (browser Scenario.replyRefused)
               (handleLiveChatMessage Scenario.asciiLower (Some Scenario.hookUrl)
                  r (js "hello"))
               (Scenario.silent r) in
  speechRequests (trace o) = [js "Hello there"] /\
  In (Did (ConsoleError "TTS API error:")) (trace o) /\
  In (Did (ConsoleError "Error speaking text:")) (trace o) /\
  ~ In (Did (ConsoleError "Error in live chat:")) (trace o) /\
  ~ In (Asked (Fetch ttsUrl (SpeechRequest apology))) (trace o) /\
  playing (final o) = [] /\
  result o = inr tt /\
  playing (final (run (browser Scenario.replyRefused) (speakText r apology)
                      (Scenario.silent r))) = [0].
Proof.
  cbv zeta.
  split; [vm_compute; reflexivity|].
  split; [vm_compute; tauto|].
  split; [vm_compute; tauto|].
  split.
  { intros H. vm_compute in H.
    repeat (destruct H as [H|H]; [discriminate H|]). exact H. }
  split.
  { intros H. vm_compute in H.
    repeat (destruct H as [H|H]; [discriminate H|]). exact H. }
  split; [vm_compute; reflexivity|].
  split; vm_compute; reflexivity.
Qed.

(** C8. The assistant fails while the acknowledgment phrase is still
    sounding: the apology is played over it.  Nothing was paused, and
    isPlayingResponse never became true, so the interruption effect had no
    occasion to pause anything either; two audio elements made by
    speakText sound at once, and the state holds only the second. *)
Theorem apology_over_acknowledgment :
  let r := Scenario.listening Scenario.question in
  let o := run (browser Scenario.backendDown)
               (liveChatTimeout Scenario.asciiLower (Some Scenario.hookUrl) r)
               (Scenario.silent r) in
  speechRequests (trace o) = [nth 0 thinkingMessages []; apology] /\
  pauses (trace o) = [] /\
  ~ In (Did (SetIsPlayingResponse true)) (trace o) /\
  playing (final o) = [1; 0] /\
  currentAudio (state (final o)) = Some 1.
Proof.
  vm_compute. repeat split.
  intros H. repeat (destruct H as [H|H]; [discriminate H|]). exact H.
Qed.

(** X1. speakText pauses the audio of its render, and no other. *)
Lemma speakText_pauses_captured r text e w a :
  In (Did (AudioPause a)) (trace (run e (speakText r text) w)) ->
  currentAudio r = Some a.
Proof.
  intros H.
  assert (E : Every (fun en => forall b, en = Did (AudioPause b) -> currentAudio r = Some b)
                    (speakText r text)).
  { unfold speakText, log, logError.
    every_with ltac:(intros; first [discriminate | congruence]). }
  pose proof (Every_run _ _ E e w) as F. rewrite Forall_forall in F.
  exact (F _ H a eq_refl).
Qed.

(** X2. Text that is empty after trimming is refused before any request. *)
Lemma speakText_empty r text e w :
  length (trim text) = 0 ->
  trace (run e (speakText r text) w) = [Did (ConsoleError "Cannot speak empty text")].
Proof.
  intros H. unfold speakText. rewrite H. rewrite orb_true_r. reflexivity.
Qed.

(** The end of a playback, and its failure, revoke the object URL and
    clear the reference. *)
Lemma speak_listeners_release u e w :
  (In (Did (RevokeObjectURL u)) (trace (run e (onAudio (SpeakEnded u)) w)) /\
   currentAudio (state (final (run e (onAudio (SpeakEnded u)) w))) = None) /\
  (In (Did (RevokeObjectURL u)) (trace (run e (onAudio (SpeakError u)) w)) /\
   currentAudio (state (final (run e (onAudio (SpeakError u)) w))) = None).
Proof. simpl. tauto. Qed.

(** X3. The classification of the source: some phrase of the list is inside
    the lowered text, and the text has fewer than 20 code units. *)
Lemma isSimpleGreeting_spec toLowerCase msg :
  isSimpleGreeting toLowerCase msg = true <->
  (exists greeting pre post,
      In greeting simpleGreetings /\ toLowerCase msg = pre ++ greeting ++ post) /\
  length msg < 20.
Proof.
  unfold isSimpleGreeting. rewrite existsb_exists. split.
  - intros (g & Hg & H). apply andb_true_iff in H. destruct H as [Hi Hl].
    apply StringFacts.includes_spec in Hi. destruct Hi as (pre & post & E).
    apply Nat.ltb_lt in Hl. split; [|exact Hl]. exists g, pre, post. auto.
  - intros [(g & pre & post & Hg & E) Hl]. exists g. split; [exact Hg|].
    apply andb_true_iff. split.
    + apply StringFacts.includes_spec. eauto.
    + apply Nat.ltb_lt. exact Hl.
Qed.

(** X4. A greeting goes to the assistant without any acknowledgment. *)
Lemma greeting_unacknowledged toLowerCase apiUrl r msg e w :
  isSimpleGreeting toLowerCase msg = true ->
  Forall (fun en => ~ fillerEntry en /\
                    en <> Did (ConsoleLog "Playing thinking message:"))
         (trace (run e (handleLiveChatMessage toLowerCase apiUrl r msg) w)).
Proof.
  intros G. apply Every_run. unfold handleLiveChatMessage. rewrite G. cbn [negb when].
  unfold stopContinuousThinking, speakText, sendMessage, filterUrlsFromValue, log, logError.
  every_with ltac:(split; [leaf | discriminate]).
Qed.

(** C6. A question that is no greeting: the acknowledgment phrase is sent
    to the synthesiser, then the reply, and nothing between them: the
    filler loop that is started after the phrase asks for no sound, arms no
    timer and holds no audio. *)
Theorem filler_loop_never_runs :
  let r := Scenario.listening Scenario.question in
  let o := run (browser Scenario.online)
               (liveChatTimeout Scenario.asciiLower (Some Scenario.hookUrl) r)
               (Scenario.silent r) in
  isSimpleGreeting Scenario.asciiLower (trim (transcript r)) = false /\
  In (Did (SetIsProcessingVoice true)) (trace o) /\
  speechRequests (trace o) = [nth 0 thinkingMessages []; js "We open at nine."] /\
  timers (final o) = [] /\
  thinkingAudio (state (final o)) = None.
Proof. vm_compute. repeat split. tauto. Qed.

(** C9. An [aborted] error clears the listening flag and logs nothing;
    any other error is logged and changes nothing; starting never throws,
    and a start the engine refuses is logged. *)
Theorem recognition_errors (code : jsstring) (r : Render) (e : env) (w : World) :
  (code = js "aborted" ->
   trace (run e (recognitionError code) w) = [Did (SetIsListening false)] /\
   isListening (state (final (run e (recognitionError code) w))) = false /\
   transcript (state (final (run e (recognitionError code) w))) = transcript (state w)) /\
  (code <> js "aborted" ->
   trace (run e (recognitionError code) w)
   = [Did (ConsoleError "Speech recognition error:")] /\
   final (run e (recognitionError code) w) = w) /\
  result (run e (startListening r) w) = inr tt /\
  (forall x, isSupported r = true -> isListening r = false ->
     fst (e _ RecognitionStart w) = inl x ->
     trace (run e (startListening r) w)
     = [Did (ConsoleLog "Starting speech recognition..."); Asked RecognitionStart;
        Did (ConsoleError "Failed to start recognition:")] /\
     state (final (run e (startListening r) w)) = state (snd (e _ RecognitionStart w))).
Proof.
  split; [|split; [|split]].
  - intros ->. unfold recognitionError.
    replace (eqb (js "aborted") (js "aborted")) with true by reflexivity.
    simpl. auto.
  - intros H. unfold recognitionError.
    apply eqb_false in H. rewrite H. simpl. destruct w. auto.
  - unfold startListening.
    destruct (isSupported r && negb (isListening r)); simpl; [|reflexivity].
    destruct (fst (e _ RecognitionStart w)) as [x|[]]; reflexivity.
  - intros x Hs Hl Hx. unfold startListening. rewrite Hs, Hl. simpl.
    rewrite Hx. simpl. auto.
Qed.

Lemma recognition_errors_witness :
  trace (run refusing (recognitionError (js "aborted"))
             (Scenario.silent (Scenario.listening [])))
  = [Did (SetIsListening false)] /\
  trace (run refusing (recognitionError (js "no-speech"))
             (Scenario.silent (Scenario.listening [])))
  = [Did (ConsoleError "Speech recognition error:")] /\
  trace (run refusing (startListening (setIsListening false (Scenario.listening [])))
             (Scenario.silent (Scenario.listening [])))
  = [Did (ConsoleLog "Starting speech recognition..."); Asked RecognitionStart;
     Did (ConsoleError "Failed to start recognition:")].
Proof.
  split; [|split].
  - apply (recognition_errors (js "aborted") (Scenario.listening []) refusing
             (Scenario.silent (Scenario.listening []))). reflexivity.
  - apply (recognition_errors (js "no-speech") (Scenario.listening []) refusing
             (Scenario.silent (Scenario.listening []))). vm_compute. discriminate.
  - apply (recognition_errors (js "aborted")
             (setIsListening false (Scenario.listening [])) refusing
             (Scenario.silent (Scenario.listening [])))
      with (x := Rejected "InvalidStateError"); reflexivity.
Defined.

(** What sendMessage resolves to is the [output] of the body, whatever its
    type, when the status is a success, the body an object and the output
    truthy; in every other case it throws. *)
Lemma sendMessage_resolves
      (apiUrl : option jsstring) (sid msg : jsstring) (e : env) (w : World) (out : json) :
  result (run e (sendMessage apiUrl sid msg) w) = inr out <->
  exists url response data,
    apiUrl = Some url /\ nonEmpty url = true /\
    fst (e _ (Fetch url (ChatMessage sid (js "sendMessage") msg)) w) = inr response /\
    ok response = true /\
    fst (e _ (ResponseJson response)
           (snd (e _ (Fetch url (ChatMessage sid (js "sendMessage") msg)) w)))
    = inr data /\
    truthy data = true /\ typeofObject data = true /\
    getOutput data = Some out /\ truthy out = true.
Proof.
  split.
  - unfold sendMessage, await, logError.
    destruct apiUrl as [url|]; [|simpl; discriminate].
    destruct (nonEmpty url) eqn:Hu; simpl; [|discriminate].
    destruct (fst (e _ (Fetch url (ChatMessage sid (js "sendMessage") msg)) w))
      as [x|response] eqn:Hf; simpl; [discriminate|].
    destruct (ok response) eqn:Hok; simpl; [|discriminate].
    destruct (fst (e _ (ResponseJson response)
                     (snd (e _ (Fetch url (ChatMessage sid (js "sendMessage") msg)) w))))
      as [x|data] eqn:Hd; simpl; [discriminate|].
    destruct (getOutput data) as [output|] eqn:Ho; simpl; [|discriminate].
    destruct (truthy data && typeofObject data && truthy output) eqn:T;
      simpl; [|discriminate].
    intros H. injection H as <-.
    apply andb_true_iff in T. destruct T as [T T3].
    apply andb_true_iff in T. destruct T as [T1 T2].
    exists url, response, data. repeat split; auto.
  - intros (url & response & data & -> & Hu & Hf & Hok & Hd & T1 & T2 & Ho & T3).
    unfold sendMessage, await, logError. rewrite Hu. simpl. rewrite Hf. simpl.
    rewrite Hok. simpl. rewrite Hd. simpl. rewrite Ho, T1, T2, T3. reflexivity.
Qed.

(** C10. A reply whose [output] is the number 42: sendMessage resolves, to
    the number, although it is declared to resolve to a string.  In the
    turn the number is added to the conversation as the reply, the filter
    cannot read it as text, and what is spoken is the apology. *)
Theorem sendMessage_returns_number :
  result (run (browser Scenario.numericReply)
              (sendMessage (Some Scenario.hookUrl) (js "session-1") (js "hello"))
              (Scenario.silent (Scenario.listening [])))
  = inr (JNumber 42%Q) /\
  (forall s, JNumber 42%Q <> JString s) /\
  let o := run (browser Scenario.numericReply)
               (handleLiveChatMessage Scenario.asciiLower (Some Scenario.hookUrl)
                  (Scenario.listening (js "hello")) (js "hello"))
               (Scenario.silent (Scenario.listening (js "hello"))) in
  collect addOf (trace o) = [(JString (js "hello"), true); (JNumber 42%Q, false)] /\
  In (Did (ConsoleError "Error in live chat:")) (trace o) /\
  speechRequests (trace o) = [apology].
Proof.
  split; [reflexivity|]. split; [discriminate|]. cbv zeta.
  split; [vm_compute; reflexivity|]. split; [vm_compute; tauto|].
  vm_compute. reflexivity.
Qed.

(** What the interruption effect does when it runs, in a render of live
    chat that listens with the playing flag set: it waits for nothing; the
    response audio and the filler audio of that render are paused, rewound
    and no longer sound; both references and both flags are cleared, the
    three transcripts are empty, and the recogniser is left listening. *)
Theorem barge_in (r : Render) (e : env) (w : World) :
  state w = r ->
  isLiveChatMode r = true -> isListening r = true -> isPlayingResponse r = true ->
  Immediate (voiceInterruptionEffect r) /\
  result (run e (voiceInterruptionEffect r) w) = inr tt /\
  (forall a, currentAudio r = Some a \/ thinkingAudio r = Some a ->
     ~ In a (playing (final (run e (voiceInterruptionEffect r) w))) /\
     In (Did (AudioPause a)) (trace (run e (voiceInterruptionEffect r) w)) /\
     In (Did (AudioSetCurrentTime a 0)) (trace (run e (voiceInterruptionEffect r) w))) /\
  ~ In (Did RecognitionStop) (trace (run e (voiceInterruptionEffect r) w)) /\
  state (final (run e (voiceInterruptionEffect r) w))
  = {| isLiveChatMode := true; isProcessingVoice := false; currentAudio := None;
       liveChatTranscript := []; sessionId := sessionId r; thinkingAudio := None;
       isPlayingResponse := false; onAddMessage := onAddMessage r;
       isListening := true; transcript := []; finalTranscript := [];
       isSupported := isSupported r |}.
Proof.
  intros Hw Hl Hs Hp. unfold voiceInterruptionEffect, stopContinuousThinking,
    resetTranscript, log.
  rewrite Hl, Hs, Hp. cbn [andb when].
  destruct r as [lm pv ca lt sid ta pr oam il tr ft sup]. simpl in *. subst.
  destruct w as [st pl tm ck nx]. simpl in Hw. subst st.
  destruct ca as [a1|], ta as [a2|]; simpl;
    (split; [repeat constructor|]);
    (split; [reflexivity|]);
    (split; [|split; [|reflexivity]]);
    try (intros K; simpl in K; intuition discriminate);
    intros a [H|H]; try discriminate; injection H as <-;
    (split; [|split; [tauto | tauto]]);
    intros K;
    repeat first [ apply not_in_without in K; contradiction
                 | apply without_subset in K ].
Qed.

(** C4. A turn ends with the playing flag false, whatever happened in it,
    and the interruption effect does nothing in a render whose playing flag
    is false.  So while the reply of a turn sounds the effect does not
    run: after the turn for [hello] the reply audio plays, the flag is
    false, the user speaks, and the effect of the new render leaves the
    audio playing. *)
Theorem barge_in_misses_playback :
  (forall toLowerCase apiUrl r msg e w,
     nonEmpty (trim msg) = true -> isProcessingVoice r = false ->
     isPlayingResponse
       (state (final (run e (handleLiveChatMessage toLowerCase apiUrl r msg) w)))
     = false) /\
  (forall r e w,
     isPlayingResponse r = false ->
     run e (voiceInterruptionEffect r) w
     = {| final := w; trace := []; result := inr tt |}) /\
  let r := Scenario.listening (js "hello") in
  let w1 := final (run (browser Scenario.online)
                       (liveChatTimeout Scenario.asciiLower (Some Scenario.hookUrl) r)
                       (Scenario.silent r)) in
  let w2 := withState (setTranscript (js "wait")) w1 in
  playing w1 = [0] /\
  currentAudio (state w1) = Some 0 /\
  isLiveChatMode (state w2) = true /\
  isListening (state w2) = true /\
  isPlayingResponse (state w2) = false /\
  trace (run (browser Scenario.online) (voiceInterruptionEffect (state w2)) w2) = [] /\
  playing (final (run (browser Scenario.online) (voiceInterruptionEffect (state w2)) w2))
  = [0].
Proof.
  split.
  { intros toLowerCase apiUrl r msg e w Hm Hp.
    exact (proj2 (flags_cleared toLowerCase apiUrl r msg e w Hm Hp)). }
  split.
  { intros r e w H. unfold voiceInterruptionEffect. rewrite H, andb_false_r.
    reflexivity. }
  cbv zeta. repeat split; vm_compute; reflexivity.
Qed.

Import DebounceFacts.

Lemma chained_app now a b : chained now (a ++ b) -> chained now a.
Proof.
  revert now. induction a as [|ev a IH]; intros now H; simpl in *; [exact I|].
  destruct H as [H1 H2]. split; [exact H1 | exact (IH _ H2)].
Qed.

Lemma mount_steady n w0 :
  isLiveChatMode (state w0) = true -> isProcessingVoice (state w0) = false ->
  isPlayingResponse (state w0) = false -> transcript (state w0) = [] ->
  timers w0 = [] ->
  steady (mount (browser n) w0) [] /\ pending (mount (browser n) w0) None [] /\
  tidy (mount (browser n) w0).
Proof.
  intros Hl Hp Hq Ht Hm. unfold mount. rewrite commit_rerun by reflexivity.
  cbn [world cleanup started]. cbv zeta. unfold liveChatEffect.
  rewrite Ht. cbn [nonEmpty]. rewrite andb_false_r. cbn [andb].
  unfold steady, pending, tidy. simpl. repeat split; auto.
Qed.

(** C2, as amended. Live chat listens with an empty transcript.  Updates
    follow, each changing the transcript and less than 1500 ms after the one
    before; the browser may look at any timer at any moment in between and
    after.  Then nothing is started during the burst; what is started
    afterwards is the callback of the last update, once, not before
    1500 ms after it, and its request to the assistant carries the trimmed
    text of that update; and at no moment is more than one timer armed.
    When the last update leaves text, its timer is the one armed after the
    burst; the first look at it on or after its time starts its callback;
    and the callback asks the assistant exactly once, with the trimmed
    text, when that has more than two code units, and not at all
    otherwise. *)
Theorem debounce_restart
        (toLowerCase : jsstring -> jsstring) (apiUrl : option jsstring)
        (n : Network) (w0 : World)
        (burst : list event) (tn : Z) (sn : jsstring) (later : list event) :
  isLiveChatMode (state w0) = true ->
  isProcessingVoice (state w0) = false ->
  isPlayingResponse (state w0) = false ->
  transcript (state w0) = [] ->
  timers w0 = [] ->
  chained (clock w0) (burst ++ TranscriptUpdate tn sn :: later) ->
  rapid None [] (burst ++ [TranscriptUpdate tn sn]) ->
  Forall isTimerDue later ->
  started (handleAll (browser n) (mount (browser n) w0)
                     (burst ++ [TranscriptUpdate tn sn])) = [] /\
  (forall t cb,
     In (t, cb) (started (handleAll (browser n) (mount (browser n) w0)
                                    (burst ++ TranscriptUpdate tn sn :: later))) ->
     (tn + 1500 <= t)%Z /\
     exists r, cb = LiveChatTimeout r /\ transcript r = sn /\
       forall e w url sid action input,
         In (Asked (Fetch url (ChatMessage sid action input)))
            (trace (run e (runCallback toLowerCase apiUrl cb) w)) ->
         input = trim sn) /\
  length (started (handleAll (browser n) (mount (browser n) w0)
                             (burst ++ TranscriptUpdate tn sn :: later))) <= 1 /\
  (forall k,
     length (timers (world (handleAll (browser n) (mount (browser n) w0)
                              (firstn k (burst ++ TranscriptUpdate tn sn :: later)))))
     <= 1) /\
  (nonEmpty sn = true ->
   exists id r,
     timers (world (handleAll (browser n) (mount (browser n) w0)
                              (burst ++ [TranscriptUpdate tn sn])))
     = [(id, ((tn + 1500)%Z, LiveChatTimeout r))] /\
     transcript r = sn /\
     (forall t, In (TimerDue t id) later -> (tn + 1500 <= t)%Z ->
        exists t',
          started (handleAll (browser n) (mount (browser n) w0)
                             (burst ++ TranscriptUpdate tn sn :: later))
          = [(t', LiveChatTimeout r)]) /\
     (forall e w url, apiUrl = Some url -> nonEmpty url = true ->
        collect chatOf
          (trace (run e (runCallback toLowerCase apiUrl (LiveChatTimeout r)) w))
        = if 2 <? length (trim sn)
          then [(url, ChatMessage (sessionId r) (js "sendMessage") (trim sn))]
          else [])).
Proof.
  intros Hl Hp Hq Ht Hm Hch Hr Hlater.
  destruct (mount_steady n w0 Hl Hp Hq Ht Hm) as (S0 & P0 & T0).
  assert (Hsplit : burst ++ TranscriptUpdate tn sn :: later
                   = (burst ++ [TranscriptUpdate tn sn]) ++ later).
  { rewrite <- app_assoc. reflexivity. }
  assert (Hch1 : chained (clock w0) (burst ++ [TranscriptUpdate tn sn])).
  { rewrite Hsplit in Hch. exact (chained_app _ _ _ Hch). }
  destruct (through_burst n _ _ None [] (clock w0) S0 P0
              (closes_app burst tn sn) Hch1 Hr) as [S1 P1].
  rewrite lastHeard_app in S1, P1. rewrite lastTime_app in P1.
  assert (W1 : waited (fun t0 r => (t0 = clock w0 /\ r = state w0) \/
                                   In (TranscriptUpdate t0 (transcript r))
                                      (burst ++ [TranscriptUpdate tn sn]))
                      (handleAll (browser n) (mount (browser n) w0)
                                 (burst ++ [TranscriptUpdate tn sn]))).
  { apply handleAll_waited. unfold mount. apply commit_waited.
    - split; simpl; [rewrite Hm; intros ? ? ? [] | intros ? ? []].
    - intros _. split; reflexivity. }
  set (m1 := handleAll (browser n) (mount (browser n) w0)
                       (burst ++ [TranscriptUpdate tn sn])) in *.
  assert (Hset : settled m1 tn sn).
  { left. split; [apply S1|].
    destruct P1 as [(E & _)|(id & t & r & L & E & _ & Hr')]; [left; exact E|].
    injection L as <-. right. eauto. }
  assert (Hall : handleAll (browser n) (mount (browser n) w0)
                           (burst ++ TranscriptUpdate tn sn :: later)
                 = handleAll (browser n) m1 later).
  { rewrite Hsplit. unfold handleAll, m1. apply fold_left_app. }
  pose proof (settled_later n later m1 tn sn Hlater Hset) as Hfin.
  rewrite <- Hall in Hfin.
  split; [apply S1|]. split; [|split; [|split]].
  - intros t cb Hin.
    destruct Hfin as [(E & _)|(_ & t1 & r & E & Hge & Hr')]; rewrite E in Hin.
    + contradiction.
    + destruct Hin as [Hin|[]]. injection Hin as <- <-.
      split; [exact Hge|]. exists r. repeat split; auto.
      intros e w url sid action input Hreq. simpl in Hreq.
      destruct (timeout_carries _ _ _ _ _ _ _ _ _ Hreq) as [_ ->].
      rewrite Hr'. reflexivity.
  - destruct Hfin as [(-> & _)|(_ & t1 & r & -> & _)]; simpl; lia.
  - intros k. apply tidy_length, handleAll_tidy, T0.
  - intros Hne.
    destruct P1 as [(_ & _ & E)|(id & t & r & L & E & _ & Hr')].
    { rewrite E in Hne. discriminate. }
    injection L as <-. exists id, r. split; [exact E|]. split; [exact Hr'|].
    destruct W1 as [W1 _].
    destruct (W1 id (tn + 1500)%Z (LiveChatTimeout r)) as (t0 & r' & Hcb & _ & Hel & _);
      [rewrite E; left; reflexivity|].
    injection Hcb as <-.
    split.
    + intros t Hin Hd. rewrite Hall.
      destruct (later_fires n later m1 id (tn + 1500)%Z (LiveChatTimeout r) Hlater E
                  (proj2 (proj2 (proj2 (proj2 (proj2 S1)))))
                  (ex_intro _ t (conj Hin Hd))) as (t' & Hs & _).
      eauto.
    + intros e w url -> Hu. cbn [runCallback]. rewrite <- Hr'.
      apply RequestFacts.chat_timeout; [|exact Hu].
      unfold eligible in Hel.
      destruct (isProcessingVoice r); [|reflexivity].
      rewrite andb_false_r in Hel. discriminate.
Qed.

Lemma debounce_restart_witness :
  exists t' r,
    started
      (handleAll (browser Scenario.online)
         (mount (browser Scenario.online) (Scenario.silent (Scenario.listening [])))
         ([TranscriptUpdate 0 (js "tell"); TimerDue 900 0;
           TranscriptUpdate 1000 (js "tell me")]
          ++ TranscriptUpdate 2000 Scenario.question
             :: [TimerDue 3000 2; TimerDue 3600 2]))
    = [(t', LiveChatTimeout r)].
Proof.
  destruct (debounce_restart Scenario.asciiLower (Some Scenario.hookUrl) Scenario.online
              (Scenario.silent (Scenario.listening []))
              [TranscriptUpdate 0 (js "tell"); TimerDue 900 0;
               TranscriptUpdate 1000 (js "tell me")]
              2000 Scenario.question [TimerDue 3000 2; TimerDue 3600 2]
              eq_refl eq_refl eq_refl eq_refl eq_refl)
    as (_ & _ & _ & _ & L).
  - simpl. lia.
  - simpl. repeat split; try lia; discriminate.
  - repeat constructor.
  - destruct (L eq_refl) as (id & r & Ht & _ & Hfire & _).
    vm_compute in Ht. injection Ht as <- _.
    destruct (Hfire 3600%Z) as [t' Hs].
    + simpl. right. left. reflexivity.
    + lia.
    + exists t', r. exact Hs.
Defined.

(** C2, as stated, fails: an update that repeats the text of the one
    before does not re-arm the timer.  The timer of the first update stays
    armed, its callback starts at 1500, which is 500 ms after the last
    update, and the callback asks the assistant. *)
Lemma debounce_repeated_text :
  let m := handleAll (browser Scenario.online)
             (mount (browser Scenario.online) (Scenario.silent (Scenario.listening [])))
             [TranscriptUpdate 0 (js "tell me"); TranscriptUpdate 1000 (js "tell me")] in
  map (fun armed => (fst armed, fst (snd armed))) (timers (world m)) = [(0, 1500%Z)] /\
  exists cb,
    started (handle (browser Scenario.online) m (TimerDue 1500 0)) = [(1500%Z, cb)] /\
    (1500 < 1000 + 1500)%Z /\
    collect chatOf
      (trace (run (browser Scenario.online)
                  (runCallback Scenario.asciiLower (Some Scenario.hookUrl) cb)
                  (world (handle (browser Scenario.online) m (TimerDue 1500 0)))))
    = [(Scenario.hookUrl,
        ChatMessage (js "session-1") (js "sendMessage") (js "tell me"))].
Proof.
  cbv zeta. split; [reflexivity|].
  eexists. split; [reflexivity|]. split; [lia|]. vm_compute. reflexivity.
Qed.

(** What the witness run starts: the callback of the last update, at the
    first look after the 1500 ms. *)
Example debounce_run :
  map fst (started
             (handleAll (browser Scenario.online)
                (mount (browser Scenario.online) (Scenario.silent (Scenario.listening [])))
                [TranscriptUpdate 0 (js "tell"); TimerDue 900 0;
                 TranscriptUpdate 1000 (js "tell me");
                 TranscriptUpdate 2000 Scenario.question;
                 TimerDue 3000 2; TimerDue 3600 2]))
  = [3600%Z].
Proof. reflexivity. Qed.

Lemma barge_in_witness :
  ~ In 3 (playing
            (final (run (browser Scenario.online)
                        (voiceInterruptionEffect
                           (setCurrentAudio (Some 3)
                              (setIsPlayingResponse true (Scenario.listening []))))
                        (withPlaying (cons 3)
                           (Scenario.silent
                              (setCurrentAudio (Some 3)
                                 (setIsPlayingResponse true (Scenario.listening [])))))))).
Proof.
  destruct (barge_in (setCurrentAudio (Some 3)
                        (setIsPlayingResponse true (Scenario.listening [])))
                     (browser Scenario.online)
                     (withPlaying (cons 3)
                        (Scenario.silent
                           (setCurrentAudio (Some 3)
                              (setIsPlayingResponse true (Scenario.listening [])))))
                     eq_refl eq_refl eq_refl eq_refl) as (_ & _ & H & _).
  exact (proj1 (H 3 (or_introl eq_refl))).
Defined.

Lemma filterUrlsFromText_clean_witness :
  speechRequests
    (trace (run (browser Scenario.online)
                (handleLiveChatMessage Scenario.asciiLower (Some Scenario.hookUrl)
                   (Scenario.listening (js "hello")) (js "hello"))
                (Scenario.silent (Scenario.listening (js "hello")))))
  = [filterUrlsFromText (js "We open at nine.")] /\
  Spoken (js "See https://a.b/c and   www.x.y or foo.com/bar now ")
         (js "See and or now") /\
  ~ lang urlRegex (js "and").
Proof.
  split; [|split].
  - destruct (proj2 (proj2 (proj2 (filterUrlsFromText_clean [])))
                Scenario.asciiLower (Some Scenario.hookUrl)
                (Scenario.listening (js "hello")) (js "hello")
                (browser Scenario.online)
                (Scenario.silent (Scenario.listening (js "hello")))
                eq_refl eq_refl) as (w' & ack & E & _ & G).
    rewrite E, (G eq_refl). reflexivity.
  - apply (proj1 (filterUrlsFromText_clean
                    (js "See https://a.b/c and   www.x.y or foo.com/bar now "))).
    reflexivity.
  - apply (proj1 (proj2 (filterUrlsFromText_clean
                           (js "See https://a.b/c and   www.x.y or foo.com/bar now ")))
                 (js "See ") (js "and") (js " or now")).
    reflexivity.
Defined.

(** A reply with a link, as the synthesiser gets it. *)
Example reply_without_link :
  speechRequests
    (trace (run (browser (Scenario.network (inr Scenario.success) (inr Scenario.success)
                            (Scenario.replying
                               (JString (js "Book at https://cal.test/me or call us.")))))
                (handleLiveChatMessage Scenario.asciiLower (Some Scenario.hookUrl)
                   (Scenario.listening (js "hello")) (js "hello"))
                (Scenario.silent (Scenario.listening (js "hello")))))
  = [js "Book at or call us."].
Proof. reflexivity. Qed.

(* ================================================================== *)
(** ** Further properties of the code *)

(* ================================================================== *)
(** ** More on the recogniser *)

Lemma gather_spec rs : forall a b,
  gather rs a b
  = (a ++ concat (map heard (filter isFinal rs)),
     b ++ concat (map heard (filter (fun r => negb (isFinal r)) rs))).
Proof.
  induction rs as [|r rs IH]; intros a b; simpl.
  - rewrite !app_nil_r. reflexivity.
  - destruct (isFinal r); simpl; rewrite IH, <- ?app_assoc; reflexivity.
Qed.

Lemma recognitionResult_final mounted event st :
  finalTranscript (recognitionResult mounted event st)
  = finalTranscript st
    ++ (if nonEmpty (finalText event) then finalText event ++ js " " else []).
Proof.
  unfold recognitionResult. cbv zeta. rewrite gather_spec. cbn [fst snd app].
  fold (finalText event).
  destruct (nonEmpty (finalText event)); simpl; [reflexivity|].
  rewrite app_nil_r. reflexivity.
Qed.

(** X5. Over any run of result events, [finalTranscript] only grows: each
    event adds its final text and one space, or nothing when it has no
    final text. *)
Theorem finalTranscript_accumulates (mounted : Render)
        (events : list SpeechRecognitionEvent) (st : Render) :
  finalTranscript (hearAll mounted events st)
  = finalTranscript st
    ++ flat_map (fun event =>
                   if nonEmpty (finalText event) then finalText event ++ js " " else [])
                events.
Proof.
  revert st. induction events as [|event events IH]; intros st; simpl.
  - rewrite app_nil_r. reflexivity.
  - unfold hearAll in *. simpl. rewrite IH, recognitionResult_final.
    rewrite <- app_assoc. reflexivity.
Qed.

(** X6. The listener reads [finalTranscript] of the first render, which is
    empty: after any run of events, [transcript] is the text of the last
    event alone - its final text, a space, its interim text - and is never
    empty; what earlier events finalised is not in it. *)
Theorem transcript_is_last_event (mounted : Render)
        (events : list SpeechRecognitionEvent) (event : SpeechRecognitionEvent)
        (st : Render) :
  finalTranscript mounted = [] ->
  transcript (hearAll mounted (events ++ [event]) st)
  = finalText event ++ js " " ++ interimText event /\
  nonEmpty (transcript (hearAll mounted (events ++ [event]) st)) = true.
Proof.
  intros Hm. unfold hearAll. rewrite fold_left_app. cbn [fold_left].
  match goal with |- context [recognitionResult mounted event ?b] => set (before := b) end.
  assert (E : transcript (recognitionResult mounted event before)
              = finalText event ++ js " " ++ interimText event).
  { unfold recognitionResult. cbv zeta. rewrite gather_spec, Hm. cbn [fst snd app].
    fold (finalText event). fold (interimText event).
    destruct (nonEmpty (finalText event)); simpl; rewrite <- app_assoc; reflexivity. }
  rewrite E. split; [reflexivity|].
  destruct (finalText event); reflexivity.
Qed.

Lemma transcript_is_last_event_witness :
  transcript
    (hearAll (Scenario.listening [])
       ([ {| resultIndex := 0;
             results := [ {| isFinal := true; heard := js "book a table" |} ] |} ]
        ++ [ {| resultIndex := 1;
                results := [ {| isFinal := true; heard := js "book a table" |};
                             {| isFinal := false; heard := js "for two" |} ] |} ])
       (Scenario.listening []))
  = finalText {| resultIndex := 1;
                 results := [ {| isFinal := true; heard := js "book a table" |};
                              {| isFinal := false; heard := js "for two" |} ] |}
    ++ js " "
    ++ interimText {| resultIndex := 1;
                      results := [ {| isFinal := true; heard := js "book a table" |};
                                   {| isFinal := false; heard := js "for two" |} ] |}.
Proof.
  apply (transcript_is_last_event (Scenario.listening [])). reflexivity.
Defined.

(* ================================================================== *)
(** ** More on the list of files *)

Lemma filterFrom_remove {A} (l : list A) : forall i index,
  i <= index ->
  filterFrom i (fun _ j => negb (j =? index)) l
  = firstn (index - i) l ++ skipn (S (index - i)) l.
Proof.
  induction l as [|x l IH]; intros i index H; simpl.
  - rewrite firstn_nil. reflexivity.
  - destruct (Nat.eq_dec i index) as [->|Hne].
    + rewrite Nat.eqb_refl, Nat.sub_diag. simpl.
      clear IH H. revert index.
      assert (K : forall j index, index < j ->
                    filterFrom j (fun (_ : A) k => negb (k =? index)) l = l).
      { induction l as [|y l IHl]; intros j index Hj; simpl; [reflexivity|].
        replace (j =? index) with false by (symmetry; apply Nat.eqb_neq; lia).
        simpl. rewrite IHl by lia. reflexivity. }
      intros index. apply K. lia.
    + replace (i =? index) with false by (symmetry; apply Nat.eqb_neq; lia).
      simpl. rewrite IH by lia.
      replace (index - i) with (S (index - S i)) by lia. reflexivity.
Qed.

Lemma removeFile_split {A} (index : nat) (prev : list A) :
  removeFile index prev = firstn index prev ++ skipn (S index) prev.
Proof.
  unfold removeFile. rewrite filterFrom_remove by lia.
  rewrite Nat.sub_0_r. reflexivity.
Qed.

(** X7. [removeFile] takes out the file at the index and keeps the others in
    order; an index past the end takes out nothing. *)
Theorem removeFile_spec {A} (index : nat) (prev : list A) :
  removeFile index prev = firstn index prev ++ skipn (S index) prev /\
  (length prev <= index -> removeFile index prev = prev).
Proof.
  split; [apply removeFile_split|].
  intros H. rewrite removeFile_split, firstn_all2 by lia. rewrite skipn_all2 by lia.
  apply app_nil_r.
Qed.

Lemma removeFile_spec_witness : removeFile 5 [1; 2; 3] = [1; 2; 3].
Proof. apply (removeFile_spec 5 [1; 2; 3]). simpl. lia. Defined.

(** X8. Outside live chat the selected files go to the end of the list, in
    their order and after the files already there, and removing one of
    them afterwards takes out that file alone; in live chat selecting
    changes nothing. *)
Theorem select_then_remove {A} (r : Render) (files prev : list A) :
  (isLiveChatMode r = false ->
   handleFileSelect r files prev = prev ++ files /\
   forall j, j < length files ->
     removeFile (length prev + j) (handleFileSelect r files prev)
     = prev ++ removeFile j files) /\
  (isLiveChatMode r = true -> handleFileSelect r files prev = prev).
Proof.
  split; intros H; unfold handleFileSelect; rewrite H; [|reflexivity].
  split; [reflexivity|]. intros j Hj.
  rewrite !removeFile_split.
  rewrite firstn_app, firstn_all2 by lia.
  rewrite skipn_app, skipn_all2 by lia.
  replace (length prev + j - length prev) with j by lia.
  replace (S (length prev + j) - length prev) with (S j) by lia.
  rewrite <- app_assoc. reflexivity.
Qed.

Lemma select_then_remove_witness :
  removeFile (length [1; 2] + 0)
             (handleFileSelect (setIsLiveChatMode false (Scenario.listening []))
                               [7; 8] [1; 2])
  = [1; 2] ++ removeFile 0 [7; 8].
Proof.
  apply (proj1 (select_then_remove (setIsLiveChatMode false (Scenario.listening []))
                  [7; 8] [1; 2])
               eq_refl).
  simpl. lia.
Defined.

(* ================================================================== *)
(** ** More on the live-chat controls *)

(** X9. The Mute button pauses the response audio and the filler audio of its
    render and starts nothing.  The playing flag is cleared only when the
    render holds a response audio; the turn in progress, the mode, the
    transcript and the timers are left as they are. *)
Theorem mute_silences (r : Render) (e : env) (w : World) :
  Immediate (handleMute r) /\
  (forall a, currentAudio r = Some a \/ thinkingAudio r = Some a ->
             ~ In a (playing (final (run e (handleMute r) w)))) /\
  (forall a, In a (playing (final (run e (handleMute r) w))) -> In a (playing w)) /\
  (currentAudio r <> None ->
   currentAudio (state (final (run e (handleMute r) w))) = None /\
   isPlayingResponse (state (final (run e (handleMute r) w))) = false) /\
  (currentAudio r = None ->
   currentAudio (state (final (run e (handleMute r) w))) = currentAudio (state w) /\
   isPlayingResponse (state (final (run e (handleMute r) w)))
   = isPlayingResponse (state w)) /\
  isProcessingVoice (state (final (run e (handleMute r) w))) = isProcessingVoice (state w) /\
  isLiveChatMode (state (final (run e (handleMute r) w))) = isLiveChatMode (state w) /\
  transcript (state (final (run e (handleMute r) w))) = transcript (state w) /\
  timers (final (run e (handleMute r) w)) = timers w.
Proof.
  unfold handleMute, stopContinuousThinking.
  destruct (currentAudio r) as [a|], (thinkingAudio r) as [b|]; simpl;
    (split; [repeat constructor|]);
    (split; [intros x [H|H]; try discriminate; injection H as <-; intros K;
             repeat first [apply not_in_without in K; contradiction
                          | apply without_subset in K]; try contradiction |]);
    (split; [intros x K; repeat apply without_subset in K; exact K|]);
    (split; [intros H; try (exfalso; apply H; reflexivity); split; reflexivity|]);
    (split; [intros H; try discriminate; split; reflexivity|]);
    repeat split.
Qed.

Lemma mute_silences_witness :
  ~ In 3 (playing
            (final (run (browser Scenario.online)
                        (handleMute (setCurrentAudio (Some 3) (Scenario.listening [])))
                        (withPlaying (cons 3)
                           (Scenario.silent
                              (setCurrentAudio (Some 3) (Scenario.listening []))))))).
Proof.
  apply (proj1 (proj2 (mute_silences
                         (setCurrentAudio (Some 3) (Scenario.listening []))
                         (browser Scenario.online)
                         (withPlaying (cons 3)
                            (Scenario.silent
                               (setCurrentAudio (Some 3) (Scenario.listening []))))))
               3).
  left. reflexivity.
Defined.

(** X10. Leaving live chat from the render on screen: every audio of the
    render is paused, both references and both flags are cleared, the three
    transcripts are emptied, and a recogniser that listens is stopped.  The
    handler waits for nothing and clears no timer itself. *)
Theorem leaving_live_chat (r : Render) (e : env) (w : World) :
  state w = r ->
  isLiveChatMode r = true ->
  (isListening r = true -> isSupported r = true) ->
  let o := run e (handleLiveChatToggle r) w in
  Immediate (handleLiveChatToggle r) /\
  result o = inr tt /\
  isLiveChatMode (state (final o)) = false /\
  isProcessingVoice (state (final o)) = false /\
  isPlayingResponse (state (final o)) = false /\
  currentAudio (state (final o)) = None /\
  thinkingAudio (state (final o)) = None /\
  transcript (state (final o)) = [] /\
  finalTranscript (state (final o)) = [] /\
  liveChatTranscript (state (final o)) = [] /\
  isListening (state (final o)) = false /\
  (isListening r = true -> In (Did RecognitionStop) (trace o)) /\
  (forall a, currentAudio r = Some a \/ thinkingAudio r = Some a ->
             ~ In a (playing (final o))) /\
  timers (final o) = timers w.
Proof.
  intros Hs Hl Hsup. subst r. cbv zeta.
  unfold handleLiveChatToggle, stopListening, stopContinuousThinking, resetTranscript, log.
  rewrite Hl.
  assert (P : forall a l, ~ In a (without a l)) by exact not_in_without.
  assert (Q : forall a b l, In a (without b l) -> In a l) by exact without_subset.
  destruct (isListening (state w)) eqn:L;
    [rewrite (Hsup eq_refl)|];
    destruct (currentAudio (state w)) as [a|] eqn:Ec,
             (thinkingAudio (state w)) as [b|] eqn:Et; simpl; rewrite ?L, ?Ec, ?Et.
  all: split; [repeat constructor|].
  all: repeat (split; [reflexivity|]).
  all: split; [first [intros X; discriminate X
                     | intros _; repeat first [left; reflexivity | right]]|].
  all: split; [|reflexivity].
  all: intros x [H|H]; try discriminate; injection H as <-; intros K.
  all: repeat first [apply P in K; contradiction | apply Q in K].
  all: try contradiction.
Qed.

Lemma leaving_live_chat_witness :
  transcript
    (state (final (run (browser Scenario.online)
                       (handleLiveChatToggle (Scenario.listening (js "book a table")))
                       (Scenario.silent (Scenario.listening (js "book a table"))))))
  = [].
Proof.
  apply (leaving_live_chat (Scenario.listening (js "book a table"))
           (browser Scenario.online)
           (Scenario.silent (Scenario.listening (js "book a table"))));
    reflexivity.
Defined.

(** X11. Entering live chat never fails, whatever the recogniser does.  Without
    a recogniser the mode is switched on and nothing else happens: nothing
    is started and nothing will be heard.  With one that does not listen
    yet, it is asked to start and the level meter is started, also when
    the start is refused. *)
Theorem entering_live_chat (r : Render) (e : env) (w : World) :
  isLiveChatMode r = false ->
  let o := run e (handleLiveChatToggle r) w in
  result o = inr tt /\
  In (Did (SetIsLiveChatMode true)) (trace o) /\
  (isSupported r = false ->
   Immediate (handleLiveChatToggle r) /\
   isLiveChatMode (state (final o)) = true /\
   isListening (state (final o)) = isListening (state w) /\
   ~ In (Did StartVoiceLevelDetection) (trace o)) /\
  (isSupported r = true ->
   In (Did StartVoiceLevelDetection) (trace o) /\
   (isListening r = false -> In (Asked RecognitionStart) (trace o)) /\
   (isListening r = true -> ~ In (Asked RecognitionStart) (trace o))).
Proof.
  intros Hl. cbv zeta. unfold handleLiveChatToggle, startListening, log, logError.
  rewrite Hl.
  destruct (isSupported r), (isListening r); simpl;
    try destruct (fst (e (exn + unit)%type RecognitionStart _)); simpl;
    repeat split; try discriminate; try tauto; try (repeat constructor);
    intros; intuition discriminate.
Qed.

Lemma entering_live_chat_witness :
  In (Did (SetIsLiveChatMode true))
     (trace (run refusing
                 (handleLiveChatToggle
                    (setIsListening false (setIsLiveChatMode false (Scenario.listening []))))
                 (Scenario.silent
                    (setIsListening false (setIsLiveChatMode false (Scenario.listening [])))))).
Proof.
  apply (entering_live_chat
           (setIsListening false (setIsLiveChatMode false (Scenario.listening [])))
           refusing
           (Scenario.silent
              (setIsListening false (setIsLiveChatMode false (Scenario.listening []))))).
  reflexivity.
Defined.

(* ================================================================== *)
(** ** More on sendMessage and the turn *)

(** X12. Without a configured URL sendMessage fails before any request and
    logs nothing.  With one it makes exactly one request, to that URL,
    with the session, the action [sendMessage] and the message; it logs
    one error exactly when it fails, and a rejected request is thrown on
    as it came. *)
Theorem sendMessage_requests
        (apiUrl : option jsstring) (sid msg : jsstring) (e : env) (w : World) :
  let o := run e (sendMessage apiUrl sid msg) w in
  (apiUrl = None \/ apiUrl = Some [] ->
   trace o = [] /\ result o = inl (Error "Chatbot API URL not configured")) /\
  (forall url,
     apiUrl = Some url -> nonEmpty url = true ->
     requests (trace o) = [(url, ChatMessage sid (js "sendMessage") msg)] /\
     loggedErrors (trace o)
     = match result o with
       | inl _ => ["Error sending message:"%string]
       | inr _ => []
       end /\
     (forall x,
        fst (e _ (Fetch url (ChatMessage sid (js "sendMessage") msg)) w) = inl x ->
        result o = inl x)).
Proof.
  cbv zeta. split.
  - intros [->| ->]; simpl; auto.
  - intros url -> Hu. unfold sendMessage, await, logError. rewrite Hu. simpl.
    destruct (fst (e _ (Fetch url (ChatMessage sid (js "sendMessage") msg)) w))
      as [x|response]; simpl.
    { repeat split. intros y H. injection H as <-. reflexivity. }
    destruct (ok response); simpl.
    2:{ repeat split. intros y H. discriminate H. }
    match goal with
    | |- context [fst (e _ (ResponseJson response) ?w0)] =>
        destruct (fst (e _ (ResponseJson response) w0)) as [x|data]
    end; simpl.
    { repeat split. intros y H. discriminate H. }
    destruct (getOutput data) as [output|]; simpl.
    2:{ repeat split. intros y H. discriminate H. }
    destruct (truthy data && typeofObject data && truthy output); simpl;
      repeat split; intros y H; discriminate H.
Qed.

Lemma sendMessage_requests_witness :
  requests (trace (run (browser Scenario.backendDown)
                       (sendMessage (Some Scenario.hookUrl) (js "session-1") (js "hello"))
                       (Scenario.silent (Scenario.listening []))))
  = [(Scenario.hookUrl, ChatMessage (js "session-1") (js "sendMessage") (js "hello"))].
Proof.
  apply (proj2 (sendMessage_requests (Some Scenario.hookUrl) (js "session-1") (js "hello")
                  (browser Scenario.backendDown) (Scenario.silent (Scenario.listening [])))
               Scenario.hookUrl eq_refl eq_refl).
Defined.

(** X13. A message that is blank, or a handler whose render is already
    processing, makes no request and speaks nothing; it still pauses the
    audios of its render and clears the playing flag, and leaves the
    processing flag as it is. *)
Theorem blank_message_skipped
        (toLowerCase : jsstring -> jsstring) (apiUrl : option jsstring)
        (r : Render) (messageText : jsstring) (e : env) (w : World) :
  nonEmpty (trim messageText) = false \/ isProcessingVoice r = true ->
  let o := run e (handleLiveChatMessage toLowerCase apiUrl r messageText) w in
  Immediate (handleLiveChatMessage toLowerCase apiUrl r messageText) /\
  result o = inr tt /\
  requests (trace o) = [] /\
  isProcessingVoice (state (final o)) = isProcessingVoice (state w) /\
  isPlayingResponse (state (final o)) = false /\
  (forall a, currentAudio r = Some a \/ thinkingAudio r = Some a ->
             ~ In a (playing (final o))) /\
  timers (final o) = timers w.
Proof.
  intros H. cbv zeta.
  assert (G : negb (nonEmpty (trim messageText)) || isProcessingVoice r = true).
  { destruct H as [-> | ->]; [reflexivity | apply orb_true_r]. }
  unfold handleLiveChatMessage, stopContinuousThinking, log. rewrite G.
  assert (P : forall a l, ~ In a (without a l)) by exact not_in_without.
  assert (Q : forall a b l, In a (without b l) -> In a l) by exact without_subset.
  destruct (currentAudio r) as [a|], (thinkingAudio r) as [b|]; simpl.
  all: split; [repeat constructor|].
  all: repeat (split; [reflexivity|]).
  all: split; [|reflexivity].
  all: intros x [K|K]; try discriminate; injection K as <-; intros K.
  all: repeat first [apply P in K; contradiction | apply Q in K].
  all: try contradiction.
Qed.

Lemma blank_message_skipped_witness :
  requests
    (trace (run (browser Scenario.online)
                (handleLiveChatMessage Scenario.asciiLower (Some Scenario.hookUrl)
                   (Scenario.listening (js "   ")) (js "   "))
                (Scenario.silent (Scenario.listening (js "   ")))))
  = [].
Proof.
  apply (blank_message_skipped Scenario.asciiLower (Some Scenario.hookUrl)
           (Scenario.listening (js "   ")) (js "   ") (browser Scenario.online)
           (Scenario.silent (Scenario.listening (js "   ")))).
  left. reflexivity.
Defined.

(* ================================================================== *)
(** ** More on filterUrlsFromText *)

Lemma strip_fixed v :
  (forall k, matchAt urlRegex (skipn k v) = None) -> strip v = v.
Proof.
  induction v as [|c v IH]; intros H.
  - apply UrlFacts.strip_nil.
  - rewrite (UrlFacts.strip_keep c v (H 0)). f_equal.
    apply IH. intros k. exact (H (S k)).
Qed.

Lemma no_part_no_match v :
  (forall pre m post, v = pre ++ m ++ post -> ~ lang urlRegex m) ->
  forall k, matchAt urlRegex (skipn k v) = None.
Proof.
  intros H k. destruct (matchAt urlRegex (skipn k v)) as [n|] eqn:E; [|reflexivity].
  destruct (RegexFacts.matchAt_sound _ _ _ E) as [_ L].
  exfalso. apply (H (firstn k v) (firstn n (skipn k v)) (skipn n (skipn k v))); [|exact L].
  rewrite !firstn_skipn. reflexivity.
Qed.

Lemma squeeze_fixed v : wellSpaced v -> squeeze v = v.
Proof.
  induction v as [|c v IH]; intros W.
  - apply SpaceFacts.squeeze_nil.
  - assert (Wv : wellSpaced v).
    { apply (SpaceFacts.wellSpaced_inside [c] v []). rewrite app_nil_r. exact W. }
    destruct (isWhiteSpace c) eqn:Hc.
    + destruct (W [] c v eq_refl Hc) as [-> S].
      rewrite (SpaceFacts.squeeze_space _ v Hc).
      assert (R : runLength isWhiteSpace v = 0).
      { destruct v as [|d v']; simpl in *; [reflexivity|]. rewrite S. reflexivity. }
      rewrite R. simpl. rewrite (IH Wv). reflexivity.
    + rewrite (SpaceFacts.squeeze_keep _ v Hc), (IH Wv). reflexivity.
Qed.

(** X14. Filtering twice is filtering once: what the function returns it
    leaves as it is. *)
Theorem filterUrlsFromText_idempotent (text : jsstring) :
  filterUrlsFromText (filterUrlsFromText text) = filterUrlsFromText text.
Proof.
  assert (M : forall k, matchAt urlRegex (skipn k (filterUrlsFromText text)) = None).
  { apply no_part_no_match. intros pre m post E Hl.
    destruct (UrlFacts.url_word _ Hl) as [_ Hall].
    unfold filterUrlsFromText in E. fold (strip text) in E. fold (squeeze (strip text)) in E.
    destruct (StringFacts.trim_inside (squeeze (strip text))) as (a & b & T).
    rewrite E in T.
    destruct (SpaceFacts.squeeze_inside (strip text) (a ++ pre) m (post ++ b) Hall)
      as (pre' & post' & K).
    { rewrite T, <- !app_assoc. reflexivity. }
    exact (UrlFacts.strip_clean _ _ _ _ K Hl). }
  assert (W : wellSpaced (filterUrlsFromText text)).
  { unfold filterUrlsFromText. fold (strip text). fold (squeeze (strip text)).
    destruct (StringFacts.trim_inside (squeeze (strip text))) as (a & b & T).
    apply (SpaceFacts.wellSpaced_inside a _ b). rewrite <- T.
    apply SpaceFacts.squeeze_wellSpaced. }
  unfold filterUrlsFromText at 1.
  fold (strip (filterUrlsFromText text)). rewrite (strip_fixed _ M).
  fold (squeeze (filterUrlsFromText text)). rewrite (squeeze_fixed _ W).
  unfold filterUrlsFromText. apply trim_trim.
Qed.

(** X15. A text in which the URL expression matches at no position, whose
    white space is single spaces between other characters, is spoken as
    it is. *)
Theorem filterUrlsFromText_plain (text : jsstring) :
  (forall k, matchAt urlRegex (skipn k text) = None) ->
  wellSpaced text ->
  trim text = text ->
  filterUrlsFromText text = text.
Proof.
  intros M W T. unfold filterUrlsFromText.
  fold (strip text). rewrite (strip_fixed text M).
  fold (squeeze text). rewrite (squeeze_fixed text W). exact T.
Qed.

Lemma filterUrlsFromText_plain_witness :
  filterUrlsFromText (js "We open at nine") = js "We open at nine".
Proof.
  apply (filterUrlsFromText_plain (js "We open at nine")).
  - intros k. do 16 (destruct k as [|k]; [reflexivity|]). destruct k; reflexivity.
  - assert (E : squeeze (js "We open at nine") = js "We open at nine") by reflexivity.
    rewrite <- E. apply SpaceFacts.squeeze_wellSpaced.
  - reflexivity.
Defined.

(* ================================================================== *)
(** ** More on the debounce *)

(** X16. Whatever updates arrive and whenever the browser looks at its timers,
    at most one debounce timer is armed. *)
Theorem one_debounce_timer (n : Network) (w : World) (evs : list event) :
  timers w = [] ->
  length (timers (world (handleAll (browser n) (mount (browser n) w) evs))) <= 1.
Proof.
  intros H. apply DebounceFacts.tidy_length. apply DebounceFacts.handleAll_tidy.
  apply DebounceFacts.commit_tidy. left. exact H.
Qed.

Lemma one_debounce_timer_witness :
  length (timers (world (handleAll (browser Scenario.online)
                           (mount (browser Scenario.online)
                                  (Scenario.silent (Scenario.listening [])))
                           [TranscriptUpdate 0 (js "tell"); TimerDue 1600 0;
                            TranscriptUpdate 1700 (js "tell me");
                            TranscriptUpdate 4000 [];
                            TranscriptUpdate 4100 (js "more")])))
  <= 1.
Proof.
  apply (one_debounce_timer Scenario.online (Scenario.silent (Scenario.listening []))).
  reflexivity.
Defined.

(** X17. Whatever updates arrive and whenever the browser looks at its timers,
    a debounce callback is entered only 1500 ms or more after the moment
    that armed it - an update of the transcript, or the first render - and
    it holds the transcript of that moment, taken in live chat with
    nothing in progress. *)
Theorem debounce_quiet_period
        (n : Network) (w : World) (evs : list event) (t : Z) (cb : callback) :
  timers w = [] ->
  In (t, cb) (started (handleAll (browser n) (mount (browser n) w) evs)) ->
  exists t0 r,
    cb = LiveChatTimeout r /\ (t0 + 1500 <= t)%Z /\ eligible r = true /\
    ((t0 = clock w /\ r = state w) \/ In (TranscriptUpdate t0 (transcript r)) evs).
Proof.
  intros H K.
  assert (W : waited (fun t0 r => t0 = clock w /\ r = state w) (mount (browser n) w)).
  { unfold mount. apply commit_waited.
    - split; simpl; [rewrite H; intros ? ? ? [] | intros ? ? []].
    - intros _. split; reflexivity. }
  destruct (handleAll_waited n evs _ _ W) as [_ B].
  exact (B t cb K).
Qed.

Lemma debounce_quiet_period_witness :
  exists t0 r,
    LiveChatTimeout (setLiveChatTranscript (js "tell")
                       (setTranscript (js "tell me") (Scenario.listening [])))
    = LiveChatTimeout r /\ (t0 + 1500 <= 3300)%Z /\ eligible r = true /\
    ((t0 = clock (Scenario.silent (Scenario.listening [])) /\
      r = state (Scenario.silent (Scenario.listening []))) \/
     In (TranscriptUpdate t0 (transcript r))
        [TranscriptUpdate 0 (js "tell"); TimerDue 900 0;
         TranscriptUpdate 1000 (js "tell me"); TimerDue 3300 1]).
Proof.
  apply (debounce_quiet_period Scenario.online (Scenario.silent (Scenario.listening []))
           [TranscriptUpdate 0 (js "tell"); TimerDue 900 0;
            TranscriptUpdate 1000 (js "tell me"); TimerDue 3300 1]
           3300).
  - reflexivity.
  - simpl. left. reflexivity.
Defined.

(** X18. What is heard while live chat is off, while a turn is processed or a
    response plays, and an update to the empty transcript, arm no timer and
    cancel the one that was armed. *)
Theorem update_while_busy (n : Network) (m : Machine) (t : Z) (s : jsstring) :
  tidy m ->
  lastDeps m = Some (liveChatDeps (state (world m))) ->
  s <> transcript (state (world m)) ->
  isLiveChatMode (state (world m)) = false \/
  isProcessingVoice (state (world m)) = true \/
  isPlayingResponse (state (world m)) = true \/
  s = [] ->
  timers (world (handle (browser n) m (TranscriptUpdate t s))) = [] /\
  cleanup (handle (browser n) m (TranscriptUpdate t s)) = None /\
  started (handle (browser n) m (TranscriptUpdate t s)) = started m.
Proof.
  intros T Hd Hs Hb. cbn [handle]. rewrite DebounceFacts.commit_rerun.
  2:{ cbn [lastDeps world state withState withClock]. rewrite Hd.
      unfold liveChatDeps. cbn [transcript setTranscript isLiveChatMode
                                  isProcessingVoice isPlayingResponse].
      apply DebounceFacts.sameDeps_transcript. auto. }
  cbv zeta. cbn [world state withState withClock cleanup started lastDeps].
  assert (El : eligible (setTranscript s (state (world m))) = false).
  { unfold eligible. simpl.
    destruct Hb as [-> | [-> | [-> | ->]]]; simpl;
      rewrite ?andb_false_r; reflexivity. }
  unfold liveChatEffect. fold (eligible (setTranscript s (state (world m)))).
  rewrite El. simpl.
  repeat split.
  destruct T as [E|(id & d & cb & E & ->)].
  - destruct (cleanup m); simpl; rewrite ?E; reflexivity.
  - simpl. rewrite E. apply DebounceFacts.disarm_single.
Qed.

Lemma update_while_busy_witness :
  timers (world (handle (browser Scenario.online)
                   (handle (browser Scenario.online)
                      (mount (browser Scenario.online)
                             (Scenario.silent (Scenario.listening [])))
                      (TranscriptUpdate 0 (js "tell")))
                   (TranscriptUpdate 700 [])))
  = [].
Proof.
  apply (update_while_busy Scenario.online
           (handle (browser Scenario.online)
              (mount (browser Scenario.online) (Scenario.silent (Scenario.listening [])))
              (TranscriptUpdate 0 (js "tell")))
           700 []).
  - right. exists 0, 1500%Z. eexists. split; reflexivity.
  - reflexivity.
  - discriminate.
  - right. right. right. reflexivity.
Defined.

Lemma toggle_exit (r : Render) (e : env) (w : World) :
  isLiveChatMode r = true ->
  timers (final (run e (handleLiveChatToggle r) w)) = timers w /\
  isLiveChatMode (state (final (run e (handleLiveChatToggle r) w))) = false.
Proof.
  intros Hl.
  unfold handleLiveChatToggle, stopListening, stopContinuousThinking, resetTranscript, log.
  rewrite Hl.
  destruct (isListening r), (isSupported r), (currentAudio r), (thinkingAudio r);
    simpl; split; reflexivity.
Qed.

(** X19. Leaving live chat while a transcript waits for its 1500 ms: the timer
    is cancelled, so what was heard is never sent. *)
Theorem leaving_cancels_pending_turn (e : env) (m : Machine) :
  tidy m ->
  lastDeps m = Some (liveChatDeps (state (world m))) ->
  isLiveChatMode (state (world m)) = true ->
  timers (world (clickLiveChatToggle e m)) = [] /\
  isLiveChatMode (state (world (clickLiveChatToggle e m))) = false /\
  forall later, Forall isTimerDue later ->
    started (handleAll e (clickLiveChatToggle e m) later) = started m.
Proof.
  intros T Hd Hl. unfold clickLiveChatToggle.
  destruct (toggle_exit (state (world m)) e (world m) Hl) as [Ht Hm].
  set (w' := final (run e (handleLiveChatToggle (state (world m))) (world m))) in *.
  rewrite DebounceFacts.commit_rerun.
  2:{ cbn [lastDeps world]. rewrite Hd. unfold liveChatDeps, sameDeps.
      rewrite Hl, Hm. simpl. rewrite andb_false_r. reflexivity. }
  cbv zeta. cbn [world cleanup started lastDeps].
  unfold liveChatEffect. rewrite Hm. simpl.
  assert (E : timers match cleanup m with
                     | Some t => withTimers (disarm t) w'
                     | None => w'
                     end = []).
  { destruct T as [E|(id & d & cb & E & ->)].
    - destruct (cleanup m); simpl; rewrite Ht, E; reflexivity.
    - simpl. rewrite Ht, E. apply DebounceFacts.disarm_single. }
  split; [exact E|]. split.
  { destruct (cleanup m); exact Hm. }
  intros later F.
  match goal with |- started (handleAll e ?m0 later) = _ =>
    assert (G : timers (world m0) = [] /\ started m0 = started m) by (split; [exact E|reflexivity]);
    generalize dependent m0 end.
  induction F as [|ev later Hev F IH]; intros m0 [G1 G2]; [exact G2|].
  unfold handleAll. simpl. fold (handleAll e (handle e m0 ev) later).
  destruct ev as [t s|t id]; [destruct Hev|].
  apply IH. cbn [handle]. rewrite G1. simpl. auto.
Qed.

Lemma leaving_cancels_pending_turn_witness :
  timers (world (clickLiveChatToggle (browser Scenario.online)
                   (handle (browser Scenario.online)
                      (mount (browser Scenario.online)
                             (Scenario.silent (Scenario.listening [])))
                      (TranscriptUpdate 0 (js "tell me the way")))))
  = [].
Proof.
  apply (leaving_cancels_pending_turn (browser Scenario.online)
           (handle (browser Scenario.online)
              (mount (browser Scenario.online) (Scenario.silent (Scenario.listening [])))
              (TranscriptUpdate 0 (js "tell me the way")))).
  - right. exists 0, 1500%Z. eexists. split; reflexivity.
  - reflexivity.
  - reflexivity.
Defined.

(* ================================================================== *)
(** ** More on the turn: what it sends and what it adds *)

Import CollectFacts RequestFacts.

(** X20. A turn that passes the guard of its handler asks the assistant
    exactly once, whatever happens: the request carries the session of the
    render and the message, and a failure is not followed by a second
    request. *)
Theorem turn_asks_once
        (toLowerCase : jsstring -> jsstring) (url : jsstring)
        (r : Render) (messageText : jsstring) (e : env) (w : World) :
  nonEmpty (trim messageText) = true ->
  isProcessingVoice r = false ->
  nonEmpty url = true ->
  collect chatOf
    (trace (run e (handleLiveChatMessage toLowerCase (Some url) r messageText) w))
  = [(url, ChatMessage (sessionId r) (js "sendMessage") messageText)].
Proof.
  intros Hm Hp Hu. unfold handleLiveChatMessage.
  rewrite Hm, Hp. cbn [negb orb].
  pass e. pass e. pass e. pass e.
  unfold log at 1. pass e.
  rewrite collect_tryFinally
    by (unfold log, stopContinuousThinking; none).
  rewrite collect_tryCatch
    by (intros x; unfold logError, stopContinuousThinking, speakText, log; none).
  match goal with
  | |- context [run e (bind ?p ?f) ?w0] =>
      destruct (collect_bind_safe chatOf e p f w0) as [w6 E];
      [ apply (CompletionFacts.safe_acknowledge toLowerCase r messageText)
      | unfold startContinuousThinking, playRandomThinkingSound, speakText, log, logError;
        none
      | rewrite E; clear E ]
  end.
  unfold log at 1. pass e.
  rewrite collect_bind_rest.
  - apply chat_sendMessage. exact Hu.
  - intros response.
    unfold log, logError, stopContinuousThinking, filterUrlsFromValue, speakText. none.
Qed.

Lemma turn_asks_once_witness :
  collect chatOf
    (trace (run (browser Scenario.backendDown)
              (handleLiveChatMessage Scenario.asciiLower (Some Scenario.hookUrl)
                 (Scenario.listening Scenario.question) Scenario.question)
              (Scenario.silent (Scenario.listening Scenario.question))))
  = [(Scenario.hookUrl,
      ChatMessage (sessionId (Scenario.listening Scenario.question)) (js "sendMessage")
                  Scenario.question)].
Proof.
  apply (turn_asks_once Scenario.asciiLower Scenario.hookUrl
           (Scenario.listening Scenario.question) Scenario.question
           (browser Scenario.backendDown)
           (Scenario.silent (Scenario.listening Scenario.question)));
    reflexivity.
Defined.

Lemma added_turn toLowerCase apiUrl r messageText e w :
  exists w',
    collect addOf
      (trace (run e (handleLiveChatMessage toLowerCase apiUrl r messageText) w))
    = if negb (nonEmpty (trim messageText)) || isProcessingVoice r then []
      else match result (run e (sendMessage apiUrl (sessionId r) messageText) w') with
           | inl _ => []
           | inr response =>
               if onAddMessage r
               then [(JString messageText, true); (response, false)]
               else []
           end.
Proof.
  unfold handleLiveChatMessage.
  destruct (negb (nonEmpty (trim messageText)) || isProcessingVoice r).
  { exists w. apply collect_every.
    unfold stopContinuousThinking, log. none. }
  pass e. pass e. pass e. pass e.
  unfold log at 1. pass e.
  rewrite collect_tryFinally
    by (unfold log, stopContinuousThinking; none).
  rewrite collect_tryCatch
    by (intros x; unfold logError, stopContinuousThinking, speakText, log; none).
  match goal with
  | |- context [run e (bind ?p ?f) ?w0] =>
      destruct (collect_bind_safe addOf e p f w0) as [w6 E];
      [ apply (CompletionFacts.safe_acknowledge toLowerCase r messageText)
      | unfold startContinuousThinking, playRandomThinkingSound, speakText, log, logError;
        none
      | rewrite E; clear E ]
  end.
  unfold log at 1. pass e.
  match goal with
  | |- context [run e (bind (sendMessage _ _ _) ?f) ?w0] => exists w0
  end.
  rewrite trace_bind, collect_app.
  rewrite (collect_every addOf (sendMessage apiUrl (sessionId r) messageText))
    by (unfold sendMessage, logError; none).
  cbn [app].
  destruct (result (run e (sendMessage apiUrl (sessionId r) messageText) _))
    as [x|response]; [reflexivity|].
  unfold log at 1. pass e. pass e.
  rewrite collect_bind_rest
    by (intros; unfold log, logError, filterUrlsFromValue, speakText; none).
  destruct (onAddMessage r); reflexivity.
Qed.

(** X21. What a turn adds to the conversation is nothing, or the user's
    message followed by the reply: never one without the other, never
    twice.  When the request to the assistant fails it is nothing: the
    user's message is not added either. *)
Theorem turn_adds_pair
        (toLowerCase : jsstring -> jsstring) (apiUrl : option jsstring)
        (r : Render) (messageText : jsstring) (e : env) (w : World) :
  let added :=
    collect addOf
      (trace (run e (handleLiveChatMessage toLowerCase apiUrl r messageText) w)) in
  (added = [] \/
   onAddMessage r = true /\
   exists response, added = [(JString messageText, true); (response, false)]) /\
  (forall url, apiUrl = Some url -> nonEmpty url = true -> backendFails e url ->
               added = []).
Proof.
  cbv zeta. destruct (added_turn toLowerCase apiUrl r messageText e w) as [w' E].
  rewrite E. split.
  - destruct (negb (nonEmpty (trim messageText)) || isProcessingVoice r); [auto|].
    destruct (result (run e (sendMessage apiUrl (sessionId r) messageText) w'))
      as [x|response]; [auto|].
    destruct (onAddMessage r); [|auto]. right. split; [reflexivity|]. eauto.
  - intros url -> Hu Hb.
    destruct (negb (nonEmpty (trim messageText)) || isProcessingVoice r); [reflexivity|].
    destruct (CompletionFacts.sendMessage_fails e url (sessionId r) messageText w' Hb Hu)
      as [x ->].
    reflexivity.
Qed.

Lemma turn_adds_pair_witness :
  collect addOf
    (trace (run (browser Scenario.backendDown)
              (handleLiveChatMessage Scenario.asciiLower (Some Scenario.hookUrl)
                 (Scenario.listening Scenario.question) Scenario.question)
              (Scenario.silent (Scenario.listening Scenario.question))))
  = [].
Proof.
  apply (proj2 (turn_adds_pair Scenario.asciiLower (Some Scenario.hookUrl)
                  (Scenario.listening Scenario.question) Scenario.question
                  (browser Scenario.backendDown)
                  (Scenario.silent (Scenario.listening Scenario.question)))
               Scenario.hookUrl eq_refl eq_refl).
  intros sid action message w0. simpl. left. reflexivity.
Defined.

(** X22. The debounce callback with a snapshot of more than two code units
    never throws, and however its turn goes it ends with the three
    transcripts empty. *)
Theorem timeout_resets_transcript
        (toLowerCase : jsstring -> jsstring) (apiUrl : option jsstring)
        (r : Render) (e : env) (w : World) :
  2 < length (trim (transcript r)) ->
  let o := run e (liveChatTimeout toLowerCase apiUrl r) w in
  result o = inr tt /\
  transcript (state (final o)) = [] /\
  finalTranscript (state (final o)) = [] /\
  liveChatTranscript (state (final o)) = [].
Proof.
  intros H. cbv zeta. unfold liveChatTimeout. cbv zeta.
  assert (C : nonEmpty (trim (transcript r)) && (2 <? length (trim (transcript r))) = true).
  { apply andb_true_iff. split; [|apply Nat.ltb_lt; exact H].
    destruct (trim (transcript r)); [simpl in H; lia | reflexivity]. }
  rewrite C. cbn [when].
  do 2 match goal with
       | |- context [run e (bind ?p ?f) ?w0] =>
           let Hs := fresh in
           assert (Hs : Safe p) by (unfold log; CompletionFacts.safe);
           destruct (CompletionFacts.run_bind_safe e p f w0 Hs) as (? & ? & -> & _ & ->);
           clear Hs
       end.
  match goal with
  | |- context [run e (bind ?p ?f) ?w0] =>
      destruct (CompletionFacts.run_bind_safe e p f w0
                  (CompletionFacts.safe_handleLiveChatMessage toLowerCase apiUrl r _))
        as (? & ? & -> & _ & ->)
  end.
  unfold resetTranscript, log. simpl. auto.
Qed.

Lemma timeout_resets_transcript_witness :
  transcript
    (state (final (run (browser Scenario.online)
                       (liveChatTimeout Scenario.asciiLower (Some Scenario.hookUrl)
                          (Scenario.listening Scenario.question))
                       (Scenario.silent (Scenario.listening Scenario.question)))))
  = [].
Proof.
  apply (timeout_resets_transcript Scenario.asciiLower (Some Scenario.hookUrl)
           (Scenario.listening Scenario.question) (browser Scenario.online)
           (Scenario.silent (Scenario.listening Scenario.question))).
  vm_compute. lia.
Defined.

(* ================================================================== *)
(** ** More on speakText and the greeting *)

(** X23. speakText never throws: whatever the synthesiser and the player do,
    the failure is caught and logged inside. *)
Theorem speakText_never_throws (r : Render) (text : jsstring) (e : env) (w : World) :
  result (run e (speakText r text) w) = inr tt.
Proof.
  destruct (ProcFacts.Safe_run _ (CompletionFacts.safe_speakText r text) e w) as [[] H].
  exact H.
Qed.

Lemma speakText_empty_witness :
  trace (run (browser Scenario.online)
             (speakText (Scenario.listening []) (js "   "))
             (Scenario.silent (Scenario.listening [])))
  = [Did (ConsoleError "Cannot speak empty text")].
Proof.
  apply (speakText_empty (Scenario.listening []) (js "   ") (browser Scenario.online)
           (Scenario.silent (Scenario.listening []))).
  reflexivity.
Defined.

Lemma speakText_pauses_captured_witness :
  currentAudio (setCurrentAudio (Some 3) (Scenario.listening [])) = Some 3.
Proof.
  apply (speakText_pauses_captured
           (setCurrentAudio (Some 3) (Scenario.listening [])) (js "Hello")
           (browser Scenario.online)
           (Scenario.silent (setCurrentAudio (Some 3) (Scenario.listening []))) 3).
  simpl. right. left. reflexivity.
Defined.

Lemma greeting_unacknowledged_witness :
  Forall (fun en => ~ fillerEntry en /\
                    en <> Did (ConsoleLog "Playing thinking message:"))
         (trace (run (browser Scenario.online)
                     (handleLiveChatMessage Scenario.asciiLower (Some Scenario.hookUrl)
                        (Scenario.listening (js "hello")) (js "hello"))
                     (Scenario.silent (Scenario.listening (js "hello"))))).
Proof.
  apply (greeting_unacknowledged Scenario.asciiLower (Some Scenario.hookUrl)
           (Scenario.listening (js "hello")) (js "hello") (browser Scenario.online)
           (Scenario.silent (Scenario.listening (js "hello")))).
  reflexivity.
Defined.

(* ================================================================== *)
(** ** Facts on storage.ts *)

Module StorageFacts.
Import Storage.

Lemma eqb_refl s : eqb s s = true.
Proof. apply eqb_true. reflexivity. Qed.


Lemma getItem_setItem_other key other value store :
  key <> other ->
  getItem other (setItem key value store) = getItem other store.
Proof.
  intros H. induction store as [|[k v] store IH]; simpl.
  - replace (eqb other key) with false; [reflexivity|].
    symmetry. apply eqb_false. congruence.
  - destruct (eqb key k) eqn:E; simpl.
    + apply eqb_true in E. subst k.
      replace (eqb other key) with false; [reflexivity|].
      symmetry. apply eqb_false. congruence.
    + rewrite IH. reflexivity.
Qed.

Lemma getItem_removeItem key store : getItem key (removeItem key store) = None.
Proof.
  induction store as [|[k v] store IH]; simpl; [reflexivity|].
  destruct (eqb key k) eqn:E; simpl; [exact IH|]. rewrite E. exact IH.
Qed.

Lemma getItem_removeItem_other key other store :
  key <> other ->
  getItem other (removeItem key store) = getItem other store.
Proof.
  intros H. induction store as [|[k v] store IH]; simpl; [reflexivity|].
  destruct (eqb key k) eqn:E; simpl.
  - apply eqb_true in E. subst k.
    replace (eqb other key) with false; [exact IH|].
    symmetry. apply eqb_false. congruence.
  - rewrite IH. reflexivity.
Qed.

Lemma removeItem_absent key store :
  getItem key store = None -> removeItem key store = store.
Proof.
  induction store as [|[k v] store IH]; simpl; [reflexivity|].
  destruct (eqb key k) eqn:E; [discriminate|]. simpl.
  intros H. rewrite (IH H). reflexivity.
Qed.

Lemma getStorageKey_injective a b : getStorageKey a = getStorageKey b -> a = b.
Proof. unfold getStorageKey. apply app_inv_head. Qed.

Lemma cookiesGet_cookiesSet now0 now name v days jar :
  (now < (now0 + days * msPerDay) / 1000 * 1000)%Z ->
  cookiesGet now name (cookiesSet now0 name v days jar) = Some v.
Proof.
  intros H. unfold cookiesGet, cookiesSet. simpl. rewrite eqb_refl.
  apply Z.ltb_lt in H. rewrite H. reflexivity.
Qed.

Lemma cookiesGet_cookiesRemove now name jar :
  cookiesGet now name (cookiesRemove name jar) = None.
Proof.
  unfold cookiesGet.
  assert (E : jarFind name (cookiesRemove name jar) = None).
  { induction jar as [|[n c] jar IH]; simpl; [reflexivity|].
    destruct (eqb name n) eqn:E; simpl; [exact IH|]. rewrite E. exact IH. }
  rewrite E. reflexivity.
Qed.

Lemma present_some s v : present s = Some v -> s = Some v /\ nonEmpty v = true.
Proof.
  destruct s as [u|]; simpl; [|discriminate].
  destruct (nonEmpty u) eqn:E; [|discriminate].
  intros H. injection H as <-. auto.
Qed.

Lemma present_nonEmpty v : nonEmpty v = true -> present (Some v) = Some v.
Proof. simpl. intros ->. reflexivity. Qed.

End StorageFacts.

Import Storage StorageFacts.

(** X24. The id that [getOrCreateSessionId] returns is not empty and is in the
    cookie; [localStorage] is not touched; and as long as the cookie gives
    that id, a further call returns it and changes nothing. *)
Theorem session_id_stable (now : Z) (stamp suffix : jsstring) (b : Browser) :
  nonEmpty (fst (getOrCreateSessionId now stamp suffix b)) = true /\
  cookiesGet now COOKIE_KEY (cookies (snd (getOrCreateSessionId now stamp suffix b)))
  = Some (fst (getOrCreateSessionId now stamp suffix b)) /\
  localStorage (snd (getOrCreateSessionId now stamp suffix b)) = localStorage b /\
  (forall now' stamp' suffix',
     cookiesGet now' COOKIE_KEY (cookies (snd (getOrCreateSessionId now stamp suffix b)))
     = Some (fst (getOrCreateSessionId now stamp suffix b)) ->
     getOrCreateSessionId now' stamp' suffix'
       (snd (getOrCreateSessionId now stamp suffix b))
     = getOrCreateSessionId now stamp suffix b).
Proof.
  unfold getOrCreateSessionId.
  destruct (present (cookiesGet now COOKIE_KEY (cookies b))) as [id|] eqn:P.
  - apply present_some in P. destruct P as [G N]. simpl.
    repeat split; auto.
    intros now' stamp' suffix' G'. rewrite G'. rewrite (present_nonEmpty _ N).
    reflexivity.
  - cbn [fst snd cookies localStorage].
    assert (N : nonEmpty (js "session_" ++ stamp ++ js "_" ++ suffix) = true)
      by reflexivity.
    repeat split; auto.
    + apply cookiesGet_cookiesSet. unfold EXPIRY_DAYS, msPerDay.
      pose proof (Z.div_mod (now + 30 * (1000 * 60 * 60 * 24)) 1000).
      pose proof (Z.mod_pos_bound (now + 30 * (1000 * 60 * 60 * 24)) 1000).
      lia.
    + intros now' stamp' suffix' G'. rewrite G'. rewrite (present_nonEmpty _ N).
      reflexivity.
Qed.

Lemma session_id_stable_witness :
  getOrCreateSessionId 5000 (js "5000") (js "zz")
    (snd (getOrCreateSessionId 1000 (js "1000") (js "k3j9x0a1b")
            {| cookies := []; localStorage := [] |}))
  = getOrCreateSessionId 1000 (js "1000") (js "k3j9x0a1b")
      {| cookies := []; localStorage := [] |}.
Proof.
  apply (proj2 (proj2 (proj2 (session_id_stable 1000 (js "1000") (js "k3j9x0a1b")
                                {| cookies := []; localStorage := [] |})))).
  reflexivity.
Defined.

Section HostFacts.

Variable stringify : json -> jsstring.
Variable parse : jsstring -> exn + json.
Variable toISOString : Z -> jsstring.
Variable dateOf : option json -> option Z.



(** X27. Saving one session does not change what loading another, by its id,
    returns. *)
Theorem sessions_are_separate (saved now : Z) (sessionId other : jsstring)
        (messages : json) (b : Browser) :
  sessionId <> other ->
  nonEmpty other = true ->
  value (loadSession parse dateOf now (Some other)
           (saveSession stringify toISOString saved sessionId messages b))
  = value (loadSession parse dateOf now (Some other) b) /\
  errors (loadSession parse dateOf now (Some other)
            (saveSession stringify toISOString saved sessionId messages b))
  = errors (loadSession parse dateOf now (Some other) b).
Proof.
  intros Hne Hother. unfold loadSession.
  assert (E : forall jar, present (either (Some other) (cookiesGet now COOKIE_KEY jar))
                          = Some other).
  { intros jar. unfold either. rewrite (present_nonEmpty _ Hother).
    apply present_nonEmpty, Hother. }
  rewrite !E. cbn [saveSession localStorage].
  rewrite getItem_setItem_other
    by (intros K; apply Hne; exact (getStorageKey_injective _ _ K)).
  destruct (present (getItem (getStorageKey other) (localStorage b))) as [stored|];
    [|auto].
  destruct (parse stored) as [x|session]; [auto|].
  destruct (property (js "lastActivity") session) as [x|activity]; [auto|].
  destruct (match dateOf activity with
            | Some lastActivity => (EXPIRY_DAYS * msPerDay <? now - lastActivity)%Z
            | None => false
            end); [auto|].
  destruct (property (js "messages") session); auto.
Qed.

(** X28. Text that the host cannot parse: nothing is returned and the error is
    logged.  Asked by id, the entry is removed; asked through the cookie,
    it stays where it is. *)
Theorem unreadable_session (now : Z) (sessionId text : jsstring) (x : exn)
        (b : Browser) :
  nonEmpty sessionId = true -> nonEmpty text = true ->
  getItem (getStorageKey sessionId) (localStorage b) = Some text ->
  parse text = inl x ->
  (value (loadSession parse dateOf now (Some sessionId) b) = None /\
   errors (loadSession parse dateOf now (Some sessionId) b)
   = ["Error loading session:"%string] /\
   getItem (getStorageKey sessionId)
           (localStorage (device (loadSession parse dateOf now (Some sessionId) b)))
   = None) /\
  (cookiesGet now COOKIE_KEY (cookies b) = Some sessionId ->
   loadSession parse dateOf now None b
   = {| value := None; device := b; errors := ["Error loading session:"%string] |}).
Proof.
  intros Hid Htext Hget Hparse. split.
  - unfold loadSession.
    assert (E : present (either (Some sessionId) (cookiesGet now COOKIE_KEY (cookies b)))
                = Some sessionId).
    { unfold either. rewrite (present_nonEmpty _ Hid). apply present_nonEmpty, Hid. }
    rewrite E, Hget, (present_nonEmpty _ Htext), Hparse.
    unfold loadFailed. rewrite (present_nonEmpty _ Hid). cbn [value errors device].
    unfold clearSession, either. rewrite !(present_nonEmpty _ Hid).
    cbn [localStorage]. repeat split. apply getItem_removeItem.
  - intros Hcookie. unfold loadSession, either. cbn [present]. rewrite Hcookie.
    rewrite (present_nonEmpty _ Hid), Hget, (present_nonEmpty _ Htext), Hparse.
    reflexivity.
Qed.

End HostFacts.

(** X29. [clearSession] with an id removes that session and nothing else: the
    cookie and every other entry stay, and the session can no longer be
    loaded.  Without an id it forgets the current session: the entry of
    the cookie's session and the cookie itself. *)
Theorem clearSession_effect (parse : jsstring -> exn + json)
        (dateOf : option json -> option Z)
        (now : Z) (sessionId : jsstring) (b : Browser) :
  nonEmpty sessionId = true ->
  (cookies (clearSession now (Some sessionId) b) = cookies b /\
   (forall other, other <> sessionId ->
      getItem (getStorageKey other) (localStorage (clearSession now (Some sessionId) b))
      = getItem (getStorageKey other) (localStorage b)) /\
   forall now',
     loadSession parse dateOf now' (Some sessionId) (clearSession now (Some sessionId) b)
     = {| value := None; device := clearSession now (Some sessionId) b; errors := [] |}) /\
  (cookiesGet now COOKIE_KEY (cookies b) = Some sessionId ->
   getItem (getStorageKey sessionId) (localStorage (clearSession now None b)) = None /\
   forall now', cookiesGet now' COOKIE_KEY (cookies (clearSession now None b)) = None).
Proof.
  intros Hid. split.
  - unfold clearSession, either. rewrite !(present_nonEmpty _ Hid).
    cbn [cookies localStorage]. repeat split.
    + intros other Hne. apply getItem_removeItem_other.
      intros K. apply Hne. symmetry. exact (getStorageKey_injective _ _ K).
    + intros now'. unfold loadSession, either. rewrite !(present_nonEmpty _ Hid).
      cbn [localStorage]. rewrite getItem_removeItem. reflexivity.
  - intros Hcookie. unfold clearSession, either. cbn [present]. rewrite Hcookie.
    rewrite (present_nonEmpty _ Hid). cbn [cookies localStorage]. split.
    + apply getItem_removeItem.
    + intros now'. apply cookiesGet_cookiesRemove.
Qed.



Lemma sessions_are_separate_witness :
  value (loadSession Kept.parse Kept.dateOf 5000 (Some (js "session-1"))
           (saveSession Kept.stringify Kept.toISOString 2000 (js "session-2") (JArray [])
              Kept.saved))
  = value (loadSession Kept.parse Kept.dateOf 5000 (Some (js "session-1")) Kept.saved).
Proof.
  apply (proj1 (sessions_are_separate Kept.stringify Kept.parse Kept.toISOString
                  Kept.dateOf 2000 5000 (js "session-2") (js "session-1") (JArray [])
                  Kept.saved ltac:(discriminate) eq_refl)).
Defined.

Lemma unreadable_session_witness :
  loadSession Kept.parse Kept.dateOf 5000 None Kept.damaged
  = {| value := None; device := Kept.damaged;
       errors := ["Error loading session:"%string] |}.
Proof.
  apply (proj2 (unreadable_session Kept.parse Kept.dateOf 5000 (js "session-1")
                  (js "{session") (Rejected "SyntaxError") Kept.damaged
                  eq_refl eq_refl eq_refl eq_refl)).
  reflexivity.
Defined.

Lemma clearSession_effect_witness :
  cookies (clearSession 5000 (Some (js "session-1")) Kept.saved) = cookies Kept.saved.
Proof.
  apply (proj1 (proj1 (clearSession_effect Kept.parse Kept.dateOf 5000 (js "session-1")
                         Kept.saved eq_refl))).
Defined.
